(** * QOI codec with an optional Huffman layer (qoi.h)

    A shallow embedding of [qoi_encode], [qoi_decode], [qoi_huff_encode] and
    [qoi_huff_decode] together with the properties of the codec.

    Conventions of the embedding:
    - C integers are [Z]; every conversion the C code performs (store into an
      [unsigned char], assignment to a [signed char], [unsigned int]
      arithmetic) is written out with [u8], [s8], [u32];
    - a C array is a [list] read with [get] and updated with [set];
    - a pointer argument that may be [NULL] is an [option];
    - an output buffer that is only written through a cursor [p] that moves
      forward ([bytes[p++] = v]) is the list of bytes written so far, paired
      with the cursor, so the byte written by a store sits at offset [p];
    - [QOI_MALLOC] is an oracle telling whether an allocation of a given size
      succeeds. *)

From Stdlib Require Import ZArith List Lia Bool Zbitwise Permutation.
Import ListNotations.
Local Open Scope Z_scope.

(** ** Machine integers *)

(** Conversion to [unsigned char]. *)
Definition u8 (v : Z) : Z := v mod 256.

(** Conversion to [signed char] (two's complement). *)
Definition s8 (v : Z) : Z := (v + 128) mod 256 - 128.

(** [unsigned int] arithmetic wraps modulo 2^32. *)
Definition u32 (v : Z) : Z := v mod 4294967296.

(** Conversion of an [unsigned int] to [int]. *)
Definition s32 (v : Z) : Z := (v + 2147483648) mod 4294967296 - 2147483648.

(** ** Arrays *)

Definition get {A : Type} (d : A) (l : list A) (i : Z) : A :=
  nth (Z.to_nat i) l d.

Fixpoint upd {A : Type} (l : list A) (n : nat) (x : A) : list A :=
  match l, n with
  | [], _ => []
  | _ :: t, O => x :: t
  | h :: t, S n' => h :: upd t n' x
  end.

Definition set {A : Type} (l : list A) (i : Z) (x : A) : list A :=
  upd l (Z.to_nat i) x.

(** The offsets [lo, lo+1, ..., lo+n-1]. *)
Definition zrange (lo : Z) (n : nat) : list Z :=
  map (fun i => lo + Z.of_nat i) (seq 0 n).

(** ** Data model *)

Record qoi_desc : Type := mk_desc {
  width : Z;        (* unsigned int *)
  height : Z;       (* unsigned int *)
  channels : Z;     (* unsigned char *)
  colorspace : Z    (* unsigned char *)
}.

(** [qoi_rgba_t]: the union of four bytes and one 32-bit value. *)
Record qoi_rgba_t : Type := mk_rgba {
  rgba_r : Z;
  rgba_g : Z;
  rgba_b : Z;
  rgba_a : Z
}.

(** [x.v == y.v]: the 32-bit views are equal when the four bytes are. *)
Definition rgba_eqb (x y : qoi_rgba_t) : bool :=
  (rgba_r x =? rgba_r y) && (rgba_g x =? rgba_g y) &&
  (rgba_b x =? rgba_b y) && (rgba_a x =? rgba_a y).

Definition QOI_OP_INDEX : Z := 0x00.
Definition QOI_OP_DIFF  : Z := 0x40.
Definition QOI_OP_LUMA  : Z := 0x80.
Definition QOI_OP_RUN   : Z := 0xc0.
Definition QOI_OP_RGB   : Z := 0xfe.
Definition QOI_OP_RGBA  : Z := 0xff.
Definition QOI_MASK_2   : Z := 0xc0.

Definition QOI_COLOR_HASH (C : qoi_rgba_t) : Z :=
  rgba_r C * 3 + rgba_g C * 5 + rgba_b C * 7 + rgba_a C * 11.

(** 'q' << 24 | 'o' << 16 | 'i' << 8 | 'f' *)
Definition QOI_MAGIC : Z :=
  Z.lor (Z.lor (Z.lor (Z.shiftl 113 24) (Z.shiftl 111 16)) (Z.shiftl 105 8)) 102.

Definition QOI_HEADER_SIZE : Z := 14.
Definition QOI_HUFF_MAX_BIT_NUM : Z := 32.
Definition QOI_HUFF_ENCODED_BIT : Z := 0x80.
Definition QOI_HUFF_DECODING_TABLE_WIDTH : Z := 11.
Definition QOI_PIXELS_MAX : Z := 400000000.

Definition qoi_padding : list Z := [0; 0; 0; 0; 0; 0; 0; 1].

(** [sizeof(qoi_padding)] *)
Definition sizeof_qoi_padding : Z := 8.

(** [QOI_ZEROARR(index)] *)
Definition zero_px : qoi_rgba_t := mk_rgba 0 0 0 0.
Definition zero_index : list qoi_rgba_t := repeat zero_px 64.

(** The start value of [px] and [px_prev]: r = g = b = 0, a = 255. *)
Definition start_px : qoi_rgba_t := mk_rgba 0 0 0 255.

(** ** Byte I/O primitives *)

(** An output buffer with its cursor: the bytes stored at offsets [0 .. p-1]
    and [p]. *)
Definition outbuf : Type := (list Z * Z)%type.

(** [bytes[p++] = v] through the cursor pointer *)
Definition put_byte (o : outbuf) (v : Z) : outbuf :=
  (fst o ++ [u8 v], snd o + 1).

Definition qoi_write_16 (o : outbuf) (v : Z) : outbuf :=
  let o := put_byte o (Z.shiftr (Z.land 0x0000ff00 v) 8) in
  put_byte o (Z.land 0x000000ff v).

Definition qoi_write_24 (o : outbuf) (v : Z) : outbuf :=
  let o := put_byte o (Z.shiftr (Z.land 0x00ff0000 v) 16) in
  let o := put_byte o (Z.shiftr (Z.land 0x0000ff00 v) 8) in
  put_byte o (Z.land 0x000000ff v).

Definition qoi_write_32 (o : outbuf) (v : Z) : outbuf :=
  let o := put_byte o (Z.shiftr (Z.land 0xff000000 v) 24) in
  let o := put_byte o (Z.shiftr (Z.land 0x00ff0000 v) 16) in
  let o := put_byte o (Z.shiftr (Z.land 0x0000ff00 v) 8) in
  put_byte o (Z.land 0x000000ff v).

(** The readers return the value read and the advanced cursor. *)
Definition qoi_read_16 (bytes : list Z) (p : Z) : Z * Z :=
  let c := get 0 bytes p in
  let d := get 0 bytes (p + 1) in
  (Z.lor (Z.shiftl c 8) d, p + 2).

Definition qoi_read_24 (bytes : list Z) (p : Z) : Z * Z :=
  let b := get 0 bytes p in
  let c := get 0 bytes (p + 1) in
  let d := get 0 bytes (p + 2) in
  (Z.lor (Z.lor (Z.shiftl b 16) (Z.shiftl c 8)) d, p + 3).

Definition qoi_read_32 (bytes : list Z) (p : Z) : Z * Z :=
  let a := get 0 bytes p in
  let b := get 0 bytes (p + 1) in
  let c := get 0 bytes (p + 2) in
  let d := get 0 bytes (p + 3) in
  (u32 (Z.lor (Z.lor (Z.lor (Z.shiftl a 24) (Z.shiftl b 16)) (Z.shiftl c 8)) d),
   p + 4).

(** An output buffer with the byte histogram that [qoi_huff_encode] keeps. *)
Definition histbuf : Type := (outbuf * list Z)%type.

(** [qoi_write_8_histo]: [bytes[p++] = v; histo[v]++], [v] an
    [unsigned char]. *)
Definition qoi_write_8_histo (o : histbuf) (v : Z) : histbuf :=
  (put_byte (fst o) v, set (snd o) (u8 v) (u32 (get 0 (snd o) (u8 v) + 1))).

(** [qoi_write_32_histo]: the four stores of [qoi_write_32], then the four
    increments of [histo]. *)
Definition qoi_write_32_histo (o : histbuf) (v : Z) : histbuf :=
  let out := fst o in
  let out := put_byte out (Z.shiftr (Z.land 0xff000000 v) 24) in
  let out := put_byte out (Z.shiftr (Z.land 0x00ff0000 v) 16) in
  let out := put_byte out (Z.shiftr (Z.land 0x0000ff00 v) 8) in
  let out := put_byte out (Z.land 0x000000ff v) in
  let bump (h : list Z) (i : Z) := set h i (u32 (get 0 h i + 1)) in
  let histo := snd o in
  let histo := bump histo (Z.shiftr (Z.land 0xff000000 v) 24) in
  let histo := bump histo (Z.shiftr (Z.land 0x00ff0000 v) 16) in
  let histo := bump histo (Z.shiftr (Z.land 0x0000ff00 v) 8) in
  let histo := bump histo (Z.land 0x000000ff v) in
  (out, histo).

(** ** Base encoder *)

(** The validation at the head of [qoi_encode] and [qoi_huff_encode]. *)
Definition encode_args_invalid (desc : qoi_desc) : bool :=
  (width desc =? 0) || (height desc =? 0) ||
  (channels desc <? 3) || (channels desc >? 4) ||
  (colorspace desc >? 1) ||
  (height desc >=? QOI_PIXELS_MAX / width desc).

(** [width * height * (channels + 1) + QOI_HEADER_SIZE + sizeof(qoi_padding)],
    computed in [unsigned int] and assigned to an [int]. *)
Definition encode_max_size (desc : qoi_desc) : Z :=
  s32 (u32 (u32 (u32 (width desc * height desc) * (channels desc + 1))
            + QOI_HEADER_SIZE) + sizeof_qoi_padding).

(** [width * height * channels] assigned to the [int] [px_len]. *)
Definition pixel_len (desc : qoi_desc) (channels : Z) : Z :=
  s32 (u32 (u32 (width desc * height desc) * channels)).

Section Encoder.

(** The pixel loop is the same text in [qoi_encode] and [qoi_huff_encode]
    except for the store: [bytes[p++] = v] in the first,
    [qoi_write_8_histo] in the second. *)
Context {W : Type}.
Variable put : W -> Z -> W.

Record enc_state : Type := mk_enc {
  e_out : W;
  e_run : Z;
  e_index : list qoi_rgba_t;
  e_px : qoi_rgba_t;
  e_px_prev : qoi_rgba_t
}.

(** The pixel read at the head of the loop body.  With three channels the
    alpha of [px] keeps its value. *)
Definition load_px (pixels : list Z) (channels px_pos : Z) (px : qoi_rgba_t)
  : qoi_rgba_t :=
  if channels =? 4 then
    mk_rgba (get 0 pixels px_pos) (get 0 pixels (px_pos + 1))
            (get 0 pixels (px_pos + 2)) (get 0 pixels (px_pos + 3))
  else
    mk_rgba (get 0 pixels px_pos) (get 0 pixels (px_pos + 1))
            (get 0 pixels (px_pos + 2)) (rgba_a px).

(** The chunk for a pixel that is neither a repeat nor in the index. *)
Definition encode_color (out : W) (px px_prev : qoi_rgba_t) : W :=
  if rgba_a px =? rgba_a px_prev then
    let vr := s8 (rgba_r px - rgba_r px_prev) in
    let vg := s8 (rgba_g px - rgba_g px_prev) in
    let vb := s8 (rgba_b px - rgba_b px_prev) in
    let vg_r := s8 (vr - vg) in
    let vg_b := s8 (vb - vg) in
    if (vr >? -3) && (vr <? 2) && (vg >? -3) && (vg <? 2) &&
       (vb >? -3) && (vb <? 2) then
      put out (Z.lor (Z.lor (Z.lor QOI_OP_DIFF (Z.shiftl (vr + 2) 4))
                            (Z.shiftl (vg + 2) 2)) (vb + 2))
    else if (vg_r >? -9) && (vg_r <? 8) && (vg >? -33) && (vg <? 32) &&
            (vg_b >? -9) && (vg_b <? 8) then
      let out := put out (Z.lor QOI_OP_LUMA (vg + 32)) in
      put out (Z.lor (Z.shiftl (vg_r + 8) 4) (vg_b + 8))
    else
      let out := put out QOI_OP_RGB in
      let out := put out (rgba_r px) in
      let out := put out (rgba_g px) in
      put out (rgba_b px)
  else
    let out := put out QOI_OP_RGBA in
    let out := put out (rgba_r px) in
    let out := put out (rgba_g px) in
    let out := put out (rgba_b px) in
    put out (rgba_a px).

(** One iteration of the pixel loop, at offset [px_pos]. *)
Definition encode_pixel (pixels : list Z) (channels px_end px_pos : Z)
           (st : enc_state) : enc_state :=
  let px := load_px pixels channels px_pos (e_px st) in
  if rgba_eqb px (e_px_prev st) then
    let run := e_run st + 1 in
    if (run =? 62) || (px_pos =? px_end) then
      mk_enc (put (e_out st) (Z.lor QOI_OP_RUN (run - 1))) 0 (e_index st) px px
    else
      mk_enc (e_out st) run (e_index st) px px
  else
    let out :=
      if e_run st >? 0 then put (e_out st) (Z.lor QOI_OP_RUN (e_run st - 1))
      else e_out st in
    let index_pos := QOI_COLOR_HASH px mod 64 in
    if rgba_eqb (get zero_px (e_index st) index_pos) px then
      mk_enc (put out (Z.lor QOI_OP_INDEX index_pos)) 0 (e_index st) px px
    else
      mk_enc (encode_color out px (e_px_prev st)) 0
             (set (e_index st) index_pos px) px px.

(** [for (px_pos = 0; px_pos < px_len; px_pos += channels)]; the fuel
    bounds the number of iterations. *)
Fixpoint encode_loop (fuel : nat) (pixels : list Z)
         (channels px_len px_end px_pos : Z) (st : enc_state) : enc_state :=
  match fuel with
  | O => st
  | S fuel' =>
      if px_pos <? px_len then
        encode_loop fuel' pixels channels px_len px_end (px_pos + channels)
                    (encode_pixel pixels channels px_end px_pos st)
      else st
  end.

(** The state at loop entry. *)
Definition enc_init (out : W) : enc_state :=
  mk_enc out 0 zero_index start_px start_px.

(** From [pixels = data] up to the end of the pixel loop. *)
Definition encode_pixels (out : W) (pixels : list Z) (desc : qoi_desc)
  : enc_state :=
  let px_len := pixel_len desc (channels desc) in
  let px_end := px_len - channels desc in
  encode_loop (Z.to_nat px_len) pixels (channels desc) px_len px_end 0
              (enc_init out).

End Encoder.

Arguments mk_enc {W}.
Arguments e_out {W}.
Arguments e_run {W}.
Arguments e_index {W}.
Arguments e_px {W}.
Arguments e_px_prev {W}.

(** The header written by both encoders; [cs] is the colorspace byte. *)
Definition write_header (desc : qoi_desc) (cs : Z) : outbuf :=
  let o := qoi_write_32 ([], 0) QOI_MAGIC in
  let o := qoi_write_32 o (width desc) in
  let o := qoi_write_32 o (height desc) in
  let o := put_byte o (channels desc) in
  put_byte o cs.

(** [qoi_encode].  [out_len] tells whether the [out_len] pointer is non-null;
    the result is the written part of the buffer and the value stored in
    [*out_len]. *)
Definition qoi_encode (QOI_MALLOC : Z -> bool) (data : option (list Z))
           (desc : option qoi_desc) (out_len : bool) : option (list Z * Z) :=
  match data, desc, out_len with
  | Some pixels, Some desc, true =>
      if encode_args_invalid desc then None
      else if negb (QOI_MALLOC (encode_max_size desc)) then None
      else
        let o := write_header desc (colorspace desc) in
        let st := encode_pixels put_byte o pixels desc in
        let o := fold_left put_byte qoi_padding (e_out st) in
        Some o
  | _, _, _ => None
  end.

(** ** Base decoder *)

Section ChunkParser.

(** The chunk parser is the same text in [qoi_decode], [qoi_decode_buffer]
    and [qoi_huff_decode_buffer] except for the way the next byte of the
    chunk stream is fetched: [bytes[p++]] in the first two,
    [huff_decode_next_byte] in the third. *)
Context {R : Type}.
Variable next : R -> Z * R.

(** The if-chain on the tag byte [b1], followed by the store of [px] into
    the index. *)
Definition decode_chunk (b1 : Z) (src : R) (run : Z)
           (index : list qoi_rgba_t) (px : qoi_rgba_t)
  : R * Z * list qoi_rgba_t * qoi_rgba_t :=
  let '(src, run, px) :=
    if b1 =? QOI_OP_RGB then
      let (vr, src) := next src in
      let (vg, src) := next src in
      let (vb, src) := next src in
      (src, run, mk_rgba vr vg vb (rgba_a px))
    else if b1 =? QOI_OP_RGBA then
      let (vr, src) := next src in
      let (vg, src) := next src in
      let (vb, src) := next src in
      let (va, src) := next src in
      (src, run, mk_rgba vr vg vb va)
    else if Z.land b1 QOI_MASK_2 =? QOI_OP_INDEX then
      (src, run, get zero_px index b1)
    else if Z.land b1 QOI_MASK_2 =? QOI_OP_DIFF then
      (src, run,
       mk_rgba (u8 (rgba_r px + (Z.land (Z.shiftr b1 4) 0x03 - 2)))
               (u8 (rgba_g px + (Z.land (Z.shiftr b1 2) 0x03 - 2)))
               (u8 (rgba_b px + (Z.land b1 0x03 - 2)))
               (rgba_a px))
    else if Z.land b1 QOI_MASK_2 =? QOI_OP_LUMA then
      let (b2, src) := next src in
      let vg := Z.land b1 0x3f - 32 in
      (src, run,
       mk_rgba (u8 (rgba_r px + (vg - 8 + Z.land (Z.shiftr b2 4) 0x0f)))
               (u8 (rgba_g px + vg))
               (u8 (rgba_b px + (vg - 8 + Z.land b2 0x0f)))
               (rgba_a px))
    else if Z.land b1 QOI_MASK_2 =? QOI_OP_RUN then
      (src, Z.land b1 0x3f, px)
    else (src, run, px) in
  (src, run, set index (QOI_COLOR_HASH px mod 64) px, px).

End ChunkParser.

(** The store of [px] at [pixels + px_pos]: four bytes or three. *)
Definition px_bytes (channels : Z) (px : qoi_rgba_t) : list Z :=
  if channels =? 4 then [rgba_r px; rgba_g px; rgba_b px; rgba_a px]
  else [rgba_r px; rgba_g px; rgba_b px].

(** [bytes[p++]] as a byte source. *)
Definition next_byte (bytes : list Z) (p : Z) : Z * Z :=
  (get 0 bytes p, p + 1).

Record dec_state : Type := mk_dec {
  d_p : Z;
  d_run : Z;
  d_index : list qoi_rgba_t;
  d_px : qoi_rgba_t;
  d_pixels : list Z   (* the output bytes at offsets 0 .. px_pos-1 *)
}.

(** One iteration of the pixel loop of [qoi_decode] and [qoi_decode_buffer]. *)
Definition decode_pixel (bytes : list Z) (chunks_len channels : Z)
           (st : dec_state) : dec_state :=
  let '(p, run, index, px) :=
    if d_run st >? 0 then (d_p st, d_run st - 1, d_index st, d_px st)
    else if d_p st <? chunks_len then
      let (b1, p) := next_byte bytes (d_p st) in
      decode_chunk (next_byte bytes) b1 p (d_run st) (d_index st) (d_px st)
    else (d_p st, d_run st, d_index st, d_px st) in
  mk_dec p run index px (d_pixels st ++ px_bytes channels px).

(** [for (px_pos = 0; px_pos < px_len; px_pos += channels)] *)
Fixpoint decode_loop (fuel : nat) (bytes : list Z)
         (chunks_len channels px_len px_pos : Z) (st : dec_state) : dec_state :=
  match fuel with
  | O => st
  | S fuel' =>
      if px_pos <? px_len then
        decode_loop fuel' bytes chunks_len channels px_len (px_pos + channels)
                    (decode_pixel bytes chunks_len channels st)
      else st
  end.

(** [qoi_decode_buffer]: the pixel loop from input offset [p]. *)
Definition qoi_decode_buffer (bytes : list Z) (p size px_len channels : Z)
  : list Z :=
  let chunks_len := size - sizeof_qoi_padding in
  d_pixels (decode_loop (Z.to_nat px_len) bytes chunks_len channels px_len 0
                        (mk_dec p 0 zero_index start_px [])).

(** The header fields as both decoders read them: the magic, the descriptor
    and the cursor after the header. *)
Definition read_header (bytes : list Z) : Z * qoi_desc * Z :=
  let (header_magic, p) := qoi_read_32 bytes 0 in
  let (w, p) := qoi_read_32 bytes p in
  let (h, p) := qoi_read_32 bytes p in
  let (ch, p) := next_byte bytes p in
  let (cs, p) := next_byte bytes p in
  (header_magic, mk_desc w h ch cs, p).

Definition decode_args_invalid (size channels : Z) : bool :=
  (negb (channels =? 0) && negb (channels =? 3) && negb (channels =? 4)) ||
  (size <? QOI_HEADER_SIZE + sizeof_qoi_padding).

Definition header_invalid (header_magic : Z) (desc : qoi_desc) : bool :=
  (width desc =? 0) || (height desc =? 0) ||
  (channels desc <? 3) || (channels desc >? 4) ||
  (colorspace desc >? 1) ||
  negb (header_magic =? QOI_MAGIC) ||
  (height desc >=? QOI_PIXELS_MAX / width desc).

(** [qoi_decode].  The result is the returned pixel buffer ([None] for
    [NULL]) and the contents of [*desc] when the call returns;
    [req_channels] is the argument [channels]. *)
Definition qoi_decode (QOI_MALLOC : Z -> bool) (data : option (list Z))
           (size : Z) (desc : option qoi_desc) (req_channels : Z)
  : option (list Z) * option qoi_desc :=
  match data, desc with
  | Some bytes, Some _ =>
      if decode_args_invalid size req_channels then (None, desc)
      else
        let '(header_magic, d, p) := read_header bytes in
        if header_invalid header_magic d then (None, Some d)
        else
          let channels :=
            if req_channels =? 0 then channels d else req_channels in
          let px_len := pixel_len d channels in
          if negb (QOI_MALLOC px_len) then (None, Some d)
          else
            let chunks_len := size - sizeof_qoi_padding in
            let st :=
              decode_loop (Z.to_nat px_len) bytes chunks_len channels px_len 0
                          (mk_dec p 0 zero_index start_px []) in
            (Some (d_pixels st), Some d)
  | _, _ => (None, desc)
  end.

(** ** Min-heap over tree nodes *)

(** [encoding_tree_t]; [left] and [right] are [short], -1 for none. *)
Record encoding_tree_t : Type := mk_tree {
  tree_count : Z;
  tree_left : Z;
  tree_right : Z
}.

(** [encoding_table_t] *)
Record encoding_table_t : Type := mk_table {
  table_count : Z;
  table_bits : Z;
  table_len : Z
}.

Definition zero_tree : encoding_tree_t := mk_tree 0 0 0.
Definition zero_table : encoding_table_t := mk_table 0 0 0.

(** [tree[heap[i]].count] *)
Definition heap_count (heap : list Z) (tree : list encoding_tree_t) (i : Z) : Z :=
  tree_count (get zero_tree tree (get 0 heap i)).

Definition swap_min_heap (heap : list Z) (a b : Z) : list Z :=
  let temp := get 0 heap a in
  let heap := set heap a (get 0 heap b) in
  set heap b temp.

(** The "heapify up" loop of [insert_min_heap]; [idx] halves at every turn,
    the fuel bounds the number of turns. *)
Fixpoint heapify_up (fuel : nat) (heap : list Z) (tree : list encoding_tree_t)
         (idx : Z) : list Z :=
  match fuel with
  | O => heap
  | S fuel' =>
      if idx =? 0 then heap
      else
        let upper := (idx - 1) / 2 in
        if heap_count heap tree upper <? heap_count heap tree idx then heap
        else heapify_up fuel' (swap_min_heap heap idx upper) tree upper
  end.

(** [insert_min_heap]: returns the heap and [*heapSize]. *)
Definition insert_min_heap (heap : list Z) (heapSize : Z)
           (tree : list encoding_tree_t) (item : Z) : list Z * Z :=
  let heap := set heap heapSize item in
  let idx := heapSize in
  let heapSize := heapSize + 1 in
  (heapify_up (Z.to_nat idx) heap tree idx, heapSize).

(** The "heapify down" loop of [pop_min_heap]. *)
Fixpoint heapify_down (fuel : nat) (heap : list Z) (heapSize : Z)
         (tree : list encoding_tree_t) (idx : Z) : list Z :=
  match fuel with
  | O => heap
  | S fuel' =>
      if idx * 2 + 1 <? heapSize then
        let idxLeft := idx * 2 + 1 in
        let idxRight := (idx + 1) * 2 in
        if idxRight <? heapSize then
          if (heap_count heap tree idx <? heap_count heap tree idxLeft) &&
             (heap_count heap tree idx <? heap_count heap tree idxRight)
          then heap
          else if heap_count heap tree idxRight <? heap_count heap tree idxLeft
          then heapify_down fuel' (swap_min_heap heap idxRight idx) heapSize
                            tree idxRight
          else heapify_down fuel' (swap_min_heap heap idxLeft idx) heapSize
                            tree idxLeft
        else
          if heap_count heap tree idxLeft <? heap_count heap tree idx
          then swap_min_heap heap idxLeft idx
          else heap
      else heap
  end.

(** [pop_min_heap]: returns the item, the heap and [*heapSize]. *)
Definition pop_min_heap (heap : list Z) (heapSize : Z)
           (tree : list encoding_tree_t) : Z * list Z * Z :=
  let item := get 0 heap 0 in
  let heapSize := heapSize - 1 in
  if heapSize =? 0 then (item, heap, heapSize)
  else
    let heap := set heap 0 (get 0 heap heapSize) in
    (item, heapify_down (Z.to_nat heapSize) heap heapSize tree 0, heapSize).

(** ** Huffman builder *)

(** [make_encoded_word].  [len] is an [unsigned char]; [1 << len] is an
    [int] shift, taken here as the mathematical shift cut to 32 bits where C
    leaves it undefined ([len >= 32]).  Children of a node have smaller
    arena indices than the node, the fuel bounds the depth. *)
Fixpoint make_encoded_word (fuel : nat) (tree : list encoding_tree_t)
         (table : list encoding_table_t) (node bits len : Z)
  : list encoding_table_t :=
  match fuel with
  | O => table
  | S fuel' =>
      if node <? 256 then
        set table node (mk_table (tree_count (get zero_tree tree node)) bits len)
      else
        let table :=
          make_encoded_word fuel' tree table
                            (tree_left (get zero_tree tree node)) bits
                            (u8 (len + 1)) in
        make_encoded_word fuel' tree table
                          (tree_right (get zero_tree tree node))
                          (u32 (Z.lor bits (Z.shiftl 1 len))) (u8 (len + 1))
  end.

(** The leaf loop: [tree[i] = {histo[i], -1, -1}] and
    [insert_min_heap(minHeap, &heapSize, tree, i)] for [i = 0 .. 255]. *)
Fixpoint init_leaves (n : nat) (i : Z) (histo : list Z)
         (tree : list encoding_tree_t) (heap : list Z) (heapSize : Z)
  : list encoding_tree_t * list Z * Z :=
  match n with
  | O => (tree, heap, heapSize)
  | S n' =>
      let tree := set tree i (mk_tree (get 0 histo i) (-1) (-1)) in
      let (heap, heapSize) := insert_min_heap heap heapSize tree i in
      init_leaves n' (i + 1) histo tree heap heapSize
  end.

(** The merge loop [while (heapSize > 1)]; every turn shrinks the heap by
    one, the fuel bounds the number of turns. *)
Fixpoint merge_nodes (fuel : nat) (tree : list encoding_tree_t)
         (heap : list Z) (heapSize nextFreeNode : Z)
  : list encoding_tree_t * list Z * Z :=
  match fuel with
  | O => (tree, heap, heapSize)
  | S fuel' =>
      if heapSize >? 1 then
        let '(l, heap, heapSize) := pop_min_heap heap heapSize tree in
        let '(r, heap, heapSize) := pop_min_heap heap heapSize tree in
        let tree :=
          set tree nextFreeNode
              (mk_tree (u32 (tree_count (get zero_tree tree l) +
                             tree_count (get zero_tree tree r))) l r) in
        let (heap, heapSize) := insert_min_heap heap heapSize tree nextFreeNode in
        merge_nodes fuel' tree heap heapSize (nextFreeNode + 1)
      else (tree, heap, heapSize)
  end.

(** The block that fills [table] from [histo].  The arrays [tree] and
    [table] are not initialised by the C code; every entry that is read has
    been written before. [minHeap] is filled with 0xffff by the [memset]. *)
Definition build_table (histo : list Z) : list encoding_table_t :=
  let tree := repeat zero_tree 512 in
  let minHeap := repeat 65535 256 in
  let '(tree, heap, heapSize) := init_leaves 256 0 histo tree minHeap 0 in
  let '(tree, heap, heapSize) := merge_nodes 256 tree heap heapSize 256 in
  let '(root, _, _) := pop_min_heap heap heapSize tree in
  make_encoded_word 512 tree (repeat zero_table 256) root 0 0.

(** ** Huffman encoder *)

(** The loop that sums [expectedSize] and gives up ([None]) at the first
    code word longer than [QOI_HUFF_MAX_BIT_NUM]. *)
Fixpoint expected_size (table : list encoding_table_t) (expectedSize : Z)
  : option Z :=
  match table with
  | [] => Some expectedSize
  | e :: rest =>
      let expectedSize := u32 (expectedSize + u32 (table_count e * table_len e)) in
      if table_len e >? QOI_HUFF_MAX_BIT_NUM then None
      else expected_size rest expectedSize
  end.

(** One codebook entry: the length byte, then the bits on 32, 24 or 16
    bits. *)
Definition write_code (o : outbuf) (e : encoding_table_t) : outbuf :=
  let o := put_byte o (table_len e) in
  if table_len e >? 24 then qoi_write_32 o (table_bits e)
  else if table_len e >? 16 then qoi_write_24 o (table_bits e)
  else qoi_write_16 o (table_bits e).

(** [~((~0) << 32)]: an [int] shift by the width of the type, undefined in
    C; taken as the mathematical shift cut to 32 bits, which makes the mask
    all ones. *)
Definition huff_word_mask : Z := u32 (Z.lnot (u32 (Z.shiftl (Z.lnot 0) 32))).

(** The bit packer state: the finished words, the word at [wordIdx] and
    [bitIdx]. *)
Definition pack_state : Type := (list Z * Z * Z)%type.

(** One turn of the packing loop, for the stream byte [sym]. *)
Definition pack_symbol (table : list encoding_table_t) (st : pack_state)
           (sym : Z) : pack_state :=
  let '(done, cur, bitIdx) := st in
  let bits := table_bits (get zero_table table sym) in
  let len := table_len (get zero_table table sym) in
  let cur := Z.lor cur (Z.land (u32 (Z.shiftl bits bitIdx)) huff_word_mask) in
  let newBitIdx := u32 (bitIdx + len) in
  let bitIdx := newBitIdx mod 32 in
  let '(done, cur) :=
    if newBitIdx >=? 32 then (done ++ [cur], 0) else (done, cur) in
  let cur :=
    if newBitIdx >? 32 then Z.lor cur (Z.shiftr bits (u32 (len - bitIdx)))
    else cur in
  (done, cur, bitIdx).

(** The bytes of a 32-bit word in memory.  The Huffman buffers are accessed
    both as bytes and as [unsigned int]; the embedding fixes the
    little-endian layout. *)
Definition word_bytes (w : Z) : list Z :=
  [Z.land w 0xff; Z.land (Z.shiftr w 8) 0xff;
   Z.land (Z.shiftr w 16) 0xff; Z.land (Z.shiftr w 24) 0xff].

(** [(p / 4) + (p % 4 ? 1 : 0)] *)
Definition word_index (p : Z) : Z :=
  p / 4 + (if p mod 4 =? 0 then 0 else 1).

(** The part of [qoi_huff_encode] after the code table is known: [bytes]
    and [p] are the base stream and its length.  [junk] stands for the
    contents of the freshly allocated block, by offset: the bytes between
    the codebook and the first word are never written. *)
Definition huff_pack (malloc : Z -> bool) (junk : Z -> Z) (desc : qoi_desc)
           (table : list encoding_table_t) (bytes : list Z) (p : Z)
  : option (list Z * Z) :=
  match expected_size table ((1024 + 256) * 8) with
  | None => Some (bytes, p)
  | Some expectedSize =>
      let expectedSize := expectedSize / 8 in
      (* [expectedSize > p * 0.97] in double precision; for 0 <= p < 2^31
         the comparison agrees with the exact one *)
      if (expectedSize >? 10 * 1024) && (100 * expectedSize >? 97 * p)
      then Some (bytes, p)
      else
        let expectedSize :=
          u32 (u32 (expectedSize + (4 - expectedSize mod 4) mod 4) + 8) in
        if negb (malloc expectedSize) then None
        else
          let o := write_header desc (Z.lor (colorspace desc) QOI_HUFF_ENCODED_BIT) in
          let '(huffbytes, hp) := fold_left write_code table o in
          let wordIdx := word_index hp in
          let '(done, cur, _) :=
            fold_left (pack_symbol table)
                      (skipn (Z.to_nat QOI_HEADER_SIZE) bytes) ([], 0, 0) in
          let words := done ++ [cur] ++ [0] in
          let wordIdx := wordIdx + Z.of_nat (length done) + 1 in
          Some (huffbytes
                  ++ map (fun i => u8 (junk i))
                         (zrange hp (Z.to_nat (word_index hp * 4 - hp)))
                  ++ flat_map word_bytes words,
                wordIdx * 4 + 4)
  end.

(** [qoi_huff_encode].  [malloc] is the oracle for the second allocation. *)
Definition qoi_huff_encode (QOI_MALLOC malloc : Z -> bool) (junk : Z -> Z)
           (data : option (list Z)) (desc : option qoi_desc) (out_len : bool)
  : option (list Z * Z) :=
  match data, desc, out_len with
  | Some pixels, Some desc, true =>
      if encode_args_invalid desc then None
      else if negb (QOI_MALLOC (encode_max_size desc)) then None
      else
        let o := write_header desc
                   (Z.land (colorspace desc) (Z.lnot QOI_HUFF_ENCODED_BIT)) in
        let st := encode_pixels qoi_write_8_histo (o, repeat 0 256) pixels desc in
        let '(bytes, p, histo) := fold_left qoi_write_8_histo qoi_padding (e_out st) in
        huff_pack malloc junk desc (build_table histo) bytes p
  | _, _, _ => None
  end.

(** ** Huffman decoder *)

(** [decoding_tree_t].  The C type overlays the leaf fields and the child
    indices in a union; a node is only ever read through the member it was
    written with when the codebook is prefix-free. *)
Record decoding_tree_t : Type := mk_dnode {
  isLeaf : bool;
  leaf_len : Z;
  leaf_byteValue : Z;
  node_left : Z;     (* short, -1 for none *)
  node_right : Z
}.

Definition zero_dnode : decoding_tree_t := mk_dnode false 0 0 0 0.
Definition new_dnode : decoding_tree_t := mk_dnode false 0 0 (-1) (-1).

(** Conversion to [unsigned short]. *)
Definition u16 (v : Z) : Z := v mod 65536.

(** [words[i]] where [words] is the byte buffer seen as [unsigned int]. *)
Definition word_at (bytes : list Z) (i : Z) : Z :=
  get 0 bytes (4 * i) + Z.shiftl (get 0 bytes (4 * i + 1)) 8 +
  Z.shiftl (get 0 bytes (4 * i + 2)) 16 + Z.shiftl (get 0 bytes (4 * i + 3)) 24.

(** The tree walk of [huff_decode_next_byte]; the fuel bounds the number
    of nodes visited. *)
Fixpoint walk_tree (fuel : nat) (tree : list decoding_tree_t)
         (node trailingBits : Z) : Z :=
  match fuel with
  | O => node
  | S fuel' =>
      if isLeaf (get zero_dnode tree node) then node
      else
        walk_tree fuel' tree
                  (u16 (if Z.land trailingBits 1 =? 0
                        then node_left (get zero_dnode tree node)
                        else node_right (get zero_dnode tree node)))
                  (Z.shiftr trailingBits 1)
  end.

(** [huff_decode_next_byte]: the byte and the advanced [(wordIdx, bitIdx)]. *)
Definition huff_decode_next_byte (bytes : list Z) (size : Z) (table : list Z)
           (tree : list decoding_tree_t) (src : Z * Z) : Z * (Z * Z) :=
  let (wordIdx, bitIdx) := src in
  if wordIdx + 1 >=? size / 4 then (0, src)
  else
    let bits := word_at bytes wordIdx + Z.shiftl (word_at bytes (wordIdx + 1)) 32 in
    let bits := Z.shiftr bits bitIdx in
    let leadingBits := Z.land bits (Z.lnot (Z.shiftl (Z.lnot 0) QOI_HUFF_DECODING_TABLE_WIDTH)) in
    let trailingBits := u32 (Z.shiftr bits QOI_HUFF_DECODING_TABLE_WIDTH) in
    let entry := get 0 table leadingBits in
    let (byteValue, len) :=
      if Z.land entry (Z.shiftl 1 15) =? 0 then
        (Z.land entry 0xff, Z.shiftr entry 8)
      else
        let node := walk_tree 512 tree (Z.land entry (Z.lnot (Z.shiftl 1 15)))
                              trailingBits in
        (leaf_byteValue (get zero_dnode tree node),
         leaf_len (get zero_dnode tree node)) in
    let bitIdx := bitIdx + len in
    let wordIdx := if bitIdx >=? 32 then wordIdx + 1 else wordIdx in
    (byteValue, (wordIdx, bitIdx mod 32)).

(** The decoding structures: the 11-bit table, the tree arena and
    [nextFreeNode]. *)
Definition dec_tables : Type := (list Z * list decoding_tree_t * Z)%type.

(** The span fill for a short code word. *)
Fixpoint fill_span (n : nat) (i : Z) (table : list Z) (len bits byteValue : Z)
  : list Z :=
  match n with
  | O => table
  | S n' =>
      let idx := Z.lor (Z.shiftl i len) bits in
      fill_span n' (i + 1)
                (set table idx (u16 (Z.lor (Z.shiftl (Z.land len 0x3f) 8) byteValue)))
                len bits byteValue
  end.

Definition set_child (tree : list decoding_tree_t) (treeIdx bit child : Z)
  : list decoding_tree_t :=
  let n := get zero_dnode tree treeIdx in
  if bit =? 0
  then set tree treeIdx (mk_dnode (isLeaf n) (leaf_len n) (leaf_byteValue n) child (node_right n))
  else set tree treeIdx (mk_dnode (isLeaf n) (leaf_len n) (leaf_byteValue n) (node_left n) child).

(** The loop over the bits of a long code word above the table width. *)
Fixpoint grow_tree (n : nat) (tree : list decoding_tree_t)
         (nextFreeNode treeIdx leadingBits len byteValue : Z)
  : list decoding_tree_t * Z :=
  match n with
  | O => (tree, nextFreeNode)
  | S n' =>
      let bit := Z.land leadingBits 1 in
      let leadingBits := Z.shiftr leadingBits 1 in
      match n' with
      | O =>
          (* the last bit: the leaf *)
          let entryIdx := nextFreeNode in
          let nextFreeNode := nextFreeNode + 1 in
          let tree := set tree entryIdx (mk_dnode true (u8 len) (u8 byteValue) 0 0) in
          (set_child tree treeIdx bit entryIdx, nextFreeNode)
      | S _ =>
          let nextNode :=
            if bit =? 0 then node_left (get zero_dnode tree treeIdx)
            else node_right (get zero_dnode tree treeIdx) in
          if nextNode <? 0 then
            let nextNode := nextFreeNode in
            let nextFreeNode := nextFreeNode + 1 in
            let tree := set tree nextNode new_dnode in
            let tree := set_child tree treeIdx bit nextNode in
            grow_tree n' tree nextFreeNode nextNode leadingBits len byteValue
          else
            grow_tree n' tree nextFreeNode nextNode leadingBits len byteValue
      end
  end.

(** One codebook entry, for [byteValue]: returns [None] where the C code
    returns -1, else the structures and the cursor. *)
Definition read_code (bytes : list Z) (size : Z) (st : dec_tables * Z)
           (byteValue : Z) : option (dec_tables * Z) :=
  let '(table, tree, nextFreeNode, p) := st in
  if p >=? size then None
  else
    let (len, p) := next_byte bytes p in
    let r :=
      if len >? 24 then
        if p + 4 >? size then None else Some (qoi_read_32 bytes p)
      else if len >? 16 then
        if p + 3 >? size then None else Some (qoi_read_24 bytes p)
      else
        if p + 2 >? size then None else Some (qoi_read_16 bytes p) in
    match r with
    | None => None
    | Some (bits, p) =>
        if len <=? QOI_HUFF_DECODING_TABLE_WIDTH then
          let paddingCount := QOI_HUFF_DECODING_TABLE_WIDTH - len in
          let spanLength := Z.shiftl 1 paddingCount in
          Some (fill_span (Z.to_nat spanLength) 0 table len bits byteValue,
                tree, nextFreeNode, p)
        else
          let leadingLength := len - QOI_HUFF_DECODING_TABLE_WIDTH in
          let truncatedBits :=
            Z.land bits (Z.lnot (Z.shiftl (Z.lnot 0) QOI_HUFF_DECODING_TABLE_WIDTH)) in
          let leadingBits := Z.shiftr bits QOI_HUFF_DECODING_TABLE_WIDTH in
          let treeIdx := get 0 table truncatedBits in
          let '(table, tree, nextFreeNode, treeIdx) :=
            if treeIdx =? 0 then
              let treeIdx := nextFreeNode in
              (set table truncatedBits (u16 (Z.lor treeIdx (Z.shiftl 1 15))),
               set tree treeIdx new_dnode, nextFreeNode + 1, treeIdx)
            else
              (table, tree, nextFreeNode,
               Z.land treeIdx (Z.lnot (Z.shiftl 1 15))) in
          let (tree, nextFreeNode) :=
            grow_tree (Z.to_nat leadingLength) tree nextFreeNode treeIdx
                      leadingBits len byteValue in
          Some (table, tree, nextFreeNode, p)
    end.

(** The loop over the 256 codebook entries. *)
Fixpoint read_codebook (n : nat) (byteValue : Z) (bytes : list Z) (size : Z)
         (st : dec_tables * Z) : option (dec_tables * Z) :=
  match n with
  | O => Some st
  | S n' =>
      match read_code bytes size st byteValue with
      | None => None
      | Some st => read_codebook n' (byteValue + 1) bytes size st
      end
  end.

Record hdec_state : Type := mk_hdec {
  h_src : Z * Z;      (* wordIdx, bitIdx *)
  h_run : Z;
  h_index : list qoi_rgba_t;
  h_px : qoi_rgba_t;
  h_pixels : list Z
}.

(** One iteration of the pixel loop of [qoi_huff_decode_buffer].  After
    [continue] the bytes of the pixel keep the contents [pixels0] of the
    allocated block. *)
Definition huff_decode_pixel (next : Z * Z -> Z * (Z * Z)) (size channels : Z)
           (pixels0 : list Z) (px_pos : Z) (st : hdec_state) : hdec_state :=
  if h_run st >? 0 then
    mk_hdec (h_src st) (h_run st - 1) (h_index st) (h_px st)
            (h_pixels st ++ px_bytes channels (h_px st))
  else
    let (b1, src) := next (h_src st) in
    if fst src * 4 >=? size then
      mk_hdec src (h_run st) (h_index st) (h_px st)
              (h_pixels st ++ firstn (Z.to_nat channels)
                                     (skipn (Z.to_nat px_pos) pixels0))
    else
      let '(src, run, index, px) :=
        decode_chunk next b1 src (h_run st) (h_index st) (h_px st) in
      mk_hdec src run index px (h_pixels st ++ px_bytes channels px).

Fixpoint huff_decode_loop (fuel : nat) (next : Z * Z -> Z * (Z * Z))
         (size channels : Z) (pixels0 : list Z) (px_len px_pos : Z)
         (st : hdec_state) : hdec_state :=
  match fuel with
  | O => st
  | S fuel' =>
      if px_pos <? px_len then
        huff_decode_loop fuel' next size channels pixels0 px_len
                         (px_pos + channels)
                         (huff_decode_pixel next size channels pixels0 px_pos st)
      else st
  end.

(** [qoi_huff_decode_buffer]: [None] for the return value -1, where the
    pixel block is left untouched. *)
Definition qoi_huff_decode_buffer (bytes : list Z) (p : Z) (pixels0 : list Z)
           (size px_len channels : Z) : option (list Z) :=
  match read_codebook 256 0 bytes size
          (repeat 0 2048, repeat zero_dnode 512, 0, p) with
  | None => None
  | Some (table, tree, _, p) =>
      let wordIdx := word_index p in
      let next := huff_decode_next_byte bytes size table tree in
      Some (h_pixels
              (huff_decode_loop (Z.to_nat px_len) next size channels pixels0
                                px_len 0
                                (mk_hdec (wordIdx, 0) 0 zero_index start_px [])))
  end.

(** [qoi_huff_decode].  [pixels0] stands for the contents of the freshly
    allocated pixel block. *)
Definition qoi_huff_decode (QOI_MALLOC : Z -> bool) (pixels0 : list Z)
           (data : option (list Z)) (size : Z) (desc : option qoi_desc)
           (req_channels : Z) : option (list Z) * option qoi_desc :=
  match data, desc with
  | Some bytes, Some _ =>
      if decode_args_invalid size req_channels then (None, desc)
      else
        let '(header_magic, d, p) := read_header bytes in
        let isHuffEncoded := Z.land (colorspace d) QOI_HUFF_ENCODED_BIT in
        let d := mk_desc (width d) (height d) (channels d)
                         (u8 (Z.land (colorspace d) (Z.lnot QOI_HUFF_ENCODED_BIT))) in
        if header_invalid header_magic d then (None, Some d)
        else
          let channels :=
            if req_channels =? 0 then channels d else req_channels in
          let px_len := pixel_len d channels in
          if negb (QOI_MALLOC px_len) then (None, Some d)
          else if isHuffEncoded =? 0 then
            (Some (qoi_decode_buffer bytes p size px_len channels), Some d)
          else
            match qoi_huff_decode_buffer bytes p pixels0 size px_len channels with
            | Some pixels => (Some pixels, Some d)
            | None => (Some pixels0, Some d)
            end
  | _, _ => (None, desc)
  end.

(** * Auxiliary definitions for the proofs *)

(** The values of an [unsigned char]. *)
Definition is_byte (v : Z) : Prop := 0 <= v < 256.

Definition px_ok (px : qoi_rgba_t) : Prop :=
  is_byte (rgba_r px) /\ is_byte (rgba_g px) /\
  is_byte (rgba_b px) /\ is_byte (rgba_a px).

(** The tag tests of the chunk parser, as a classification of [b1]. *)
Inductive tag : Type := T_RGB | T_RGBA | T_INDEX | T_DIFF | T_LUMA | T_RUN | T_NONE.

Definition tag_of (b1 : Z) : tag :=
  if b1 =? QOI_OP_RGB then T_RGB
  else if b1 =? QOI_OP_RGBA then T_RGBA
  else if Z.land b1 QOI_MASK_2 =? QOI_OP_INDEX then T_INDEX
  else if Z.land b1 QOI_MASK_2 =? QOI_OP_DIFF then T_DIFF
  else if Z.land b1 QOI_MASK_2 =? QOI_OP_LUMA then T_LUMA
  else if Z.land b1 QOI_MASK_2 =? QOI_OP_RUN then T_RUN
  else T_NONE.

Definition tag_eqb (x y : tag) : bool :=
  match x, y with
  | T_RGB, T_RGB | T_RGBA, T_RGBA | T_INDEX, T_INDEX | T_DIFF, T_DIFF
  | T_LUMA, T_LUMA | T_RUN, T_RUN | T_NONE, T_NONE => true
  | _, _ => false
  end.

Definition run_byte_ok (r : Z) : bool :=
  let b := u8 (Z.lor QOI_OP_RUN r) in
  tag_eqb (tag_of b) T_RUN && (Z.land b 0x3f =? r).

Definition index_byte_ok (i : Z) : bool :=
  let b := u8 (Z.lor QOI_OP_INDEX i) in
  tag_eqb (tag_of b) T_INDEX && (b =? i).

Definition diff_byte_ok (vr : Z) : bool :=
  forallb (fun vg => forallb (fun vb =>
    let b := u8 (Z.lor (Z.lor (Z.lor QOI_OP_DIFF (Z.shiftl (vr + 2) 4))
                              (Z.shiftl (vg + 2) 2)) (vb + 2)) in
    tag_eqb (tag_of b) T_DIFF &&
    (Z.land (Z.shiftr b 4) 0x03 - 2 =? vr) &&
    (Z.land (Z.shiftr b 2) 0x03 - 2 =? vg) &&
    (Z.land b 0x03 - 2 =? vb)) (zrange (-2) 4)) (zrange (-2) 4).

Definition luma_byte1_ok (vg : Z) : bool :=
  let b := u8 (Z.lor QOI_OP_LUMA (vg + 32)) in
  tag_eqb (tag_of b) T_LUMA && (Z.land b 0x3f - 32 =? vg).

Definition luma_byte2_ok (vg_r : Z) : bool :=
  forallb (fun vg_b =>
    let b := u8 (Z.lor (Z.shiftl (vg_r + 8) 4) (vg_b + 8)) in
    (Z.land (Z.shiftr b 4) 0x0f =? vg_r + 8) &&
    (Z.land b 0x0f =? vg_b + 8)) (zrange (-8) 16).

(** The pixel loops with the iteration count made explicit. *)
Fixpoint dec_n (bytes : list Z) (chunks_len channels : Z) (n : nat)
         (st : dec_state) : dec_state :=
  match n with
  | O => st
  | S n' => dec_n bytes chunks_len channels n'
                  (decode_pixel bytes chunks_len channels st)
  end.

Fixpoint enc_n {W : Type} (put : W -> Z -> W) (pixels : list Z)
         (channels px_end : Z) (n : nat) (px_pos : Z) (st : enc_state)
  : enc_state :=
  match n with
  | O => st
  | S n' => enc_n put pixels channels px_end n' (px_pos + channels)
                  (encode_pixel put pixels channels px_end px_pos st)
  end.

(** The pixel values the encoder loads from offset [px_pos] on. *)
Fixpoint input_pxs (pixels : list Z) (channels : Z) (n : nat) (px_pos : Z)
  : list qoi_rgba_t :=
  match n with
  | O => []
  | S n' => load_px pixels channels px_pos start_px
            :: input_pxs pixels channels n' (px_pos + channels)
  end.

(** The stream [F] holds the bytes [l] at offset [p]. *)
Definition holds (F : list Z) (p : Z) (l : list Z) : Prop :=
  forall j, (j < length l)%nat -> get 0 F (p + Z.of_nat j) = nth j l 0.

(** The index of the decoder against the index of the encoder: equal slot
    by slot, except that slot 53 may hold the start pixel in the decoder
    while it is still zero in the encoder. *)
Definition index_rel (ie id : list qoi_rgba_t) : Prop :=
  length id = 64%nat /\
  forall i, 0 <= i < 64 ->
    get zero_px id i = get zero_px ie i \/
    (i = 53 /\ get zero_px ie i = zero_px /\ get zero_px id i = start_px).

(** What holds of the encoder state at the head of every iteration. *)
Record enc_inv (ch : Z) (se : @enc_state outbuf) : Prop := mk_enc_inv {
  inv_px : e_px se = e_px_prev se;
  inv_ok : px_ok (e_px_prev se);
  inv_alpha : ch <> 4 -> rgba_a (e_px_prev se) = 255;
  inv_run : 0 <= e_run se <= 61;
  inv_len : length (e_index se) = 64%nat;
  inv_seen :
    get zero_px (e_index se) (QOI_COLOR_HASH (e_px_prev se) mod 64) = e_px_prev se \/
    (e_px_prev se = start_px /\ get zero_px (e_index se) 53 = zero_px);
  inv_p : snd (e_out se) = Z.of_nat (length (fst (e_out se)))
}.

Definition sim_rel (se : @enc_state outbuf) (sd : dec_state) : Prop :=
  d_p sd = snd (e_out se) /\ d_run sd = 0 /\ d_px sd = e_px_prev se /\
  index_rel (e_index se) (d_index sd).

Definition chunk_max (ch : Z) : Z := if ch =? 4 then 5 else 4.
Definition pending (run : Z) : Z := if run >? 0 then 1 else 0.

Definition valid_desc (d : qoi_desc) : Prop :=
  1 <= width d /\ 1 <= height d /\ (channels d = 3 \/ channels d = 4) /\
  (colorspace d = 0 \/ colorspace d = 1) /\
  height d < QOI_PIXELS_MAX / width d.

Definition header_bytes (d : qoi_desc) (cs : Z) : list Z :=
  [113; 111; 105; 102;
   (width d / 2 ^ 24) mod 256; (width d / 2 ^ 16) mod 256;
   (width d / 2 ^ 8) mod 256; width d mod 256;
   (height d / 2 ^ 24) mod 256; (height d / 2 ^ 16) mod 256;
   (height d / 2 ^ 8) mod 256; height d mod 256;
   u8 (channels d); u8 cs].

Definition out_channels (d : qoi_desc) (req : Z) : Z :=
  if req =? 0 then channels d else req.

Definition sample_desc : qoi_desc := mk_desc 3 1 4 0.
Definition sample_image : list Z := [0; 0; 0; 255; 10; 20; 30; 40; 11; 21; 31; 40].

Definition sample_stream : list Z :=
  [113; 111; 105; 102; 0; 0; 0; 3; 0; 0; 0; 1; 4; 0;
   192; 255; 10; 20; 30; 40; 127; 0; 0; 0; 0; 0; 0; 0; 1].

Definition truncated_stream : list Z :=
  [113; 111; 105; 102; 0; 0; 0; 2; 0; 0; 0; 1; 4; 0;
   255; 10; 20; 30; 40;
   0; 0; 0; 0; 0; 0; 0; 1].

(** The histogram of a byte sequence, as [qoi_write_8_histo] counts it. *)
Definition byte_histogram (l : list Z) : list Z :=
  fold_left (fun h v => set h v (u32 (get 0 h v + 1))) l (repeat 0 256).

(** The value of [expectedSize] after the division by 8, when no code word
    is too long. *)
Definition estimated_size (table : list encoding_table_t) : Z :=
  fold_left (fun acc e => u32 (acc + u32 (table_count e * table_len e)))
            table ((1024 + 256) * 8) / 8.

(** Two runs of the pixel loop with different stores. *)
Definition enc_rel {W1 W2 : Type} (R : W1 -> W2 -> Prop)
           (s1 : @enc_state W1) (s2 : @enc_state W2) : Prop :=
  R (e_out s1) (e_out s2) /\ e_run s1 = e_run s2 /\ e_index s1 = e_index s2 /\
  e_px s1 = e_px s2 /\ e_px_prev s1 = e_px_prev s2.

(** The histogram buffer against the plain buffer. *)
Definition hist_rel (h : histbuf) (o : outbuf) : Prop :=
  fst h = o /\ (14 <= length (fst o))%nat /\
  snd h = byte_histogram (skipn 14 (fst o)).

(** The heap as the list of its first [n] entries. *)
Definition heap_items (heap : list Z) (n : Z) : list Z := firstn (Z.to_nat n) heap.

(** The tree that the arena holds below a node. *)
Inductive btree : Type :=
| BL (s : Z)
| BN (l r : btree).

Fixpoint leaves (t : btree) : list Z :=
  match t with
  | BL s => [s]
  | BN l r => leaves l ++ leaves r
  end.

Fixpoint bheight (t : btree) : nat :=
  match t with
  | BL _ => O
  | BN l r => S (Nat.max (bheight l) (bheight r))
  end.

(** [shape tree next node t]: the arena holds [t] at [node], with inner
    nodes in [256, next). *)
Inductive shape (tree : list encoding_tree_t) (next : Z) : Z -> btree -> Prop :=
| shape_leaf s : 0 <= s < 256 -> shape tree next s (BL s)
| shape_node n l r :
    256 <= n < next ->
    shape tree next (tree_left (get zero_tree tree n)) l ->
    shape tree next (tree_right (get zero_tree tree n)) r ->
    shape tree next n (BN l r).

(** The way from the root to a leaf: [false] for left, [true] for right. *)
Inductive path : btree -> list bool -> Z -> Prop :=
| path_leaf s : path (BL s) [] s
| path_left l r p s : path l p s -> path (BN l r) (false :: p) s
| path_right l r p s : path r p s -> path (BN l r) (true :: p) s.

(** [bits] and [len] at the end of a way, as [make_encoded_word]
    accumulates them. *)
Fixpoint code_bits (p : list bool) (bits len : Z) : Z :=
  match p with
  | [] => bits
  | b :: p' =>
      code_bits p' (if b then u32 (Z.lor bits (Z.shiftl 1 len)) else bits)
                (u8 (len + 1))
  end.

Fixpoint code_len (p : list bool) (len : Z) : Z :=
  match p with
  | [] => len
  | _ :: p' => code_len p' (u8 (len + 1))
  end.

(** What the merge loop keeps: the heap holds the roots of a forest over
    the 256 leaves. *)
Definition forest_inv (tree : list encoding_tree_t) (heap : list Z)
           (n next : Z) : Prop :=
  length heap = 256%nat /\ length tree = 512%nat /\ 1 <= n <= 256 /\
  next = 512 - n /\
  exists ts, Forall2 (shape tree next) (heap_items heap n) ts /\
             Permutation (flat_map leaves ts) (zrange 0 256).

(** The bytes of one codebook entry. *)
Definition code_entry (e : encoding_table_t) : list Z := fst (write_code ([], 0) e).

(** The offset of the [n]-th codebook entry when the first one is at [p]:
    every entry is its length byte and 2, 3 or 4 bytes of bits. *)
Fixpoint codebook_offset (stream : list Z) (n : nat) (p : Z) : Z :=
  match n with
  | O => p
  | S n' =>
      let len := get 0 stream p in
      codebook_offset stream n'
        (p + 1 + (if len >? 24 then 4 else if len >? 16 then 3 else 2))
  end.

(** An image of 63 pixels whose base stream uses every byte value but
    252, 253 and 254. *)
Definition spread_image : list Z := map Z.of_nat (seq 0 252).
Definition spread_desc : qoi_desc := mk_desc 63 1 4 0.

(** The base stream and the Huffman stream of [spread_image]. *)
Definition spread_base : list Z * Z :=
  Eval vm_compute in
    match qoi_encode (fun _ => true) (Some spread_image) (Some spread_desc) true with
    | Some r => r
    | None => ([], 0)
    end.

Definition spread_huff : list Z * Z :=
  Eval vm_compute in
    match qoi_huff_encode (fun _ => true) (fun _ => true) (fun _ => 0)
                          (Some spread_image) (Some spread_desc) true with
    | Some r => r
    | None => ([], 0)
    end.

(** Every fourth byte of an RGBA buffer removed. *)
Fixpoint drop_alpha (l : list Z) : list Z :=
  match l with
  | r :: g :: b :: _ :: rest => r :: g :: b :: drop_alpha rest
  | _ => l
  end.

(** Two buffers that agree below [n]. *)
Definition agree_below (n : Z) (b1 b2 : list Z) : Prop :=
  forall i, i < n -> get 0 b1 i = get 0 b2 i.

(** The heap order on the first [n] entries: the count of a node is at
    least the count of its parent. *)
Definition heap_ok (heap : list Z) (tree : list encoding_tree_t) (n : Z) : Prop :=
  forall i, 0 < i < n ->
    heap_count heap tree ((i - 1) / 2) <= heap_count heap tree i.

(** The heap order with a hole at [idx] on the way up: every entry but
    [idx] respects its parent, and the children of [idx] respect the
    parent of [idx]. *)
Definition up_inv (heap : list Z) (tree : list encoding_tree_t) (n idx : Z) : Prop :=
  (forall i, 0 < i < n -> i <> idx ->
     heap_count heap tree ((i - 1) / 2) <= heap_count heap tree i) /\
  (0 < idx -> forall i, 0 < i < n -> (i - 1) / 2 = idx ->
     heap_count heap tree ((idx - 1) / 2) <= heap_count heap tree i).

(** The heap order with a hole at [idx] on the way down: every entry but
    the children of [idx] respects its parent, and the children of [idx]
    respect the parent of [idx]. *)
Definition down_inv (heap : list Z) (tree : list encoding_tree_t) (n idx : Z) : Prop :=
  (forall i, 0 < i < n -> (i - 1) / 2 <> idx ->
     heap_count heap tree ((i - 1) / 2) <= heap_count heap tree i) /\
  (0 < idx -> forall i, 0 < i < n -> (i - 1) / 2 = idx ->
     heap_count heap tree ((idx - 1) / 2) <= heap_count heap tree i).

(** The value of a code word given by its way in the tree, first step in
    the least significant bit. *)
Fixpoint bits_val (p : list bool) : Z :=
  match p with
  | [] => 0
  | b :: p' => Z.b2z b + 2 * bits_val p'
  end.

(** The subtree at the end of a way, if the way stays in the tree. *)
Fixpoint sub (t : btree) (p : list bool) {struct p} : option btree :=
  match p with
  | [] => Some t
  | b :: p' =>
      match t with
      | BL _ => None
      | BN l r => sub (if b then r else l) p'
      end
  end.

(** All the ways that stay in the tree: one for every node. *)
Fixpoint positions (t : btree) : list (list bool) :=
  match t with
  | BL _ => [[]]
  | BN l r => [] :: map (cons false) (positions l) ++ map (cons true) (positions r)
  end.

(** The child index of a node of the decoding tree. *)
Definition child (tree : list decoding_tree_t) (q : Z) (b : bool) : Z :=
  if b then node_right (get zero_dnode tree q) else node_left (get zero_dnode tree q).

(** The node reached from [r] along the bits [bs], while the walk stays on
    inner nodes with allocated children. *)
Fixpoint follow (tree : list decoding_tree_t) (r : Z) (bs : list bool) : option Z :=
  match bs with
  | [] => Some r
  | b :: bs' =>
      if isLeaf (get zero_dnode tree r) then None
      else if (child tree r b <? 0) || (512 <=? child tree r b) then None
      else follow tree (child tree r b) bs'
  end.

(** [tree'] extends [tree] below [nf]: the nodes keep their kind and
    their allocated children. *)
Definition extends (tree tree' : list decoding_tree_t) (nf : Z) : Prop :=
  forall q, 0 <= q < nf ->
    isLeaf (get zero_dnode tree' q) = isLeaf (get zero_dnode tree q) /\
    forall b, 0 <= child tree q b -> child tree' q b = child tree q b.

(** A label function with one more entry. *)
Definition lab_set (lab : Z -> list bool) (q : Z) (p : list bool) : Z -> list bool :=
  fun x => if x =? q then p else lab x.

(** What [qoi_huff_decode_buffer] does with one codebook entry once [len]
    and [bits] are read: the span fill for a short code word, the tree
    growth for a long one. *)
Definition add_code (st : dec_tables) (len bits byteValue : Z) : dec_tables :=
  let '(table, tree, nextFreeNode) := st in
  if len <=? QOI_HUFF_DECODING_TABLE_WIDTH then
    let paddingCount := QOI_HUFF_DECODING_TABLE_WIDTH - len in
    let spanLength := Z.shiftl 1 paddingCount in
    (fill_span (Z.to_nat spanLength) 0 table len bits byteValue, tree, nextFreeNode)
  else
    let leadingLength := len - QOI_HUFF_DECODING_TABLE_WIDTH in
    let truncatedBits :=
      Z.land bits (Z.lnot (Z.shiftl (Z.lnot 0) QOI_HUFF_DECODING_TABLE_WIDTH)) in
    let leadingBits := Z.shiftr bits QOI_HUFF_DECODING_TABLE_WIDTH in
    let treeIdx := get 0 table truncatedBits in
    let '(table, tree, nextFreeNode, treeIdx) :=
      if treeIdx =? 0 then
        let treeIdx := nextFreeNode in
        (set table truncatedBits (u16 (Z.lor treeIdx (Z.shiftl 1 15))),
         set tree treeIdx new_dnode, nextFreeNode + 1, treeIdx)
      else
        (table, tree, nextFreeNode,
         Z.land treeIdx (Z.lnot (Z.shiftl 1 15))) in
    let (tree, nextFreeNode) :=
      grow_tree (Z.to_nat leadingLength) tree nextFreeNode treeIdx
                leadingBits len byteValue in
    (table, tree, nextFreeNode).

(** The length byte and the bits field of the codebook entry at [p]. *)
Definition entry_at (bytes : list Z) (size p : Z) : option (Z * Z * Z) :=
  if p >=? size then None
  else
    let len := get 0 bytes p in
    if len >? 24 then
      if p + 1 + 4 >? size then None
      else Some (len, fst (qoi_read_32 bytes (p + 1)), p + 1 + 4)
    else if len >? 16 then
      if p + 1 + 3 >? size then None
      else Some (len, fst (qoi_read_24 bytes (p + 1)), p + 1 + 3)
    else
      if p + 1 + 2 >? size then None
      else Some (len, fst (qoi_read_16 bytes (p + 1)), p + 1 + 2).

(** The table and tree lookup of [huff_decode_next_byte] on the window
    [bits]: the byte and the length of its code word. *)
Definition huff_lookup (table : list Z) (tree : list decoding_tree_t) (bits : Z)
  : Z * Z :=
  let leadingBits :=
    Z.land bits (Z.lnot (Z.shiftl (Z.lnot 0) QOI_HUFF_DECODING_TABLE_WIDTH)) in
  let trailingBits := u32 (Z.shiftr bits QOI_HUFF_DECODING_TABLE_WIDTH) in
  let entry := get 0 table leadingBits in
  if Z.land entry (Z.shiftl 1 15) =? 0 then
    (Z.land entry 0xff, Z.shiftr entry 8)
  else
    let node := walk_tree 512 tree (Z.land entry (Z.lnot (Z.shiftl 1 15)))
                          trailingBits in
    (leaf_byteValue (get zero_dnode tree node), leaf_len (get zero_dnode tree node)).

(** The decoding structures after the code words of the symbols below [k]
    have been entered.  [lab q] is the way in [T] that the arena node [q]
    stands for. *)
Record dcore (T : btree) (k : Z) (dt : list Z) (tr : list decoding_tree_t) (nf : Z)
       (lab : Z -> list bool) : Prop := {
  dc_dt : length dt = 2048%nat;
  dc_tr : length tr = 512%nat;
  dc_nf : 0 <= nf;
  dc_slot : forall v, 0 <= v < 2048 ->
    get 0 dt v = 0 \/
    (exists s p, 0 <= s < k /\ path T p s /\ (length p <= 11)%nat /\
       v mod 2 ^ Z.of_nat (length p) = bits_val p /\
       get 0 dt v = Z.of_nat (length p) * 256 + s) \/
    (exists r, get 0 dt v = r + 32768 /\ 0 <= r < nf /\
       length (lab r) = 11%nat /\ bits_val (lab r) = v);
  dc_node : forall q, 0 <= q < nf ->
    (11 <= length (lab q))%nat /\
    match sub T (lab q) with
    | Some (BL s) =>
        0 <= s < k /\ (11 < length (lab q))%nat /\
        get zero_dnode tr q = mk_dnode true (Z.of_nat (length (lab q))) s 0 0
    | Some (BN _ _) =>
        isLeaf (get zero_dnode tr q) = false /\
        forall b, child tr q b = -1 \/
                  (0 <= child tr q b < nf /\ lab (child tr q b) = lab q ++ [b])
    | None => False
    end;
  dc_inj : forall q q', 0 <= q < nf -> 0 <= q' < nf -> lab q = lab q' -> q = q';
  dc_parent : forall q, 0 <= q < nf -> (11 < length (lab q))%nat ->
    exists q' b, 0 <= q' < nf /\ lab q = lab q' ++ [b] /\ child tr q' b = q;
  dc_root : forall q, 0 <= q < nf -> length (lab q) = 11%nat ->
    get 0 dt (bits_val (lab q)) = q + 32768
}.

(** The table entries of the short code words entered so far. *)
Definition dshort (T : btree) (k : Z) (dt : list Z) : Prop :=
  forall s p v, 0 <= s < k -> path T p s -> (length p <= 11)%nat ->
    0 <= v < 2048 -> v mod 2 ^ Z.of_nat (length p) = bits_val p ->
    get 0 dt v = Z.of_nat (length p) * 256 + s.

(** The leaves of the long code words entered so far. *)
Definition dlong (T : btree) (k : Z) (dt : list Z) (tr : list decoding_tree_t) (nf : Z)
           (lab : Z -> list bool) : Prop :=
  forall s p, 0 <= s < k -> path T p s -> (11 < length p)%nat ->
    exists r q, get 0 dt (bits_val (firstn 11 p)) = r + 32768 /\ 0 <= r < nf /\
                follow tr r (skipn 11 p) = Some q /\ 0 <= q < nf /\ lab q = p.

(** The number held by a sequence of 32-bit words, first word lowest. *)
Fixpoint words_val (ws : list Z) : Z :=
  match ws with
  | [] => 0
  | w :: ws' => w + 2 ^ 32 * words_val ws'
  end.

(** The bit stream of a symbol sequence as a number and its length: every
    code word is put above the bits before it. *)
Definition stream_step (table : list encoding_table_t) (st : Z * Z) (sym : Z)
  : Z * Z :=
  let e := get zero_table table sym in
  (fst st + table_bits e * 2 ^ snd st, snd st + table_len e).

Definition code_stream (table : list encoding_table_t) (syms : list Z) : Z * Z :=
  fold_left (stream_step table) syms (0, 0).

(** The packer state against the bit stream written so far. *)
Definition pack_rel (ps : pack_state) (vs : Z * Z) : Prop :=
  let '(done, cur, bitIdx) := ps in
  0 <= bitIdx < 32 /\
  snd vs = 32 * Z.of_nat (length done) + bitIdx /\
  Forall (fun w => 0 <= w < 2 ^ 32) done /\
  0 <= cur < 2 ^ bitIdx /\
  words_val (done ++ [cur]) = fst vs.

(** A code table whose 256 entries are code words of 1 to 32 bits. *)
Definition codes_ok (table : list encoding_table_t) : Prop :=
  forall s, 0 <= s < 256 ->
    1 <= table_len (get zero_table table s) <= 32 /\
    0 <= table_bits (get zero_table table s) < 2 ^ table_len (get zero_table table s).

(** The decoding structures find every code word of [table]. *)
Definition lookup_ok (table : list encoding_table_t) (dt : list Z)
           (tr : list decoding_tree_t) : Prop :=
  forall s x, 0 <= s < 256 -> 0 <= x ->
    x mod 2 ^ table_len (get zero_table table s) = table_bits (get zero_table table s) ->
    huff_lookup dt tr x = (s, table_len (get zero_table table s)).

(** The position [(wordIdx, bitIdx)] of the bit [L] of the stream whose
    first word is [w0]. *)
Definition src_at (w0 L : Z) : Z * Z := (w0 + L / 32, L mod 32).

(** [n] iterations of the pixel loop of [qoi_huff_decode_buffer]. *)
Fixpoint hdec_n (next : Z * Z -> Z * (Z * Z)) (size channels : Z)
         (pixels0 : list Z) (n : nat) (px_pos : Z) (st : hdec_state) : hdec_state :=
  match n with
  | O => st
  | S n' =>
      hdec_n next size channels pixels0 n' (px_pos + channels)
             (huff_decode_pixel next size channels pixels0 px_pos st)
  end.

(** The two decoder states after the same number of pixels. *)
Definition hrel (src : nat -> Z * Z) (j : nat) (st : dec_state) (hs : hdec_state) : Prop :=
  d_p st = 14 + Z.of_nat j /\ h_src hs = src j /\ d_run st = h_run hs /\
  d_index st = h_index hs /\ d_px st = h_px hs /\ d_pixels st = h_pixels hs.

(** The histogram of a stream that uses every byte value once. *)
Definition flat_histo : list Z := repeat 1 256.

(** The codebook of [spread_image], as [qoi_huff_encode] writes it. *)
Definition spread_codebook : list Z :=
  Eval vm_compute in
    flat_map code_entry (build_table (byte_histogram (skipn 14 (fst spread_base)))).

Definition spread_histo : list Z := byte_histogram (skipn 14 (fst spread_base)).

(** * Properties *)

(** ** Arrays *)

Lemma length_upd {A} (l : list A) n x : length (upd l n x) = length l.
Proof.
  revert n; induction l as [|h t IH]; intros [|n]; simpl; auto.
Qed.

Lemma nth_upd_same {A} (l : list A) n x d :
  (n < length l)%nat -> nth n (upd l n x) d = x.
Proof.
  revert n; induction l as [|h t IH]; intros [|n] H; simpl in *; try lia; auto.
  apply IH; lia.
Qed.

Lemma nth_upd_other {A} (l : list A) n m x d :
  n <> m -> nth m (upd l n x) d = nth m l d.
Proof.
  revert n m; induction l as [|h t IH]; intros [|n] [|m] H; simpl; auto.
  congruence.
Qed.

Lemma length_set {A} (l : list A) i x : length (set l i x) = length l.
Proof. apply length_upd. Qed.

Lemma get_set_same {A} (l : list A) i x d :
  0 <= i < Z.of_nat (length l) -> get d (set l i x) i = x.
Proof.
  intros H. unfold get, set. apply nth_upd_same. lia.
Qed.

Lemma get_set_other {A} (l : list A) i j x d :
  0 <= i -> 0 <= j -> i <> j -> get d (set l i x) j = get d l j.
Proof.
  intros Hi Hj H. unfold get, set. apply nth_upd_other. lia.
Qed.

Lemma get_app_l {A} (l1 l2 : list A) i d :
  0 <= i < Z.of_nat (length l1) -> get d (l1 ++ l2) i = get d l1 i.
Proof.
  intros H. unfold get. apply app_nth1. lia.
Qed.

Lemma get_app_r {A} (l1 l2 : list A) i d :
  Z.of_nat (length l1) <= i ->
  get d (l1 ++ l2) i = get d l2 (i - Z.of_nat (length l1)).
Proof.
  intros H. unfold get. rewrite app_nth2 by lia. f_equal. lia.
Qed.

(** ** Exhaustive checks on the tag bytes *)

Lemma zrange_forallb (P : Z -> bool) lo n :
  forallb P (zrange lo n) = true ->
  forall x, lo <= x < lo + Z.of_nat n -> P x = true.
Proof.
  intros H x Hx. rewrite forallb_forall in H. apply H.
  unfold zrange. apply in_map_iff. exists (Z.to_nat (x - lo)). split.
  - lia.
  - apply in_seq. lia.
Qed.

Lemma run_byte_spec r : 0 <= r <= 61 -> run_byte_ok r = true.
Proof.
  intros H. apply (zrange_forallb run_byte_ok 0 62); [vm_compute; reflexivity | lia].
Qed.

Lemma index_byte_spec i : 0 <= i < 64 -> index_byte_ok i = true.
Proof.
  intros H. apply (zrange_forallb index_byte_ok 0 64); [vm_compute; reflexivity | lia].
Qed.

Lemma diff_byte_spec vr : -2 <= vr <= 1 -> diff_byte_ok vr = true.
Proof.
  intros H. apply (zrange_forallb diff_byte_ok (-2) 4); [vm_compute; reflexivity | lia].
Qed.

Lemma luma_byte1_spec vg : -32 <= vg <= 31 -> luma_byte1_ok vg = true.
Proof.
  intros H. apply (zrange_forallb luma_byte1_ok (-32) 64); [vm_compute; reflexivity | lia].
Qed.

Lemma luma_byte2_spec v : -8 <= v <= 7 -> luma_byte2_ok v = true.
Proof.
  intros H. apply (zrange_forallb luma_byte2_ok (-8) 16); [vm_compute; reflexivity | lia].
Qed.

Lemma tag_eqb_eq x y : tag_eqb x y = true -> x = y.
Proof. destruct x, y; simpl; congruence. Qed.

(** ** Loops and their iteration counts *)

Lemma decode_loop_dec_n fuel : forall bytes cl ch px_len px_pos st n,
  0 < ch -> px_pos + Z.of_nat n * ch = px_len -> (n <= fuel)%nat ->
  decode_loop fuel bytes cl ch px_len px_pos st = dec_n bytes cl ch n st.
Proof.
  induction fuel as [|fuel IH]; intros bytes cl ch px_len px_pos st n Hch Hn Hf.
  - assert (n = O) by lia. subst. reflexivity.
  - destruct n as [|n]; simpl.
    + replace (px_pos <? px_len) with false; [reflexivity|].
      symmetry. apply Z.ltb_ge. lia.
    + replace (px_pos <? px_len) with true.
      * apply IH; lia.
      * symmetry. apply Z.ltb_lt. nia.
Qed.

Lemma encode_loop_enc_n {W} (put : W -> Z -> W) fuel :
  forall pixels ch px_len px_end px_pos st n,
  0 < ch -> px_pos + Z.of_nat n * ch = px_len -> (n <= fuel)%nat ->
  encode_loop put fuel pixels ch px_len px_end px_pos st =
  enc_n put pixels ch px_end n px_pos st.
Proof.
  induction fuel as [|fuel IH]; intros pixels ch px_len px_end px_pos st n Hch Hn Hf.
  - assert (n = O) by lia. subst. reflexivity.
  - destruct n as [|n]; simpl.
    + replace (px_pos <? px_len) with false; [reflexivity|].
      symmetry. apply Z.ltb_ge. lia.
    + replace (px_pos <? px_len) with true.
      * apply IH; lia.
      * symmetry. apply Z.ltb_lt. nia.
Qed.

Lemma dec_n_add bytes cl ch n m st :
  dec_n bytes cl ch (n + m) st = dec_n bytes cl ch m (dec_n bytes cl ch n st).
Proof.
  revert st; induction n as [|n IH]; intros st; simpl; auto.
Qed.

(** ** The chunk parser *)

Lemma decode_chunk_tag {R} (next : R -> Z * R) b1 src run index px :
  decode_chunk next b1 src run index px =
  let '(src, run, px) :=
    match tag_of b1 with
    | T_RGB =>
        let (vr, src) := next src in
        let (vg, src) := next src in
        let (vb, src) := next src in
        (src, run, mk_rgba vr vg vb (rgba_a px))
    | T_RGBA =>
        let (vr, src) := next src in
        let (vg, src) := next src in
        let (vb, src) := next src in
        let (va, src) := next src in
        (src, run, mk_rgba vr vg vb va)
    | T_INDEX => (src, run, get zero_px index b1)
    | T_DIFF =>
        (src, run,
         mk_rgba (u8 (rgba_r px + (Z.land (Z.shiftr b1 4) 0x03 - 2)))
                 (u8 (rgba_g px + (Z.land (Z.shiftr b1 2) 0x03 - 2)))
                 (u8 (rgba_b px + (Z.land b1 0x03 - 2)))
                 (rgba_a px))
    | T_LUMA =>
        let (b2, src) := next src in
        let vg := Z.land b1 0x3f - 32 in
        (src, run,
         mk_rgba (u8 (rgba_r px + (vg - 8 + Z.land (Z.shiftr b2 4) 0x0f)))
                 (u8 (rgba_g px + vg))
                 (u8 (rgba_b px + (vg - 8 + Z.land b2 0x0f)))
                 (rgba_a px))
    | T_RUN => (src, Z.land b1 0x3f, px)
    | T_NONE => (src, run, px)
    end in
  (src, run, set index (QOI_COLOR_HASH px mod 64) px, px).
Proof.
  unfold decode_chunk, tag_of.
  destruct (b1 =? QOI_OP_RGB); [reflexivity|].
  destruct (b1 =? QOI_OP_RGBA); [reflexivity|].
  destruct (Z.land b1 QOI_MASK_2 =? QOI_OP_INDEX); [reflexivity|].
  destruct (Z.land b1 QOI_MASK_2 =? QOI_OP_DIFF); [reflexivity|].
  destruct (Z.land b1 QOI_MASK_2 =? QOI_OP_LUMA); [reflexivity|].
  destruct (Z.land b1 QOI_MASK_2 =? QOI_OP_RUN); reflexivity.
Qed.

(** While a run is pending the decoder repeats [px] and reads nothing. *)
Lemma dec_n_run bytes cl ch k : forall st,
  Z.of_nat k <= d_run st ->
  dec_n bytes cl ch k st =
  mk_dec (d_p st) (d_run st - Z.of_nat k) (d_index st) (d_px st)
         (d_pixels st ++ flat_map (px_bytes ch) (repeat (d_px st) k)).
Proof.
  induction k as [|k IH]; intros st H.
  - simpl. rewrite Z.sub_0_r, app_nil_r. destruct st; reflexivity.
  - cbn [dec_n]. unfold decode_pixel at 1.
    replace (d_run st >? 0) with true by (symmetry; apply Z.gtb_lt; lia).
    rewrite IH by (simpl; lia). simpl.
    rewrite <- app_assoc. f_equal. lia.
Qed.

(** After the input is used up the decoder repeats [px]. *)
Lemma dec_n_exhausted bytes cl ch k : forall st,
  cl <= d_p st ->
  d_pixels (dec_n bytes cl ch k st) =
  d_pixels st ++ flat_map (px_bytes ch) (repeat (d_px st) k).
Proof.
  induction k as [|k IH]; intros st H.
  - simpl. now rewrite app_nil_r.
  - cbn [dec_n]. unfold decode_pixel at 1.
    destruct (d_run st >? 0).
    + rewrite IH by (simpl; lia). simpl. now rewrite <- app_assoc.
    + replace (d_p st <? cl) with false by (symmetry; apply Z.ltb_ge; lia).
      rewrite IH by (simpl; lia). simpl. now rewrite <- app_assoc.
Qed.

Lemma dec_n_length bytes cl ch k : forall st,
  ch = 3 \/ ch = 4 ->
  length (d_pixels (dec_n bytes cl ch k st)) =
  (length (d_pixels st) + k * Z.to_nat ch)%nat.
Proof.
  induction k as [|k IH]; intros st H.
  - simpl. lia.
  - cbn [dec_n]. rewrite IH by assumption.
    assert (L : forall p r i x, length (d_pixels (mk_dec p r i x (d_pixels st ++ px_bytes ch x)))
                         = (length (d_pixels st) + Z.to_nat ch)%nat).
    { intros. simpl. rewrite length_app. unfold px_bytes.
      destruct H; subst; simpl; lia. }
    unfold decode_pixel.
    destruct (d_run st >? 0); [rewrite L; lia|].
    destruct (d_p st <? cl); [|rewrite L; lia].
    unfold next_byte at 1.
    destruct (decode_chunk _ _ _ _ _ _) as [[[p r] i] x].
    rewrite L. lia.
Qed.

(** ** Wrap-around arithmetic of the DIFF and LUMA chunks *)

Lemma u8_byte v : is_byte v -> u8 v = v.
Proof. unfold is_byte, u8. intros H. apply Z.mod_small. lia. Qed.

Lemma diff_wrap x y : is_byte x -> is_byte y -> u8 (y + s8 (x - y)) = x.
Proof.
  unfold is_byte, u8, s8. intros Hx Hy. Z.div_mod_to_equations. lia.
Qed.

Lemma luma_wrap x y vg :
  is_byte x -> is_byte y ->
  u8 (y + (vg - 8 + (s8 (s8 (x - y) - vg) + 8))) = x.
Proof.
  unfold is_byte, u8, s8. intros Hx Hy. Z.div_mod_to_equations. lia.
Qed.

Lemma diff_byte_facts vr vg vb :
  -2 <= vr <= 1 -> -2 <= vg <= 1 -> -2 <= vb <= 1 ->
  let b := u8 (Z.lor (Z.lor (Z.lor QOI_OP_DIFF (Z.shiftl (vr + 2) 4))
                            (Z.shiftl (vg + 2) 2)) (vb + 2)) in
  tag_of b = T_DIFF /\
  Z.land (Z.shiftr b 4) 0x03 - 2 = vr /\
  Z.land (Z.shiftr b 2) 0x03 - 2 = vg /\
  Z.land b 0x03 - 2 = vb.
Proof.
  intros Hr Hg Hb b.
  pose proof (diff_byte_spec vr Hr) as H. unfold diff_byte_ok in H.
  pose proof (zrange_forallb _ _ _ H vg ltac:(simpl; lia)) as H1. cbv beta in H1.
  pose proof (zrange_forallb _ _ _ H1 vb ltac:(simpl; lia)) as H2. cbv beta zeta in H2.
  apply andb_prop in H2 as [H2 H5]. apply andb_prop in H2 as [H2 H4].
  apply andb_prop in H2 as [H2 H3].
  apply tag_eqb_eq in H2. apply Z.eqb_eq in H3, H4, H5. auto.
Qed.

Lemma luma_byte1_facts vg :
  -32 <= vg <= 31 ->
  let b := u8 (Z.lor QOI_OP_LUMA (vg + 32)) in
  tag_of b = T_LUMA /\ Z.land b 0x3f - 32 = vg.
Proof.
  intros Hg b. pose proof (luma_byte1_spec vg Hg) as H. unfold luma_byte1_ok in H.
  apply andb_prop in H as [H1 H2].
  apply tag_eqb_eq in H1. apply Z.eqb_eq in H2. auto.
Qed.

Lemma luma_byte2_facts vg_r vg_b :
  -8 <= vg_r <= 7 -> -8 <= vg_b <= 7 ->
  let b := u8 (Z.lor (Z.shiftl (vg_r + 8) 4) (vg_b + 8)) in
  Z.land (Z.shiftr b 4) 0x0f = vg_r + 8 /\ Z.land b 0x0f = vg_b + 8.
Proof.
  intros Hr Hb b. pose proof (luma_byte2_spec vg_r Hr) as H. unfold luma_byte2_ok in H.
  pose proof (zrange_forallb _ _ _ H vg_b ltac:(simpl; lia)) as H1. cbv beta zeta in H1.
  apply andb_prop in H1 as [H1 H2]. apply Z.eqb_eq in H1, H2. auto.
Qed.

Lemma run_byte_facts r :
  0 <= r <= 61 ->
  let b := u8 (Z.lor QOI_OP_RUN r) in
  tag_of b = T_RUN /\ Z.land b 0x3f = r.
Proof.
  intros Hr b. pose proof (run_byte_spec r Hr) as H. unfold run_byte_ok in H.
  apply andb_prop in H as [H1 H2].
  apply tag_eqb_eq in H1. apply Z.eqb_eq in H2. auto.
Qed.

Lemma index_byte_facts i :
  0 <= i < 64 ->
  let b := u8 (Z.lor QOI_OP_INDEX i) in
  tag_of b = T_INDEX /\ b = i.
Proof.
  intros Hi b. pose proof (index_byte_spec i Hi) as H. unfold index_byte_ok in H.
  apply andb_prop in H as [H1 H2].
  apply tag_eqb_eq in H1. apply Z.eqb_eq in H2. auto.
Qed.

(** ** Pixels *)

Lemma rgba_eqb_eq x y : rgba_eqb x y = true <-> x = y.
Proof.
  unfold rgba_eqb. destruct x, y; simpl. split.
  - intros H. repeat (apply andb_prop in H as [H ?]).
    apply Z.eqb_eq in H. repeat match goal with E : (_ =? _) = true |- _ => apply Z.eqb_eq in E end.
    congruence.
  - intros H. inversion H; subst. now rewrite !Z.eqb_refl.
Qed.

Lemma rgba_eqb_neq x y : rgba_eqb x y = false <-> x <> y.
Proof.
  split.
  - intros H E. apply rgba_eqb_eq in E. congruence.
  - intros H. destruct (rgba_eqb x y) eqn:E; auto. apply rgba_eqb_eq in E. contradiction.
Qed.

Lemma hash_range px : px_ok px -> 0 <= QOI_COLOR_HASH px mod 64 < 64.
Proof. intros _. apply Z.mod_pos_bound. lia. Qed.

Lemma get_byte pixels i : Forall is_byte pixels -> is_byte (get 0 pixels i).
Proof.
  intros H. unfold get.
  destruct (Nat.lt_ge_cases (Z.to_nat i) (length pixels)) as [L|L].
  - rewrite Forall_forall in H. apply H. now apply nth_In.
  - rewrite nth_overflow by assumption. unfold is_byte. lia.
Qed.

Lemma load_px_ok pixels ch px_pos px :
  Forall is_byte pixels -> is_byte (rgba_a px) ->
  px_ok (@load_px pixels ch px_pos px).
Proof.
  intros H Ha. unfold load_px, px_ok.
  pose proof (get_byte pixels px_pos H). pose proof (get_byte pixels (px_pos + 1) H).
  pose proof (get_byte pixels (px_pos + 2) H). pose proof (get_byte pixels (px_pos + 3) H).
  destruct (ch =? 4); simpl; auto.
Qed.

(** ** Reading a chunk at the cursor *)

Lemma holds_app F1 l F2 : holds (F1 ++ l ++ F2) (Z.of_nat (length F1)) l.
Proof.
  intros j Hj. rewrite get_app_r by lia.
  replace (Z.of_nat (length F1) + Z.of_nat j - Z.of_nat (length F1)) with (Z.of_nat j) by lia.
  unfold get. rewrite Nat2Z.id. now apply app_nth1.
Qed.

Lemma holds_cons F p b l : holds F p (b :: l) -> get 0 F p = b /\ holds F (p + 1) l.
Proof.
  intros H. split.
  - specialize (H O ltac:(simpl; lia)). simpl in H. now rewrite Z.add_0_r in H.
  - intros j Hj. specialize (H (S j) ltac:(simpl; lia)). simpl nth in H.
    rewrite <- H. f_equal. lia.
Qed.

Lemma holds_split F p l1 l2 :
  holds F p (l1 ++ l2) -> holds F p l1 /\ holds F (p + Z.of_nat (length l1)) l2.
Proof.
  intros H. split.
  - intros j Hj. rewrite (H j) by (rewrite length_app; lia). now apply app_nth1.
  - intros j Hj. specialize (H (length l1 + j)%nat ltac:(rewrite length_app; lia)).
    rewrite app_nth2 in H by lia. replace (length l1 + j - length l1)%nat with j in H by lia.
    rewrite <- H. f_equal. lia.
Qed.

(** ** Big-endian fields *)

Lemma lor_disjoint_add x y k :
  0 <= k -> 0 <= y < 2 ^ k -> x mod 2 ^ k = 0 -> Z.lor x y = x + y.
Proof.
  intros Hk Hy Hx.
  rewrite <- (Z.add_lor_land x y).
  replace (Z.land x y) with 0; [lia|].
  symmetry. apply Z.bits_inj'. intros n Hn.
  rewrite Z.land_spec, Z.bits_0.
  destruct (Z.lt_ge_cases n k) as [L|L].
  - rewrite <- (Z.mod_pow2_bits_low x k n) by lia. rewrite Hx, Z.bits_0. reflexivity.
  - rewrite <- (Z.mod_small y (2 ^ k)) by lia.
    rewrite Z.mod_pow2_bits_high by lia. apply andb_false_r.
Qed.

Lemma byte_field M k v :
  0 <= k -> Z.shiftr M k = 255 ->
  u8 (Z.shiftr (Z.land M v) k) = (v / 2 ^ k) mod 256.
Proof.
  intros Hk HM. rewrite Z.shiftr_land, HM, Z.land_comm.
  change 255 with (Z.ones 8). rewrite Z.land_ones by lia.
  rewrite Z.shiftr_div_pow2 by lia. unfold u8. change (2 ^ 8) with 256.
  apply Z.mod_mod. lia.
Qed.

Lemma byte_field0 v : u8 (Z.land 0xff v) = v mod 256.
Proof.
  rewrite Z.land_comm. change 0xff with (Z.ones 8). rewrite Z.land_ones by lia.
  unfold u8. change (2 ^ 8) with 256. apply Z.mod_mod. lia.
Qed.

Lemma qoi_write_32_bytes o v :
  qoi_write_32 o v =
  (fst o ++ [(v / 2 ^ 24) mod 256; (v / 2 ^ 16) mod 256; (v / 2 ^ 8) mod 256; v mod 256],
   snd o + 4).
Proof.
  unfold qoi_write_32, put_byte. cbn [fst snd].
  rewrite !byte_field by (reflexivity || lia). rewrite byte_field0.
  rewrite <- !app_assoc. cbn [app]. f_equal. lia.
Qed.

Lemma qoi_write_24_bytes o v :
  qoi_write_24 o v =
  (fst o ++ [(v / 2 ^ 16) mod 256; (v / 2 ^ 8) mod 256; v mod 256], snd o + 3).
Proof.
  unfold qoi_write_24, put_byte. cbn [fst snd].
  rewrite !byte_field by (reflexivity || lia). rewrite byte_field0.
  rewrite <- !app_assoc. cbn [app]. f_equal. lia.
Qed.

Lemma qoi_write_16_bytes o v :
  qoi_write_16 o v = (fst o ++ [(v / 2 ^ 8) mod 256; v mod 256], snd o + 2).
Proof.
  unfold qoi_write_16, put_byte. cbn [fst snd].
  rewrite !byte_field by (reflexivity || lia). rewrite byte_field0.
  rewrite <- !app_assoc. cbn [app]. f_equal. lia.
Qed.

Lemma be32_value a b c d :
  is_byte a -> is_byte b -> is_byte c -> is_byte d ->
  Z.lor (Z.lor (Z.lor (Z.shiftl a 24) (Z.shiftl b 16)) (Z.shiftl c 8)) d =
  a * 16777216 + b * 65536 + c * 256 + d.
Proof.
  unfold is_byte. intros Ha Hb Hc Hd.
  rewrite !Z.shiftl_mul_pow2 by lia.
  change (2 ^ 24) with 16777216. change (2 ^ 16) with 65536. change (2 ^ 8) with 256.
  rewrite (lor_disjoint_add (a * 16777216) (b * 65536) 24);
    [| lia | change (2 ^ 24) with 16777216; lia
     | change (2 ^ 24) with 16777216; apply Z.mod_mul; lia].
  rewrite (lor_disjoint_add _ (c * 256) 16);
    [| lia | change (2 ^ 16) with 65536; lia
     | change (2 ^ 16) with 65536;
       replace (a * 16777216 + b * 65536) with ((a * 256 + b) * 65536) by lia;
       apply Z.mod_mul; lia].
  rewrite (lor_disjoint_add _ d 8);
    [| lia | change (2 ^ 8) with 256; lia
     | change (2 ^ 8) with 256;
       replace (a * 16777216 + b * 65536 + c * 256) with ((a * 65536 + b * 256 + c) * 256) by lia;
       apply Z.mod_mul; lia].
  reflexivity.
Qed.

Lemma be24_value b c d :
  is_byte b -> is_byte c -> is_byte d ->
  Z.lor (Z.lor (Z.shiftl b 16) (Z.shiftl c 8)) d = b * 65536 + c * 256 + d.
Proof.
  unfold is_byte. intros Hb Hc Hd.
  rewrite !Z.shiftl_mul_pow2 by lia.
  change (2 ^ 16) with 65536. change (2 ^ 8) with 256.
  rewrite (lor_disjoint_add _ (c * 256) 16);
    [| lia | change (2 ^ 16) with 65536; lia
     | change (2 ^ 16) with 65536; apply Z.mod_mul; lia].
  rewrite (lor_disjoint_add _ d 8);
    [| lia | change (2 ^ 8) with 256; lia
     | change (2 ^ 8) with 256;
       replace (b * 65536 + c * 256) with ((b * 256 + c) * 256) by lia;
       apply Z.mod_mul; lia].
  reflexivity.
Qed.

Lemma be16_value c d :
  is_byte c -> is_byte d -> Z.lor (Z.shiftl c 8) d = c * 256 + d.
Proof.
  unfold is_byte. intros Hc Hd.
  rewrite !Z.shiftl_mul_pow2 by lia. change (2 ^ 8) with 256.
  rewrite (lor_disjoint_add _ d 8);
    [| lia | change (2 ^ 8) with 256; lia
     | change (2 ^ 8) with 256; apply Z.mod_mul; lia].
  reflexivity.
Qed.

Lemma be32_split v :
  0 <= v < 4294967296 ->
  (v / 2 ^ 24) mod 256 * 16777216 + (v / 2 ^ 16) mod 256 * 65536 +
  (v / 2 ^ 8) mod 256 * 256 + v mod 256 = v.
Proof.
  intros H. change (2 ^ 24) with 16777216. change (2 ^ 16) with 65536.
  change (2 ^ 8) with 256. Z.div_mod_to_equations. lia.
Qed.

Lemma mod_byte v : is_byte (v mod 256).
Proof. unfold is_byte. apply Z.mod_pos_bound. lia. Qed.

Lemma qoi_read_32_written F p v :
  0 <= v < 4294967296 ->
  holds F p [(v / 2 ^ 24) mod 256; (v / 2 ^ 16) mod 256; (v / 2 ^ 8) mod 256; v mod 256] ->
  qoi_read_32 F p = (v, p + 4).
Proof.
  intros Hv Hh.
  apply holds_cons in Hh as [H0 Hh]. apply holds_cons in Hh as [H1 Hh].
  apply holds_cons in Hh as [H2 Hh]. apply holds_cons in Hh as [H3 _].
  unfold qoi_read_32.
  replace (p + 2) with (p + 1 + 1) by lia. replace (p + 3) with (p + 1 + 1 + 1) by lia.
  rewrite H0, H1, H2, H3.
  rewrite be32_value by apply mod_byte. rewrite be32_split by assumption.
  unfold u32. rewrite Z.mod_small by lia. f_equal. 
Qed.

Lemma put_byte_fst o v : fst (put_byte o v) = fst o ++ [u8 v].
Proof. reflexivity. Qed.

Lemma put_byte_snd o v : snd (put_byte o v) = snd o + 1.
Proof. reflexivity. Qed.

Lemma dec_run_chunk F cl ch sd r :
  0 <= r <= 61 -> holds F (d_p sd) [u8 (Z.lor QOI_OP_RUN r)] ->
  d_p sd < cl -> d_run sd = 0 ->
  dec_n F cl ch (S (Z.to_nat r)) sd =
  mk_dec (d_p sd + 1) 0
         (set (d_index sd) (QOI_COLOR_HASH (d_px sd) mod 64) (d_px sd))
         (d_px sd)
         (d_pixels sd ++ flat_map (px_bytes ch) (repeat (d_px sd) (S (Z.to_nat r)))).
Proof.
  intros Hr Hh Hp Hrun.
  apply holds_cons in Hh as [Hb _].
  destruct (run_byte_facts r Hr) as [Ht Hl].
  cbn [dec_n]. unfold decode_pixel at 1.
  rewrite Hrun. change (0 >? 0) with false. cbv iota.
  replace (d_p sd <? cl) with true by (symmetry; apply Z.ltb_lt; lia).
  unfold next_byte at 1. rewrite Hb, decode_chunk_tag, Ht, Hl. cbv iota beta zeta.
  rewrite dec_n_run by (simpl; lia). simpl.
  rewrite <- app_assoc. f_equal. lia.
Qed.

Lemma dec_index_chunk F cl ch sd i :
  0 <= i < 64 -> holds F (d_p sd) [u8 (Z.lor QOI_OP_INDEX i)] ->
  d_p sd < cl -> d_run sd = 0 ->
  decode_pixel F cl ch sd =
  let px := get zero_px (d_index sd) i in
  mk_dec (d_p sd + 1) 0 (set (d_index sd) (QOI_COLOR_HASH px mod 64) px) px
         (d_pixels sd ++ px_bytes ch px).
Proof.
  intros Hi Hh Hp Hrun.
  apply holds_cons in Hh as [Hb _].
  destruct (index_byte_facts i Hi) as [Ht Hl].
  unfold decode_pixel.
  rewrite Hrun. change (0 >? 0) with false. cbv iota.
  replace (d_p sd <? cl) with true by (symmetry; apply Z.ltb_lt; lia).
  unfold next_byte at 1. rewrite Hb, decode_chunk_tag, Ht, Hl. reflexivity.
Qed.

Ltac chunk_eq :=
  unfold put_byte; cbn [fst snd]; rewrite <- ?app_assoc; cbn [app];
  apply (f_equal2 pair); [reflexivity | cbn [length]; lia].

Lemma px_eta px : mk_rgba (rgba_r px) (rgba_g px) (rgba_b px) (rgba_a px) = px.
Proof. now destruct px. Qed.

Lemma dec_color_chunk o px prev :
  px_ok px -> px_ok prev ->
  exists chunk,
    encode_color put_byte o px prev = (fst o ++ chunk, snd o + Z.of_nat (length chunk)) /\
    (1 <= length chunk <= 5)%nat /\
    (rgba_a px = rgba_a prev -> (length chunk <= 4)%nat) /\
    forall F cl ch sd,
      holds F (d_p sd) chunk -> d_p sd < cl -> d_run sd = 0 -> d_px sd = prev ->
      decode_pixel F cl ch sd =
      mk_dec (d_p sd + Z.of_nat (length chunk)) 0
             (set (d_index sd) (QOI_COLOR_HASH px mod 64) px) px
             (d_pixels sd ++ px_bytes ch px).
Proof.
  intros (Hr & Hg & Hb & Ha) (Hpr & Hpg & Hpb & Hpa).
  unfold encode_color.
  destruct (rgba_a px =? rgba_a prev) eqn:Ea.
  - apply Z.eqb_eq in Ea.
    set (vr := s8 (rgba_r px - rgba_r prev)).
    set (vg := s8 (rgba_g px - rgba_g prev)).
    set (vb := s8 (rgba_b px - rgba_b prev)).
    match goal with |- context [if ?c then _ else _] => destruct c eqn:Ed end.
    + (* DIFF *)
      repeat (apply andb_prop in Ed as [Ed ?]).
      assert (Hvr : -2 <= vr <= 1) by lia.
      assert (Hvg : -2 <= vg <= 1) by lia.
      assert (Hvb : -2 <= vb <= 1) by lia.
      eexists. split; [chunk_eq|].
      split; [simpl; lia|]. split; [simpl; lia|].
      intros F cl ch sd Hh Hp Hrun Hpx.
      apply holds_cons in Hh as [Hb1 _].
      destruct (diff_byte_facts vr vg vb Hvr Hvg Hvb) as (Ht & K1 & K2 & K3).
      unfold decode_pixel.
      rewrite Hrun. change (0 >? 0) with false. cbv iota.
      replace (d_p sd <? cl) with true by (symmetry; apply Z.ltb_lt; lia).
      unfold next_byte at 1. rewrite Hb1, decode_chunk_tag, Ht, K1, K2, K3.
      cbv iota beta zeta. rewrite Hpx.
      unfold vr, vg, vb. rewrite !diff_wrap by assumption.
      rewrite <- Ea, px_eta. reflexivity.
    + match goal with |- context [if ?c then _ else _] => destruct c eqn:El end.
      * (* LUMA *)
        repeat (apply andb_prop in El as [El ?]).
        set (vg_r := s8 (vr - vg)) in *.
        set (vg_b := s8 (vb - vg)) in *.
        assert (Hvg : -32 <= vg <= 31) by lia.
        assert (Hvr : -8 <= vg_r <= 7) by lia.
        assert (Hvb : -8 <= vg_b <= 7) by lia.
        eexists. split; [chunk_eq|].
        split; [simpl; lia|]. split; [simpl; lia|].
        intros F cl ch sd Hh Hp Hrun Hpx.
        apply holds_cons in Hh as [Hb1 Hh]. apply holds_cons in Hh as [Hb2 _].
        destruct (luma_byte1_facts vg Hvg) as (Ht & K1).
        destruct (luma_byte2_facts vg_r vg_b Hvr Hvb) as (K2 & K3).
        unfold decode_pixel.
        rewrite Hrun. change (0 >? 0) with false. cbv iota.
        replace (d_p sd <? cl) with true by (symmetry; apply Z.ltb_lt; lia).
        unfold next_byte at 1. rewrite Hb1, decode_chunk_tag, Ht.
        unfold next_byte. rewrite Hb2, K1, K2, K3.
        cbv iota beta zeta. rewrite Hpx.
        unfold vg_r, vg_b, vr, vb. rewrite !luma_wrap by assumption.
        unfold vg. rewrite diff_wrap by assumption.
        rewrite <- Ea, px_eta. f_equal. simpl. lia.
      * (* RGB *)
        eexists. split; [chunk_eq|].
        split; [simpl; lia|]. split; [simpl; lia|].
        intros F cl ch sd Hh Hp Hrun Hpx.
        apply holds_cons in Hh as [Hb1 Hh]. apply holds_cons in Hh as [Hb2 Hh].
        apply holds_cons in Hh as [Hb3 Hh]. apply holds_cons in Hh as [Hb4 _].
        unfold decode_pixel.
        rewrite Hrun. change (0 >? 0) with false. cbv iota.
        replace (d_p sd <? cl) with true by (symmetry; apply Z.ltb_lt; lia).
        unfold next_byte at 1. rewrite Hb1, decode_chunk_tag.
        change (tag_of (u8 QOI_OP_RGB)) with T_RGB. cbv iota.
        unfold next_byte. rewrite Hb2, Hb3, Hb4.
        rewrite !u8_byte by assumption. rewrite Hpx, <- Ea, px_eta.
        f_equal. simpl. lia.
  - (* RGBA *)
    eexists. split; [chunk_eq|].
    split; [simpl; lia|]. split; [apply Z.eqb_neq in Ea; intros; contradiction|].
    intros F cl ch sd Hh Hp Hrun Hpx.
    apply holds_cons in Hh as [Hb1 Hh]. apply holds_cons in Hh as [Hb2 Hh].
    apply holds_cons in Hh as [Hb3 Hh]. apply holds_cons in Hh as [Hb4 Hh].
    apply holds_cons in Hh as [Hb5 _].
    unfold decode_pixel.
    rewrite Hrun. change (0 >? 0) with false. cbv iota.
    replace (d_p sd <? cl) with true by (symmetry; apply Z.ltb_lt; lia).
    unfold next_byte at 1. rewrite Hb1, decode_chunk_tag.
    change (tag_of (u8 QOI_OP_RGBA)) with T_RGBA. cbv iota.
    unfold next_byte. rewrite Hb2, Hb3, Hb4, Hb5.
    rewrite !u8_byte by assumption. rewrite px_eta.
    f_equal. simpl. lia.
Qed.

Lemma hash_zero_px : QOI_COLOR_HASH zero_px mod 64 = 0.
Proof. reflexivity. Qed.

Lemma hash_start_px : QOI_COLOR_HASH start_px mod 64 = 53.
Proof. reflexivity. Qed.

(** Storing in the decoder index a pixel the encoder index already holds
    at its slot. *)
Lemma index_rel_stamp ie id px :
  px_ok px -> length ie = 64%nat -> index_rel ie id ->
  get zero_px ie (QOI_COLOR_HASH px mod 64) = px \/
  (px = start_px /\ get zero_px ie 53 = zero_px) ->
  index_rel ie (set id (QOI_COLOR_HASH px mod 64) px).
Proof.
  intros Hok Hle [Hld Hrel] Hseen.
  pose proof (hash_range px Hok) as Hh.
  split; [now rewrite length_set|].
  intros i Hi.
  destruct (Z.eq_dec i (QOI_COLOR_HASH px mod 64)) as [->|Hne].
  - rewrite get_set_same by lia.
    destruct Hseen as [Hs|[-> Hs]].
    + left. now rewrite Hs.
    + rewrite hash_start_px. right. auto.
  - rewrite get_set_other by lia. apply Hrel. assumption.
Qed.

(** Storing the same pixel in both indices. *)
Lemma index_rel_set ie id px :
  px_ok px -> length ie = 64%nat -> index_rel ie id ->
  index_rel (set ie (QOI_COLOR_HASH px mod 64) px)
            (set id (QOI_COLOR_HASH px mod 64) px).
Proof.
  intros Hok Hle [Hld Hrel].
  pose proof (hash_range px Hok) as Hh.
  split; [now rewrite length_set|].
  intros i Hi.
  destruct (Z.eq_dec i (QOI_COLOR_HASH px mod 64)) as [->|Hne].
  - left. now rewrite !get_set_same by lia.
  - rewrite !get_set_other by lia. apply Hrel. assumption.
Qed.

(** An index hit in the encoder is a hit in the decoder. *)
Lemma index_rel_hit ie id px :
  px_ok px -> index_rel ie id ->
  get zero_px ie (QOI_COLOR_HASH px mod 64) = px ->
  get zero_px id (QOI_COLOR_HASH px mod 64) = px.
Proof.
  intros Hok [Hld Hrel] Hhit.
  pose proof (hash_range px Hok) as Hh.
  destruct (Hrel _ Hh) as [E|(E1 & E2 & E3)].
  - now rewrite E.
  - rewrite Hhit in E2. subst px. rewrite hash_zero_px in E1. discriminate.
Qed.

Lemma load_px_start pixels ch px_pos px :
  (ch <> 4 -> rgba_a px = 255) ->
  @load_px pixels ch px_pos px = load_px pixels ch px_pos start_px.
Proof.
  intros H. unfold load_px. destruct (ch =? 4) eqn:E; [reflexivity|].
  apply Z.eqb_neq in E. now rewrite (H E).
Qed.

Lemma repeat_snoc {A} (x : A) n : repeat x n ++ [x] = repeat x (S n).
Proof. now rewrite <- repeat_cons. Qed.

(** One iteration of the encoder against the decoder.  The decoder, placed
    at the chunk the iteration emits, produces [k] pixels; the pixels of a
    run that is still open are owed. *)
Lemma sim_step pixels ch px_end px_pos se :
  Forall is_byte pixels -> enc_inv ch se ->
  let px := load_px pixels ch px_pos start_px in
  let se1 := encode_pixel put_byte pixels ch px_end px_pos se in
  enc_inv ch se1 /\
  (px_pos = px_end -> e_run se1 = 0) /\
  e_px_prev se1 = px /\
  exists chunk k,
    e_out se1 = (fst (e_out se) ++ chunk, snd (e_out se) + Z.of_nat (length chunk)) /\
    (Z.to_nat (e_run se) + 1 = k + Z.to_nat (e_run se1))%nat /\
    (Z.of_nat (length chunk) + (if e_run se1 >? 0 then 1 else 0) <=
     (if e_run se >? 0 then 1 else 0) + (if ch =? 4 then 5 else 4)) /\
    forall F cl chd sd,
      holds F (d_p sd) chunk -> d_p sd + Z.of_nat (length chunk) <= cl ->
      sim_rel se sd ->
      let sd1 := dec_n F cl chd k sd in
      sim_rel se1 sd1 /\
      d_pixels sd1 ++ flat_map (px_bytes chd) (repeat px (Z.to_nat (e_run se1))) =
      d_pixels sd ++ flat_map (px_bytes chd)
                              (repeat (e_px_prev se) (Z.to_nat (e_run se)) ++ [px]).
Proof.
  intros Hpix Hinv px se1.
  destruct Hinv as [Ipx Iok Ialpha Irun Ilen Iseen Ip].
  assert (Hpx : load_px pixels ch px_pos (e_px se) = px).
  { apply load_px_start. rewrite Ipx. exact Ialpha. }
  assert (Hok : px_ok px).
  { apply load_px_ok; [assumption|]. unfold is_byte; simpl; lia. }
  assert (Hpa : ch <> 4 -> rgba_a px = 255).
  { intros Hc. unfold px, load_px. apply Z.eqb_neq in Hc. now rewrite Hc. }
  pose proof (hash_range px Hok) as Hhr.
  unfold se1, encode_pixel. rewrite Hpx.
  destruct (rgba_eqb px (e_px_prev se)) eqn:Eeq.
  - (* a repeat of the previous pixel *)
    apply rgba_eqb_eq in Eeq.
    destruct ((e_run se + 1 =? 62) || (px_pos =? px_end)) eqn:Efl.
    + (* the run is flushed *)
      replace (e_run se + 1 - 1) with (e_run se) by lia.
      split; [|split; [|split]]; cbn [e_run e_px_prev e_px e_index e_out].
      * constructor; cbn [e_run e_px_prev e_px e_index e_out]; auto; try lia;
          try (now rewrite Eeq).
        rewrite put_byte_fst, put_byte_snd, length_app. simpl. lia.
      * reflexivity.
      * reflexivity.
      * exists [u8 (Z.lor QOI_OP_RUN (e_run se))], (S (Z.to_nat (e_run se))).
        split; [reflexivity|]. split; [simpl; lia|].
        split; [simpl; destruct (e_run se >? 0) eqn:E, (ch =? 4); lia|].
        intros F cl chd sd Hh Hcl (Sp & Srun & Spx & Sidx). cbv zeta.
        rewrite dec_run_chunk by (simpl in Hcl; auto; lia).
        split.
        -- split; [|split; [|split]];
             cbn [d_p d_run d_px d_index e_run e_px_prev e_px e_index e_out].
           ++ rewrite put_byte_snd. lia.
           ++ reflexivity.
           ++ congruence.
           ++ rewrite Spx. apply index_rel_stamp; auto.
        -- simpl. rewrite app_nil_r. rewrite Spx, Eeq.
           rewrite repeat_snoc. reflexivity.
    + (* the run stays open *)
      apply orb_false_elim in Efl as [E62 Eend].
      apply Z.eqb_neq in E62, Eend.
      split; [|split; [|split]]; cbn [e_run e_px_prev e_px e_index e_out].
      * constructor; cbn [e_run e_px_prev e_px e_index e_out]; auto; try lia;
          try (now rewrite Eeq).
      * intros; contradiction.
      * reflexivity.
      * exists [], O.
        split; [cbn [length]; rewrite app_nil_r, Z.add_0_r; now destruct (e_out se)|].
        split; [lia|].
        split; [simpl; replace (e_run se + 1 >? 0) with true by (symmetry; apply Z.gtb_lt; lia);
                destruct (e_run se >? 0) eqn:E, (ch =? 4); lia|].
        intros F cl chd sd Hh Hcl (Sp & Srun & Spx & Sidx). cbv zeta.
        cbn [dec_n]. split.
        -- split; [|split; [|split]];
             cbn [e_run e_px_prev e_px e_index e_out]; auto; congruence.
        -- replace (Z.to_nat (e_run se + 1)) with (S (Z.to_nat (e_run se))) by lia.
           rewrite Eeq, repeat_snoc. reflexivity.
  - (* a new pixel *)
    apply rgba_eqb_neq in Eeq.
    set (out0 := if e_run se >? 0 then put_byte (e_out se) (Z.lor QOI_OP_RUN (e_run se - 1))
                 else e_out se).
    set (c0 := if e_run se >? 0 then [u8 (Z.lor QOI_OP_RUN (e_run se - 1))] else []).
    assert (Hout0 : out0 = (fst (e_out se) ++ c0, snd (e_out se) + Z.of_nat (length c0))).
    { unfold out0, c0. destruct (e_run se >? 0).
      - reflexivity.
      - cbn [length]. rewrite app_nil_r, Z.add_0_r. now destruct (e_out se). }
    assert (Hc0 : Z.of_nat (length c0) = if e_run se >? 0 then 1 else 0).
    { unfold c0. now destruct (e_run se >? 0). }
    (* the decoder on the pending run *)
    assert (Hdec0 : forall F cl chd sd,
      holds F (d_p sd) c0 -> d_p sd + Z.of_nat (length c0) <= cl -> sim_rel se sd ->
      let sd0 := dec_n F cl chd (Z.to_nat (e_run se)) sd in
      d_p sd0 = snd out0 /\ d_run sd0 = 0 /\ d_px sd0 = e_px_prev se /\
      index_rel (e_index se) (d_index sd0) /\
      d_pixels sd0 = d_pixels sd ++
        flat_map (px_bytes chd) (repeat (e_px_prev se) (Z.to_nat (e_run se)))).
    { intros F cl chd sd Hh Hcl (Sp & Srun & Spx & Sidx). cbv zeta.
      rewrite Hout0. cbn [snd]. rewrite Hc0 in *. unfold c0 in Hh.
      destruct (e_run se >? 0) eqn:Er.
      - apply Z.gtb_lt in Er.
        replace (Z.to_nat (e_run se)) with (S (Z.to_nat (e_run se - 1))) by lia.
        rewrite dec_run_chunk by (auto; lia).
        cbn [d_p d_run d_px d_index d_pixels]. rewrite Spx.
        split; [lia|]. split; [reflexivity|]. split; [reflexivity|].
        split; [apply index_rel_stamp; auto|reflexivity].
      - assert (e_run se = 0) by (rewrite Z.gtb_ltb in Er; apply Z.ltb_ge in Er; lia).
        replace (Z.to_nat (e_run se)) with O by lia. simpl.
        rewrite app_nil_r. split; [lia|]. auto. }
    destruct (rgba_eqb (get zero_px (e_index se) (QOI_COLOR_HASH px mod 64)) px) eqn:Ehit.
    + (* index hit *)
      apply rgba_eqb_eq in Ehit.
      split; [|split; [|split]]; cbn [e_run e_px_prev e_px e_index e_out].
      * constructor; cbn [e_run e_px_prev e_px e_index e_out]; auto; try lia.
        rewrite put_byte_fst, put_byte_snd, length_app, Hout0. cbn [fst snd length].
        rewrite length_app. lia.
      * reflexivity.
      * reflexivity.
      * exists (c0 ++ [u8 (Z.lor QOI_OP_INDEX (QOI_COLOR_HASH px mod 64))]),
               (Z.to_nat (e_run se) + 1)%nat.
        split.
        { rewrite Hout0. unfold put_byte. cbn [fst snd]. rewrite <- app_assoc.
          f_equal. rewrite length_app. cbn [length]. lia. }
        split; [simpl; lia|].
        split; [rewrite length_app; cbn [length]; change (0 >? 0) with false; cbv iota;
                rewrite Nat2Z.inj_add, Hc0; destruct (e_run se >? 0), (ch =? 4); simpl; lia|].
        intros F cl chd sd Hh Hcl Hsim. cbv zeta.
        rewrite length_app in Hcl. cbn [length] in Hcl.
        apply holds_split in Hh as [Hh0 Hh1].
        destruct (Hdec0 F cl chd sd Hh0 ltac:(lia) Hsim) as (Dp & Drun & Dpx & Didx & Dout).
        destruct Hsim as (Sp & Srun & Spx & Sidx).
        rewrite dec_n_add. cbn [dec_n].
        rewrite (dec_index_chunk F cl chd _ (QOI_COLOR_HASH px mod 64)); auto;
          [| rewrite Dp, Hout0; cbn [snd]; rewrite <- Sp; exact Hh1
           | rewrite Dp, Hout0; cbn [snd]; lia].
        cbv zeta. rewrite (index_rel_hit _ _ _ Hok Didx Ehit).
        split.
        -- split; [|split; [|split]];
             cbn [d_p d_run d_px d_index e_run e_px_prev e_px e_index e_out]; auto.
           ++ rewrite put_byte_snd. lia.
           ++ apply index_rel_stamp; auto.
        -- cbn [d_pixels]. rewrite Dout. simpl. rewrite app_nil_r.
           rewrite flat_map_app. simpl. rewrite app_nil_r, <- app_assoc. reflexivity.
    + (* a colour chunk *)
      apply rgba_eqb_neq in Ehit.
      destruct (dec_color_chunk out0 px (e_px_prev se) Hok Iok)
        as (chunk & Hcol & Hlen & Hlen4 & Hdec).
      split; [|split; [|split]]; cbn [e_run e_px_prev e_px e_index e_out].
      * constructor; cbn [e_run e_px_prev e_px e_index e_out]; auto; try lia.
        -- now rewrite length_set.
        -- left. apply get_set_same. lia.
        -- rewrite Hcol, Hout0. cbn [fst snd]. rewrite !length_app. lia.
      * reflexivity.
      * reflexivity.
      * exists (c0 ++ chunk), (Z.to_nat (e_run se) + 1)%nat.
        split.
        { rewrite Hcol, Hout0. cbn [fst snd]. rewrite <- app_assoc.
          f_equal. rewrite length_app. lia. }
        split; [simpl; lia|].
        split.
        { rewrite length_app, Nat2Z.inj_add, Hc0. change (0 >? 0) with false. cbv iota.
          destruct (ch =? 4) eqn:Ech.
          - destruct (e_run se >? 0); lia.
          - apply Z.eqb_neq in Ech.
            assert (length chunk <= 4)%nat by (apply Hlen4; rewrite Hpa, Ialpha; auto).
            destruct (e_run se >? 0); lia. }
        intros F cl chd sd Hh Hcl Hsim. cbv zeta.
        rewrite length_app in Hcl.
        apply holds_split in Hh as [Hh0 Hh1].
        destruct (Hdec0 F cl chd sd Hh0 ltac:(lia) Hsim) as (Dp & Drun & Dpx & Didx & Dout).
        destruct Hsim as (Sp & Srun & Spx & Sidx).
        rewrite dec_n_add. cbn [dec_n].
        rewrite Hdec; auto;
          [| rewrite Dp, Hout0; cbn [snd]; rewrite <- Sp; exact Hh1
           | rewrite Dp, Hout0; cbn [snd]; lia].
        split.
        -- split; [|split; [|split]];
             cbn [d_p d_run d_px d_index e_run e_px_prev e_px e_index e_out]; auto.
           ++ rewrite Hcol, Dp. reflexivity.
           ++ apply index_rel_set; auto.
        -- cbn [d_pixels]. rewrite Dout. simpl. rewrite app_nil_r.
           rewrite flat_map_app. simpl. rewrite app_nil_r, <- app_assoc. reflexivity.
Qed.

(** The encoder over [m] pixels against the decoder over the bytes it
    emits, whatever follows them in the stream. *)
Lemma sim_n pixels ch px_end :
  Forall is_byte pixels -> 0 < ch ->
  forall m px_pos se,
  enc_inv ch se ->
  px_end = px_pos + (Z.of_nat m - 1) * ch ->
  (m = O -> e_run se = 0) ->
  let se' := enc_n put_byte pixels ch px_end m px_pos se in
  enc_inv ch se' /\ e_run se' = 0 /\
  exists more,
    fst (e_out se') = fst (e_out se) ++ more /\
    Z.of_nat (length more) <= pending (e_run se) + Z.of_nat m * chunk_max ch /\
    forall t cl chd sd,
      Z.of_nat (length (fst (e_out se'))) <= cl ->
      sim_rel se sd ->
      let sd' := dec_n (fst (e_out se') ++ t) cl chd (Z.to_nat (e_run se) + m) sd in
      sim_rel se' sd' /\
      d_pixels sd' =
      d_pixels sd ++ flat_map (px_bytes chd)
                       (repeat (e_px_prev se) (Z.to_nat (e_run se)) ++
                        input_pxs pixels ch m px_pos).
Proof.
  intros Hpix Hch. induction m as [|m IH]; intros px_pos se Hinv Hend Hrun0; cbv zeta.
  - cbn [enc_n]. specialize (Hrun0 eq_refl).
    split; [assumption|]. split; [assumption|].
    exists []. split; [now rewrite app_nil_r|].
    split; [unfold pending, chunk_max; cbn [length]; destruct (e_run se >? 0), (ch =? 4); lia|].
    intros t cl chd sd Hcl Hsim. cbv zeta. rewrite Hrun0. simpl.
    now rewrite app_nil_r.
  - cbn [enc_n].
    destruct (sim_step pixels ch px_end px_pos se Hpix Hinv)
      as (Hinv1 & Hlast & Hprev1 & chunk & k & Hout1 & Hk & Hbound & Hdec).
    set (se1 := encode_pixel put_byte pixels ch px_end px_pos se) in *.
    destruct (IH (px_pos + ch) se1 Hinv1 ltac:(lia) ltac:(intros; apply Hlast; nia))
      as (Hinv' & Hrun' & more & Hmore & Hmbound & Hdec').
    set (se' := enc_n put_byte pixels ch px_end m (px_pos + ch) se1) in *.
    split; [assumption|]. split; [assumption|].
    exists (chunk ++ more).
    assert (Hfst1 : fst (e_out se1) = fst (e_out se) ++ chunk) by now rewrite Hout1.
    split; [now rewrite Hmore, Hfst1, app_assoc|].
    split.
    { rewrite length_app. unfold pending, chunk_max in *. lia. }
    intros t cl chd sd Hcl Hsim. cbv zeta.
    replace (Z.to_nat (e_run se) + S m)%nat with (k + (Z.to_nat (e_run se1) + m))%nat by lia.
    rewrite dec_n_add.
    assert (HF : fst (e_out se') ++ t = fst (e_out se) ++ chunk ++ (more ++ t)).
    { rewrite Hmore, Hfst1, <- !app_assoc. reflexivity. }
    assert (Hp : d_p sd = Z.of_nat (length (fst (e_out se)))).
    { destruct Hsim as (Sp & _). rewrite Sp. apply (inv_p _ _ Hinv). }
    destruct (Hdec (fst (e_out se') ++ t) cl chd sd) as (Hsim1 & Hpix1).
    + rewrite HF, Hp. apply holds_app.
    + rewrite Hp. rewrite Hmore, Hfst1, !length_app in Hcl. lia.
    + assumption.
    + destruct (Hdec' t cl chd _ Hcl Hsim1) as (Hsim' & Hpix').
      split; [assumption|].
      rewrite Hpix'. cbn [input_pxs].
      rewrite flat_map_app, app_assoc, Hprev1, Hpix1.
      rewrite <- app_assoc, <- flat_map_app, <- app_assoc. reflexivity.
Qed.
(** ** Valid descriptors *)

Lemma valid_desc_args d : valid_desc d -> encode_args_invalid d = false.
Proof.
  intros (Hw & Hh & Hc & Hs & Hm). unfold encode_args_invalid.
  repeat (apply orb_false_intro); try (apply Z.eqb_neq; lia);
    try (apply Z.ltb_ge; lia); try (rewrite Z.gtb_ltb; apply Z.ltb_ge; lia).
  rewrite Z.geb_leb. apply Z.leb_gt. lia.
Qed.

Lemma args_valid_desc d :
  0 <= width d -> 0 <= height d -> 0 <= colorspace d ->
  encode_args_invalid d = false -> valid_desc d.
Proof.
  intros Hw0 Hh0 Hc0 H. unfold encode_args_invalid in H.
  repeat (apply orb_false_elim in H as [H ?]).
  apply Z.eqb_neq in H.
  repeat match goal with
         | E : (_ =? _) = false |- _ => apply Z.eqb_neq in E
         | E : (_ <? _) = false |- _ => apply Z.ltb_ge in E
         | E : (_ >? _) = false |- _ => rewrite Z.gtb_ltb in E; apply Z.ltb_ge in E
         | E : (_ >=? _) = false |- _ => rewrite Z.geb_leb in E; apply Z.leb_gt in E
         end.
  unfold valid_desc. repeat split; try lia.
Qed.

Lemma valid_desc_pixels d :
  valid_desc d -> 1 <= width d * height d < QOI_PIXELS_MAX.
Proof.
  intros (Hw & Hh & Hc & Hs & Hm). unfold QOI_PIXELS_MAX in *.
  split; [nia|].
  pose proof (Z.div_mod 400000000 (width d) ltac:(lia)) as E.
  pose proof (Z.mod_pos_bound 400000000 (width d) ltac:(lia)) as B.
  nia.
Qed.

Lemma pixel_len_valid d ch :
  valid_desc d -> 0 <= ch <= 4 -> pixel_len d ch = width d * height d * ch.
Proof.
  intros Hv Hch. pose proof (valid_desc_pixels d Hv) as H. unfold QOI_PIXELS_MAX in H.
  unfold pixel_len, s32, u32.
  rewrite (Z.mod_small (width d * height d)) by lia.
  rewrite (Z.mod_small (width d * height d * ch)) by nia.
  rewrite Z.mod_small by nia. lia.
Qed.

Lemma encode_max_size_valid d :
  valid_desc d ->
  encode_max_size d = width d * height d * (channels d + 1) + 14 + 8.
Proof.
  intros Hv. pose proof (valid_desc_pixels d Hv) as H. unfold QOI_PIXELS_MAX in H.
  destruct Hv as (Hw & Hh & Hc & Hs & Hm).
  unfold encode_max_size, s32, u32, QOI_HEADER_SIZE, sizeof_qoi_padding.
  rewrite (Z.mod_small (width d * height d)) by lia.
  rewrite (Z.mod_small (width d * height d * (channels d + 1))) by nia.
  rewrite (Z.mod_small (_ + 14)) by nia.
  rewrite Z.mod_small by nia. lia.
Qed.

(** ** The header *)

Lemma write_header_bytes d cs : write_header d cs = (header_bytes d cs, 14).
Proof.
  unfold write_header. rewrite !qoi_write_32_bytes. reflexivity.
Qed.

Lemma holds_prefix l F p : holds (l ++ F) 0 (firstn p l).
Proof.
  intros j Hj. rewrite length_firstn in Hj.
  rewrite Z.add_0_l. unfold get. rewrite Nat2Z.id.
  rewrite app_nth1 by lia. now rewrite nth_firstn, (proj2 (Nat.ltb_lt _ _)) by lia.
Qed.

Lemma read_header_written d cs rest :
  0 <= width d < 4294967296 -> 0 <= height d < 4294967296 ->
  is_byte (channels d) -> is_byte cs ->
  read_header (header_bytes d cs ++ rest) =
  (QOI_MAGIC, mk_desc (width d) (height d) (channels d) cs, 14).
Proof.
  intros Hw Hh Hc Hs. unfold read_header.
  assert (Hall : holds (header_bytes d cs ++ rest) 0 (header_bytes d cs)).
  { apply (holds_prefix (header_bytes d cs) rest 14). }
  change (header_bytes d cs) with
    ([113; 111; 105; 102] ++
     [(width d / 2 ^ 24) mod 256; (width d / 2 ^ 16) mod 256;
      (width d / 2 ^ 8) mod 256; width d mod 256] ++
     [(height d / 2 ^ 24) mod 256; (height d / 2 ^ 16) mod 256;
      (height d / 2 ^ 8) mod 256; height d mod 256] ++
     [u8 (channels d); u8 cs]) in Hall at 2.
  apply holds_split in Hall as [H1 Hall]. apply holds_split in Hall as [H2 Hall].
  apply holds_split in Hall as [H3 H4]. cbn [length Z.of_nat] in *.
  change [113; 111; 105; 102] with
    [(QOI_MAGIC / 2 ^ 24) mod 256; (QOI_MAGIC / 2 ^ 16) mod 256;
     (QOI_MAGIC / 2 ^ 8) mod 256; QOI_MAGIC mod 256] in H1.
  assert (Hm : 0 <= QOI_MAGIC < 4294967296) by (unfold QOI_MAGIC; simpl; lia).
  rewrite (qoi_read_32_written _ 0 QOI_MAGIC Hm H1).
  rewrite (qoi_read_32_written _ (0 + 4) (width d) Hw H2).
  rewrite (qoi_read_32_written _ (0 + 4 + 4) (height d) Hh H3).
  assert (G12 : get 0 (header_bytes d cs ++ rest) 12 = u8 (channels d)).
  { exact (holds_prefix (header_bytes d cs) rest 14 12%nat ltac:(simpl; lia)). }
  assert (G13 : get 0 (header_bytes d cs ++ rest) 13 = u8 cs).
  { exact (holds_prefix (header_bytes d cs) rest 14 13%nat ltac:(simpl; lia)). }
  unfold next_byte. change (0 + 4 + 4 + 4) with 12. change (12 + 1) with 13.
  rewrite G12, G13, !u8_byte by assumption. reflexivity.
Qed.

(** ** From [input_pxs] back to the pixel buffer *)

Lemma skipn_nth_cons {A} (l : list A) k d :
  (k < length l)%nat -> skipn k l = nth k l d :: skipn (S k) l.
Proof.
  revert k; induction l as [|h t IH]; intros [|k] H; simpl in *; try lia; auto.
  apply IH. lia.
Qed.

Lemma input_pxs_bytes P ch n : forall k,
  ch = 3 \/ ch = 4 ->
  (k + n * Z.to_nat ch <= length P)%nat ->
  flat_map (px_bytes ch) (input_pxs P ch n (Z.of_nat k)) =
  firstn (n * Z.to_nat ch) (skipn k P).
Proof.
  induction n as [|n IH]; intros k Hch Hlen; [reflexivity|].
  cbn [input_pxs flat_map].
  replace (Z.of_nat k + ch) with (Z.of_nat (k + Z.to_nat ch)) by lia.
  rewrite IH by (auto; lia).
  unfold load_px, px_bytes, get.
  replace (Z.to_nat (Z.of_nat k + 1)) with (S k) by lia.
  replace (Z.to_nat (Z.of_nat k + 2)) with (S (S k)) by lia.
  replace (Z.to_nat (Z.of_nat k + 3)) with (S (S (S k))) by lia.
  rewrite Nat2Z.id.
  destruct Hch as [-> | ->]; cbn [Z.eqb Pos.eqb rgba_r rgba_g rgba_b rgba_a].
  - change (Z.to_nat 3) with 3%nat in *.
    rewrite (skipn_nth_cons P k 0) by lia.
    rewrite (skipn_nth_cons P (S k) 0) by lia.
    rewrite (skipn_nth_cons P (S (S k)) 0) by lia.
    replace (k + 3)%nat with (S (S (S k))) by lia. reflexivity.
  - change (Z.to_nat 4) with 4%nat in *.
    rewrite (skipn_nth_cons P k 0) by lia.
    rewrite (skipn_nth_cons P (S k) 0) by lia.
    rewrite (skipn_nth_cons P (S (S k)) 0) by lia.
    rewrite (skipn_nth_cons P (S (S (S k))) 0) by lia.
    replace (k + 4)%nat with (S (S (S (S k)))) by lia. reflexivity.
Qed.

(** ** The codec, end to end *)

Lemma fold_padding o : fold_left put_byte qoi_padding o = (fst o ++ qoi_padding, snd o + 8).
Proof.
  destruct o as [bs p]. unfold qoi_padding, put_byte. cbn [fold_left fst snd].
  rewrite <- !app_assoc. cbn [app]. f_equal. lia.
Qed.

Lemma header_invalid_valid d : valid_desc d -> header_invalid QOI_MAGIC d = false.
Proof.
  intros Hv. pose proof (valid_desc_args d Hv) as H.
  unfold encode_args_invalid in H. unfold header_invalid.
  repeat (apply orb_false_elim in H as [H ?]).
  rewrite Z.eqb_refl. cbn [negb].
  repeat (apply orb_false_intro); auto.
Qed.

Lemma enc_init_inv ch d cs : enc_inv ch (enc_init (header_bytes d cs, 14)).
Proof.
  constructor; cbn; auto; try lia.
  - unfold px_ok, is_byte. cbn. lia.
Qed.

Lemma index_rel_refl ie : length ie = 64%nat -> index_rel ie ie.
Proof. intros H. split; auto. Qed.

Lemma encode_decode_core QM P D :
  valid_desc D -> Forall is_byte P -> QM (encode_max_size D) = true ->
  exists body,
    qoi_encode QM (Some P) (Some D) true =
    Some (header_bytes D (colorspace D) ++ body ++ qoi_padding,
          14 + Z.of_nat (length body) + 8) /\
    Z.of_nat (length body) <= width D * height D * chunk_max (channels D) /\
    forall QM' t req d0,
      req = 0 \/ req = 3 \/ req = 4 ->
      length t = 8%nat ->
      QM' (pixel_len D (out_channels D req)) = true ->
      qoi_decode QM' (Some (header_bytes D (colorspace D) ++ body ++ t))
                 (14 + Z.of_nat (length body) + 8) (Some d0) req =
      (Some (flat_map (px_bytes (out_channels D req))
                      (input_pxs P (channels D) (Z.to_nat (width D * height D)) 0)),
       Some D).
Proof.
  intros Hv HP HQ.
  pose proof (valid_desc_pixels D Hv) as Hwh. unfold QOI_PIXELS_MAX in Hwh.
  pose proof Hv as (Hw & Hh & Hc & Hs & Hm).
  assert (Hch : 0 < channels D) by lia.
  set (n := Z.to_nat (width D * height D)).
  set (hdr := header_bytes D (colorspace D)).
  set (px_len := width D * height D * channels D).
  destruct (sim_n P (channels D) (px_len - channels D) HP Hch n 0
                  (enc_init (hdr, 14)) (enc_init_inv _ _ _)
                  ltac:(unfold px_len, n; nia) ltac:(unfold n; lia))
    as (Hinv' & Hrun' & body & Hbody & Hbound & Hdec).
  set (se' := enc_n put_byte P (channels D) (px_len - channels D) n 0 (enc_init (hdr, 14))) in *.
  cbn [enc_init e_out e_run fst snd] in Hbody, Hbound.
  exists body.
  assert (Henc : encode_pixels put_byte (hdr, 14) P D = se').
  { unfold encode_pixels. rewrite pixel_len_valid by (auto; lia). fold px_len.
    apply encode_loop_enc_n; unfold px_len, n; nia. }
  assert (Hout : e_out se' = (hdr ++ body, 14 + Z.of_nat (length body))).
  { rewrite (surjective_pairing (e_out se')), (inv_p _ _ Hinv'), Hbody.
    f_equal. rewrite length_app. unfold hdr. cbn [header_bytes length]. lia. }
  split; [|split].
  - unfold qoi_encode. rewrite (valid_desc_args D Hv), HQ. cbn [negb].
    rewrite write_header_bytes. fold hdr. rewrite Henc, fold_padding, Hout.
    cbn [fst snd]. now rewrite <- app_assoc.
  - unfold pending in Hbound. change (0 >? 0) with false in Hbound. cbv iota in Hbound.
    unfold n in Hbound. rewrite Z2Nat.id in Hbound by lia. lia.
  - intros QM' t req d0 Hreq Ht HQ'.
    set (chd := out_channels D req) in *.
    assert (Hchd : chd = 3 \/ chd = 4).
    { unfold chd, out_channels. destruct Hreq as [->|[->| ->]]; cbn; auto. }
    unfold qoi_decode.
    replace (decode_args_invalid _ req) with false.
    2:{ unfold decode_args_invalid, QOI_HEADER_SIZE, sizeof_qoi_padding. symmetry.
        apply orb_false_intro.
        - destruct Hreq as [->|[->| ->]]; reflexivity.
        - apply Z.ltb_ge. lia. }
    unfold hdr. rewrite read_header_written; try lia;
      [| unfold is_byte; lia | unfold is_byte; lia].
    replace (mk_desc (width D) (height D) (channels D) (colorspace D)) with D
      by (now destruct D).
    rewrite (header_invalid_valid D Hv). fold (out_channels D req). fold chd.
    rewrite HQ'. cbn [negb].
    rewrite pixel_len_valid by (auto; lia).
    rewrite (decode_loop_dec_n _ _ _ _ _ _ _ n) by (unfold n; nia).
    fold hdr. unfold sizeof_qoi_padding.
    specialize (Hdec t (14 + Z.of_nat (length body) + 8 - 8) chd
                     (mk_dec 14 0 zero_index start_px [])).
    rewrite Hout in Hdec. cbn [fst snd] in Hdec.
    rewrite <- app_assoc in Hdec.
    destruct Hdec as (_ & Hpix).
    + rewrite length_app. unfold hdr. cbn [header_bytes length]. lia.
    + split; [reflexivity|]. split; [reflexivity|]. split; [reflexivity|].
      apply index_rel_refl. reflexivity.
    + cbn [enc_init e_run e_px_prev Z.to_nat Nat.add repeat app d_pixels] in Hpix.
      rewrite Hpix. reflexivity.
Qed.

Lemma chunk_max_channels ch : ch = 3 \/ ch = 4 -> chunk_max ch = ch + 1.
Proof. intros [-> | ->]; reflexivity. Qed.

Lemma qoi_encode_some QM P D bs n :
  qoi_encode QM (Some P) (Some D) true = Some (bs, n) ->
  encode_args_invalid D = false /\ QM (encode_max_size D) = true.
Proof.
  unfold qoi_encode. destruct (encode_args_invalid D); [discriminate|].
  destruct (QM (encode_max_size D)); [auto|discriminate].
Qed.

(** C1. For a valid descriptor [D] and a pixel buffer [P] of
    [width * height * channels] bytes, decoding the output of [qoi_encode]
    with [qoi_decode], asking for [D]'s channel count, returns [P] and fills
    the descriptor with [D]. *)
Theorem qoi_decode_encode QM QM' P D d0 :
  valid_desc D -> Forall is_byte P ->
  length P = Z.to_nat (width D * height D * channels D) ->
  QM (encode_max_size D) = true ->
  QM' (pixel_len D (channels D)) = true ->
  exists S n,
    qoi_encode QM (Some P) (Some D) true = Some (S, n) /\
    qoi_decode QM' (Some S) n (Some d0) (channels D) = (Some P, Some D).
Proof.
  intros Hv HP Hlen HQ HQ'.
  destruct (encode_decode_core QM P D Hv HP HQ) as (body & Henc & _ & Hdec).
  pose proof (valid_desc_pixels D Hv) as Hwh.
  pose proof Hv as (Hw & Hh & Hc & Hs & Hm).
  do 2 eexists. split; [exact Henc|].
  assert (Hreq : out_channels D (channels D) = channels D).
  { unfold out_channels. destruct Hc as [-> | ->]; reflexivity. }
  rewrite (Hdec QM' qoi_padding (channels D) d0); [| lia | reflexivity | now rewrite Hreq].
  rewrite Hreq. f_equal. f_equal.
  rewrite (input_pxs_bytes P (channels D) _ O Hc) by (rewrite Hlen; nia).
  cbn [skipn]. apply firstn_all2. rewrite Hlen. nia.
Qed.

Lemma sample_desc_valid : valid_desc sample_desc.
Proof.
  unfold valid_desc, sample_desc; cbn [width height channels colorspace].
  repeat split; try lia; auto.
Defined.

Lemma sample_image_bytes : Forall is_byte sample_image.
Proof. unfold sample_image, is_byte. repeat constructor; lia. Defined.

Lemma qoi_decode_encode_witness :
  exists S n,
    qoi_encode (fun _ => true) (Some sample_image) (Some sample_desc) true = Some (S, n) /\
    qoi_decode (fun _ => true) (Some S) n (Some (mk_desc 0 0 0 0)) 4 =
    (Some sample_image, Some sample_desc).
Proof.
  apply (qoi_decode_encode (fun _ => true) (fun _ => true) sample_image sample_desc
                           (mk_desc 0 0 0 0)).
  - exact sample_desc_valid.
  - exact sample_image_bytes.
  - reflexivity.
  - vm_compute. reflexivity.
  - vm_compute. reflexivity.
Defined.

(** C9. The values of the eight terminator bytes do not matter to
    [qoi_decode]: a stream produced by [qoi_encode] and the same stream
    with its last eight bytes replaced by any [t] decode to the same
    non-null pixel buffer and the same descriptor. *)
Theorem qoi_decode_ignores_terminator QM QM' P D S n t req d0 :
  valid_desc D -> Forall is_byte P ->
  qoi_encode QM (Some P) (Some D) true = Some (S, n) ->
  length t = 8%nat ->
  req = 0 \/ req = 3 \/ req = 4 ->
  QM' (pixel_len D (out_channels D req)) = true ->
  exists pixels,
    qoi_decode QM' (Some S) n (Some d0) req = (Some pixels, Some D) /\
    qoi_decode QM' (Some (firstn (length S - 8) S ++ t)) n (Some d0) req =
    (Some pixels, Some D).
Proof.
  intros Hv HP Henc Ht Hreq HQ'.
  destruct (qoi_encode_some _ _ _ _ _ Henc) as [_ HQ].
  destruct (encode_decode_core QM P D Hv HP HQ) as (body & Henc' & _ & Hdec).
  assert (E : (S, n) = (header_bytes D (colorspace D) ++ body ++ qoi_padding,
                        14 + Z.of_nat (length body) + 8)) by congruence.
  apply pair_equal_spec in E as [-> ->].
  eexists. split.
  - apply Hdec; auto.
  - replace (firstn _ _) with (header_bytes D (colorspace D) ++ body).
    + rewrite <- app_assoc. apply Hdec; auto.
    + rewrite app_assoc. rewrite firstn_app.
      rewrite length_app. change (length qoi_padding) with 8%nat.
      replace (length (header_bytes D (colorspace D) ++ body) + 8 - 8 -
               length (header_bytes D (colorspace D) ++ body))%nat with O by lia.
      cbn [firstn]. rewrite app_nil_r. symmetry. apply firstn_all2. lia.
Qed.

Lemma sample_stream_encoded :
  qoi_encode (fun _ => true) (Some sample_image) (Some sample_desc) true =
  Some (sample_stream, 29).
Proof. vm_compute. reflexivity. Defined.

Lemma qoi_decode_ignores_terminator_witness :
  exists pixels,
    qoi_decode (fun _ => true) (Some sample_stream) 29 (Some (mk_desc 0 0 0 0)) 3 =
    (Some pixels, Some sample_desc) /\
    qoi_decode (fun _ => true)
      (Some (firstn (length sample_stream - 8) sample_stream ++ [9; 9; 9; 9; 9; 9; 9; 9]))
      29 (Some (mk_desc 0 0 0 0)) 3 = (Some pixels, Some sample_desc).
Proof.
  apply (qoi_decode_ignores_terminator (fun _ => true) (fun _ => true)
           sample_image sample_desc sample_stream 29 [9; 9; 9; 9; 9; 9; 9; 9] 3
           (mk_desc 0 0 0 0)).
  - exact sample_desc_valid.
  - exact sample_image_bytes.
  - exact sample_stream_encoded.
  - reflexivity.
  - right; left; reflexivity.
  - vm_compute. reflexivity.
Defined.

(** C10. Every store of [qoi_encode] lands below the allocated size
    [width * height * (channels + 1) + 14 + 8]: the stores go to the
    offsets [0 .. out_len - 1] in order, and [out_len] is at most the
    allocated size. *)
Theorem qoi_encode_within_buffer QM P D bs n :
  0 <= width D -> 0 <= height D -> 0 <= colorspace D ->
  Forall is_byte P ->
  qoi_encode QM (Some P) (Some D) true = Some (bs, n) ->
  encode_max_size D = width D * height D * (channels D + 1) + 14 + 8 /\
  n = Z.of_nat (length bs) /\
  n <= encode_max_size D /\
  forall i, (i < length bs)%nat -> Z.of_nat i < encode_max_size D.
Proof.
  intros Hw Hh Hc HP Henc.
  destruct (qoi_encode_some _ _ _ _ _ Henc) as [Hargs HQ].
  pose proof (args_valid_desc D Hw Hh Hc Hargs) as Hv.
  destruct (encode_decode_core QM P D Hv HP HQ) as (body & Henc' & Hbound & _).
  assert (E : (bs, n) = (header_bytes D (colorspace D) ++ body ++ qoi_padding,
                         14 + Z.of_nat (length body) + 8)) by congruence.
  apply pair_equal_spec in E as [-> ->].
  rewrite chunk_max_channels in Hbound by apply Hv.
  rewrite (encode_max_size_valid D Hv).
  assert (Hlen : Z.of_nat (length (header_bytes D (colorspace D) ++ body ++ qoi_padding)) =
                 14 + Z.of_nat (length body) + 8).
  { rewrite !length_app. cbn [header_bytes qoi_padding length]. lia. }
  split; [reflexivity|]. split; [lia|]. split; [lia|].
  intros i Hi. lia.
Qed.

Lemma qoi_encode_within_buffer_witness :
  encode_max_size sample_desc =
  width sample_desc * height sample_desc * (channels sample_desc + 1) + 14 + 8 /\
  29 = Z.of_nat (length sample_stream) /\
  29 <= encode_max_size sample_desc /\
  forall i, (i < length sample_stream)%nat -> Z.of_nat i < encode_max_size sample_desc.
Proof.
  apply (qoi_encode_within_buffer (fun _ => true) sample_image sample_desc
                                  sample_stream 29).
  - simpl; lia.
  - simpl; lia.
  - simpl; lia.
  - exact sample_image_bytes.
  - exact sample_stream_encoded.
Defined.

(** C5. [qoi_encode] returns [NULL] exactly when [data], [desc] or
    [out_len] is null, the width or the height is 0, the channel count is
    not 3 or 4, the colorspace exceeds 1, the height is at least
    [400000000 / width], or the allocation of the output fails. *)
Theorem qoi_encode_null_iff QM data desc out_len :
  qoi_encode QM data desc out_len = None <->
  data = None \/ desc = None \/ out_len = false \/
  exists d, desc = Some d /\
    (width d = 0 \/ height d = 0 \/ ~ (channels d = 3 \/ channels d = 4) \/
     colorspace d > 1 \/ height d >= 400000000 / width d \/
     QM (encode_max_size d) = false).
Proof.
  destruct data as [pixels|]; [|simpl; tauto].
  destruct desc as [d|]; [|simpl; tauto].
  destruct out_len; [|simpl; tauto].
  unfold qoi_encode.
  assert (Hargs : encode_args_invalid d = true <->
            (width d = 0 \/ height d = 0 \/ ~ (channels d = 3 \/ channels d = 4) \/
             colorspace d > 1 \/ height d >= 400000000 / width d)).
  { unfold encode_args_invalid, QOI_PIXELS_MAX.
    rewrite !orb_true_iff, !Z.eqb_eq, Z.ltb_lt, !Z.gtb_ltb, !Z.ltb_lt, Z.geb_leb, Z.leb_le.
    lia. }
  split.
  - intros H. right. right. right. exists d. split; [reflexivity|].
    destruct (encode_args_invalid d) eqn:E.
    + pose proof (proj1 Hargs eq_refl). tauto.
    + destruct (QM (encode_max_size d)); [|tauto].
      cbn [negb] in H.
      destruct (fold_left put_byte qoi_padding _); discriminate.
  - intros [H|[H|[H|(d' & Hd & H)]]]; try discriminate.
    injection Hd as <-.
    destruct (encode_args_invalid d) eqn:E; [reflexivity|].
    assert (Hn : ~ (width d = 0 \/ height d = 0 \/ ~ (channels d = 3 \/ channels d = 4) \/
             colorspace d > 1 \/ height d >= 400000000 / width d)).
    { intros C. apply Hargs in C. discriminate. }
    destruct H as [H|[H|[H|[H|[H|H]]]]]; try tauto.
    now rewrite H.
Qed.

(** C7 (as the code behaves). Encoding the 2x1 RGBA image
    [(0,0,0,255), (0,0,0,255)] gives the 14-byte header, the single body
    byte 0xC1 (a run of two, stored as 2 - 1) and the terminator. *)
Theorem qoi_encode_two_start_pixels :
  forall cs, cs = 0 \/ cs = 1 ->
  qoi_encode (fun _ => true) (Some [0; 0; 0; 255; 0; 0; 0; 255])
             (Some (mk_desc 2 1 4 cs)) true =
  Some (header_bytes (mk_desc 2 1 4 cs) cs ++ [0xc1] ++ qoi_padding, 23).
Proof.
  intros cs [-> | ->]; vm_compute; reflexivity.
Qed.

Lemma qoi_encode_two_start_pixels_witness :
  qoi_encode (fun _ => true) (Some [0; 0; 0; 255; 0; 0; 0; 255])
             (Some (mk_desc 2 1 4 0)) true =
  Some (header_bytes (mk_desc 2 1 4 0) 0 ++ [0xc1] ++ qoi_padding, 23).
Proof.
  apply (qoi_encode_two_start_pixels 0). left. reflexivity.
Defined.

Lemma two_start_pixels_stream :
  qoi_encode (fun _ => true) (Some [0; 0; 0; 255; 0; 0; 0; 255])
             (Some (mk_desc 2 1 4 0)) true =
  Some ([113; 111; 105; 102; 0; 0; 0; 2; 0; 0; 0; 1; 4; 0;
         193; 0; 0; 0; 0; 0; 0; 0; 1], 23).
Proof. vm_compute. reflexivity. Qed.

(** C7 as stated fails: the body of that stream is not the byte 0xC0. *)
Lemma qoi_encode_two_start_pixels_not_c0 :
  ~ exists hdr n,
      length hdr = 14%nat /\
      qoi_encode (fun _ => true) (Some [0; 0; 0; 255; 0; 0; 0; 255])
                 (Some (mk_desc 2 1 4 0)) true =
      Some (hdr ++ [0xc0] ++ qoi_padding, n).
Proof.
  intros (hdr & n & Hlen & H).
  rewrite two_start_pixels_stream in H.
  injection H as H _.
  apply (f_equal (fun l => nth 14 l 0)) in H.
  rewrite app_nth2 in H by (rewrite Hlen; lia). rewrite Hlen in H.
  vm_compute in H. discriminate.
Qed.

(** C3 (as the code behaves). On the 1x1 RGBA image [(0,0,0,255)] the
    encoder emits one RUN chunk and leaves its index all zero, while the
    decoder, having consumed that chunk, holds (0,0,0,255) in slot 53. *)
Theorem index_differs_after_leading_run :
  let D := mk_desc 1 1 4 0 in
  let se := encode_pixels put_byte (write_header D 0) [0; 0; 0; 255] D in
  let bytes := fst (fold_left put_byte qoi_padding (e_out se)) in
  let sd := decode_loop 4 bytes (snd (e_out se)) 4 4 0
                        (mk_dec 14 0 zero_index start_px []) in
  skipn 14 (fst (e_out se)) = [0xc0] /\
  d_p sd = snd (e_out se) /\
  e_index se = zero_index /\
  get zero_px (d_index sd) 53 = start_px /\
  e_index se <> d_index sd.
Proof.
  vm_compute. repeat split; try reflexivity. discriminate.
Qed.

(** ** Truncated input *)

Lemma read_header_u32 bytes magic d p :
  read_header bytes = (magic, d, p) ->
  0 <= width d < 4294967296 /\ 0 <= height d < 4294967296 /\ p = 14 /\
  channels d = get 0 bytes 12 /\ colorspace d = get 0 bytes 13.
Proof.
  unfold read_header, qoi_read_32, next_byte. intros H. injection H as _ <- <-.
  cbn [width height channels colorspace]. unfold u32.
  repeat split; try apply Z.mod_pos_bound; lia.
Qed.

(** C4 (as the code behaves). When the header passes validation and the
    allocation succeeds, [qoi_decode] returns a non-null buffer of
    [width * height * channels] bytes even if the chunk data runs out: once
    the cursor has reached the end of the chunk data, after [k] pixels,
    every remaining pixel repeats the last decoded one. *)
Theorem qoi_decode_truncated QM bytes size d0 req magic d p k :
  Forall is_byte bytes ->
  decode_args_invalid size req = false ->
  read_header bytes = (magic, d, p) ->
  header_invalid magic d = false ->
  QM (pixel_len d (out_channels d req)) = true ->
  (k <= Z.to_nat (width d * height d))%nat ->
  let ch := out_channels d req in
  let st := dec_n bytes (size - 8) ch k (mk_dec p 0 zero_index start_px []) in
  size - 8 <= d_p st ->
  exists pixels,
    qoi_decode QM (Some bytes) size (Some d0) req = (Some pixels, Some d) /\
    Z.of_nat (length pixels) = width d * height d * ch /\
    pixels = d_pixels st ++
             flat_map (px_bytes ch)
                      (repeat (d_px st) (Z.to_nat (width d * height d) - k)).
Proof.
  intros Hb Hargs Hhdr Hval HQ Hk ch st Hex.
  destruct (read_header_u32 _ _ _ _ Hhdr) as (Hw & Hh & -> & Hc & Hs).
  assert (Hv : valid_desc d).
  { unfold header_invalid in Hval.
    repeat (apply orb_false_elim in Hval as [Hval ?]).
    apply args_valid_desc; try lia.
    - rewrite Hs. apply get_byte. assumption.
    - unfold encode_args_invalid.
      repeat (apply orb_false_intro); assumption. }
  pose proof (valid_desc_pixels d Hv) as Hwh. unfold QOI_PIXELS_MAX in Hwh.
  assert (Hch : ch = 3 \/ ch = 4).
  { unfold ch, out_channels. unfold decode_args_invalid in Hargs.
    apply orb_false_elim in Hargs as [Hargs _].
    destruct Hv as (_ & _ & Hc' & _).
    destruct (req =? 0) eqn:E0; [assumption|]. cbn [negb andb] in Hargs.
    destruct (req =? 3) eqn:E3; [apply Z.eqb_eq in E3; auto|].
    destruct (req =? 4) eqn:E4; [apply Z.eqb_eq in E4; auto|discriminate]. }
  set (n := Z.to_nat (width d * height d)) in *.
  eexists. split; [|split].
  - unfold qoi_decode. rewrite Hargs, Hhdr, Hval.
    cbv zeta. change (if req =? 0 then channels d else req) with ch.
    unfold ch at 1. rewrite HQ. cbn [negb].
    rewrite pixel_len_valid by (auto; lia).
    rewrite (decode_loop_dec_n _ _ _ _ _ _ _ n) by (unfold n; nia).
    reflexivity.
  - rewrite dec_n_length by assumption. cbn [d_pixels length].
    unfold n. destruct Hch as [-> | ->]; lia.
  - unfold sizeof_qoi_padding.
    replace n with (k + (n - k))%nat at 1 by lia.
    rewrite dec_n_add. fold st. apply dec_n_exhausted. assumption.
Qed.

Lemma truncated_stream_bytes : Forall is_byte truncated_stream.
Proof. unfold truncated_stream, is_byte. repeat constructor; lia. Defined.

Lemma qoi_decode_truncated_witness :
  exists pixels,
    qoi_decode (fun _ => true) (Some truncated_stream) 27 (Some (mk_desc 0 0 0 0)) 0 =
    (Some pixels, Some (mk_desc 2 1 4 0)) /\
    Z.of_nat (length pixels) = 2 * 1 * 4 /\
    pixels = [10; 20; 30; 40] ++ flat_map (px_bytes 4) (repeat (mk_rgba 10 20 30 40) 1).
Proof.
  apply (qoi_decode_truncated (fun _ => true) truncated_stream 27 (mk_desc 0 0 0 0) 0
                              QOI_MAGIC (mk_desc 2 1 4 0) 14 1).
  - exact truncated_stream_bytes.
  - vm_compute. reflexivity.
  - vm_compute. reflexivity.
  - vm_compute. reflexivity.
  - vm_compute. reflexivity.
  - vm_compute. lia.
  - vm_compute. discriminate.
Defined.

(** C4 as stated fails: a stream with a valid header for two pixels whose
    chunk data ends after the first one is decoded to a non-null buffer. *)
Lemma qoi_decode_truncated_not_null :
  let '(magic, d, p) := read_header truncated_stream in
  header_invalid magic d = false /\
  d_p (decode_pixel truncated_stream (27 - 8) 4 (mk_dec p 0 zero_index start_px []))
    = 27 - 8 /\
  fst (qoi_decode (fun _ => true) (Some truncated_stream) 27 (Some (mk_desc 0 0 0 0)) 0)
    = Some [10; 20; 30; 40; 10; 20; 30; 40] /\
  fst (qoi_decode (fun _ => true) (Some truncated_stream) 27 (Some (mk_desc 0 0 0 0)) 0)
    <> None.
Proof.
  vm_compute. repeat split; try reflexivity. discriminate.
Qed.

(** ** The two encoders share the pixel loop *)

Section EncRel.

Context {W1 W2 : Type}.
Variable R : W1 -> W2 -> Prop.
Variable put1 : W1 -> Z -> W1.
Variable put2 : W2 -> Z -> W2.
Hypothesis put_rel : forall w1 w2 v, R w1 w2 -> R (put1 w1 v) (put2 w2 v).

Lemma encode_color_rel w1 w2 px prev :
  R w1 w2 -> R (encode_color put1 w1 px prev) (encode_color put2 w2 px prev).
Proof.
  intros H. unfold encode_color.
  repeat match goal with
         | |- context [if ?c then _ else _] => destruct c
         end; auto 10.
Qed.

Lemma encode_pixel_rel pixels ch px_end px_pos s1 s2 :
  enc_rel R s1 s2 ->
  enc_rel R (encode_pixel put1 pixels ch px_end px_pos s1)
            (encode_pixel put2 pixels ch px_end px_pos s2).
Proof.
  intros (Ho & Hr & Hi & Hp & Hq). unfold encode_pixel.
  rewrite <- Hr, <- Hi, <- Hp, <- Hq.
  assert (Hc : forall w1 w2, R w1 w2 ->
     R (if e_run s1 >? 0 then put1 w1 (Z.lor QOI_OP_RUN (e_run s1 - 1)) else w1)
       (if e_run s1 >? 0 then put2 w2 (Z.lor QOI_OP_RUN (e_run s1 - 1)) else w2)).
  { intros. destruct (e_run s1 >? 0); auto. }
  repeat match goal with
         | |- context [if ?c then _ else _] =>
             lazymatch c with
             | (e_run s1 >? 0) => fail
             | _ => destruct c
             end
         end;
    (split; [|repeat split]); cbn [e_out]; auto using encode_color_rel.
Qed.

Lemma encode_loop_rel fuel pixels ch px_len px_end : forall px_pos s1 s2,
  enc_rel R s1 s2 ->
  enc_rel R (encode_loop put1 fuel pixels ch px_len px_end px_pos s1)
            (encode_loop put2 fuel pixels ch px_len px_end px_pos s2).
Proof.
  induction fuel as [|fuel IH]; intros px_pos s1 s2 H; cbn [encode_loop]; auto.
  destruct (px_pos <? px_len); auto using encode_pixel_rel.
Qed.

End EncRel.

Lemma byte_histogram_snoc l v :
  byte_histogram (l ++ [v]) =
  set (byte_histogram l) v (u32 (get 0 (byte_histogram l) v + 1)).
Proof. unfold byte_histogram. now rewrite fold_left_app. Qed.

Lemma hist_rel_put h o v :
  hist_rel h o -> hist_rel (qoi_write_8_histo h v) (put_byte o v).
Proof.
  intros (H1 & H2 & H3). unfold qoi_write_8_histo, put_byte, hist_rel.
  cbn [fst snd]. rewrite H1. split; [reflexivity|].
  split; [rewrite length_app; lia|].
  rewrite skipn_app. replace (14 - length (fst o))%nat with O by lia.
  cbn [skipn]. rewrite byte_histogram_snoc, H3. reflexivity.
Qed.

Lemma fold_left_rel {A B} (R : A -> B -> Prop) (f : A -> Z -> A) (g : B -> Z -> B) l :
  (forall a b v, R a b -> R (f a v) (g b v)) ->
  forall a b, R a b -> R (fold_left f l a) (fold_left g l b).
Proof.
  intros H. induction l as [|x l IH]; intros a b Hab; cbn [fold_left]; auto.
Qed.

(** [qoi_huff_encode] runs the base encoder and hands its stream, with
    the histogram of the bytes after the header, to the Huffman stage. *)
Lemma qoi_huff_encode_base QM malloc junk P D S n :
  valid_desc D ->
  qoi_encode QM (Some P) (Some D) true = Some (S, n) ->
  qoi_huff_encode QM malloc junk (Some P) (Some D) true =
  huff_pack malloc junk D (build_table (byte_histogram (skipn 14 S))) S n.
Proof.
  intros Hv Henc.
  destruct (qoi_encode_some _ _ _ _ _ Henc) as [Hargs HQ].
  unfold qoi_encode in Henc. unfold qoi_huff_encode.
  rewrite Hargs, HQ in *. cbn [negb] in *.
  assert (Hcs : Z.land (colorspace D) (Z.lnot QOI_HUFF_ENCODED_BIT) = colorspace D).
  { destruct Hv as (_ & _ & _ & [-> | ->] & _); reflexivity. }
  rewrite Hcs.
  set (o := write_header D (colorspace D)) in *.
  assert (H0 : hist_rel (o, repeat 0 256) o).
  { unfold o. rewrite write_header_bytes. repeat split. cbn. lia. }
  assert (H1 : enc_rel hist_rel (enc_init (o, repeat 0 256)) (enc_init o)).
  { repeat split; auto. }
  unfold encode_pixels in *.
  pose proof (encode_loop_rel hist_rel qoi_write_8_histo put_byte hist_rel_put
                (Z.to_nat (pixel_len D (channels D))) P (channels D)
                (pixel_len D (channels D))
                (pixel_len D (channels D) - channels D) 0 _ _ H1) as (H2 & _).
  pose proof (fold_left_rel hist_rel qoi_write_8_histo put_byte qoi_padding
                hist_rel_put _ _ H2) as (H3 & _ & H4).
  destruct (fold_left qoi_write_8_histo qoi_padding _) as [[bytes p] histo].
  cbn [fst snd] in H3, H4. rewrite <- H3 in Henc. injection Henc as <- <-.
  rewrite H4, <- H3. reflexivity.
Qed.

Lemma expected_size_some table : forall acc,
  Forall (fun e => table_len e <= 32) table ->
  expected_size table acc =
  Some (fold_left (fun acc e => u32 (acc + u32 (table_count e * table_len e))) table acc).
Proof.
  induction table as [|e t IH]; intros acc H; cbn [expected_size fold_left]; auto.
  inversion H; subst. unfold QOI_HUFF_MAX_BIT_NUM.
  replace (table_len e >? 32) with false by (symmetry; rewrite Z.gtb_ltb; apply Z.ltb_ge; lia).
  apply IH. assumption.
Qed.

Lemma expected_size_none table : forall acc,
  Exists (fun e => table_len e > 32) table -> expected_size table acc = None.
Proof.
  induction table as [|e t IH]; intros acc H; [inversion H|].
  cbn [expected_size]. unfold QOI_HUFF_MAX_BIT_NUM.
  destruct (table_len e >? 32) eqn:E; [reflexivity|].
  inversion H; subst.
  - rewrite Z.gtb_ltb in E. apply Z.ltb_ge in E. lia.
  - now apply IH.
Qed.

Lemma huff_pack_abandon malloc junk D table S n :
  Exists (fun e => table_len e > 32) table \/
  (estimated_size table > 10 * 1024 /\ 100 * estimated_size table > 97 * n) ->
  huff_pack malloc junk D table S n = Some (S, n).
Proof.
  intros H. unfold huff_pack.
  destruct (expected_size table ((1024 + 256) * 8)) as [e|] eqn:E; [|reflexivity].
  destruct H as [H|[H1 H2]].
  - rewrite expected_size_none in E by assumption. discriminate.
  - assert (Hall : Forall (fun e => table_len e <= 32) table).
    { apply Forall_forall. intros x Hx.
      destruct (Z_le_gt_dec (table_len x) 32) as [L|G]; [assumption|].
      rewrite expected_size_none in E; [discriminate|].
      apply Exists_exists. eauto. }
    rewrite expected_size_some in E by assumption. injection E as <-.
    unfold estimated_size in H1, H2. change ((1024 + 256) * 8) with 10240 in *.
    cbv zeta.
    match goal with
    | |- context [?a >? 10 * 1024] =>
        replace (a >? 10 * 1024) with true
          by (symmetry; rewrite Z.gtb_ltb; apply Z.ltb_lt; lia);
        replace (100 * a >? 97 * n) with true
          by (symmetry; rewrite Z.gtb_ltb; apply Z.ltb_lt; lia)
    end.
    reflexivity.
Qed.

Lemma long_code_in_table (l : list encoding_table_t) i :
  table_len (get zero_table l i) > 32 -> In (get zero_table l i) l.
Proof.
  intros Hlen. unfold get in *.
  destruct (Nat.lt_ge_cases (Z.to_nat i) (length l)) as [L|L].
  - now apply nth_In.
  - rewrite nth_overflow in Hlen by assumption. cbn in Hlen. lia.
Qed.



(** ** The min-heap keeps its elements *)

Lemma upd_same {A} (l : list A) k d : upd l k (nth k l d) = l.
Proof.
  revert k; induction l as [|h t IH]; intros [|k]; simpl; auto. now rewrite IH.
Qed.

Lemma upd_comm {A} (l : list A) a b x y :
  a <> b -> upd (upd l a x) b y = upd (upd l b y) a x.
Proof.
  revert a b; induction l as [|h t IH]; intros [|a] [|b] H; simpl; auto; try congruence.
  f_equal. apply IH. congruence.
Qed.

Lemma upd_nth_perm {A} (l : list A) k x d :
  (k < length l)%nat -> Permutation (nth k l d :: upd l k x) (x :: l).
Proof.
  revert k; induction l as [|h t IH]; intros [|k] H; simpl in *; try lia.
  - apply perm_swap.
  - eapply perm_trans; [apply perm_swap|].
    eapply perm_trans; [apply perm_skip, IH; lia|]. apply perm_swap.
Qed.

Lemma swap_perm_lt {A} (l : list A) a b d :
  (a < b)%nat -> (b < length l)%nat ->
  Permutation (upd (upd l a (nth b l d)) b (nth a l d)) l.
Proof.
  revert a b; induction l as [|h t IH]; intros a b Hab Hb; simpl in *; try lia.
  destruct a as [|a], b as [|b]; try lia; simpl.
  - apply upd_nth_perm. lia.
  - apply perm_skip. apply IH; lia.
Qed.

Lemma swap_perm {A} (l : list A) a b d :
  (a < length l)%nat -> (b < length l)%nat ->
  Permutation (upd (upd l a (nth b l d)) b (nth a l d)) l.
Proof.
  intros Ha Hb. destruct (Nat.lt_total a b) as [L|[E|L]].
  - now apply swap_perm_lt.
  - subst. rewrite upd_same.
    replace (upd l b (nth b l d)) with l by (symmetry; apply upd_same). reflexivity.
  - rewrite upd_comm by lia. now apply swap_perm_lt.
Qed.

Lemma firstn_upd {A} (l : list A) n k x :
  (k < n)%nat -> firstn n (upd l k x) = upd (firstn n l) k x.
Proof.
  revert n k; induction l as [|h t IH]; intros [|n] [|k] H; simpl; try lia; auto.
  f_equal. apply IH. lia.
Qed.

Lemma firstn_upd_ge {A} (l : list A) n k x :
  (n <= k)%nat -> firstn n (upd l k x) = firstn n l.
Proof.
  revert n k; induction l as [|h t IH]; intros [|n] [|k] H; simpl; try lia; auto.
  f_equal. apply IH. lia.
Qed.

Lemma nth_firstn_lt {A} (l : list A) n k d :
  (k < n)%nat -> nth k (firstn n l) d = nth k l d.
Proof.
  intros H. rewrite nth_firstn. now rewrite (proj2 (Nat.ltb_lt _ _) H).
Qed.

Lemma swap_min_heap_length heap a b : length (swap_min_heap heap a b) = length heap.
Proof. unfold swap_min_heap. now rewrite !length_set. Qed.

Lemma swap_min_heap_items heap n a b :
  0 <= a < n -> 0 <= b < n -> n <= Z.of_nat (length heap) ->
  Permutation (heap_items (swap_min_heap heap a b) n) (heap_items heap n).
Proof.
  intros Ha Hb Hn. unfold heap_items, swap_min_heap, set, get.
  rewrite !firstn_upd by lia.
  rewrite <- (nth_firstn_lt heap (Z.to_nat n) (Z.to_nat a) 0) by lia.
  rewrite <- (nth_firstn_lt heap (Z.to_nat n) (Z.to_nat b) 0) by lia.
  apply swap_perm; rewrite length_firstn; lia.
Qed.

Lemma heapify_up_spec fuel : forall heap tree idx n,
  0 <= idx < n -> n <= Z.of_nat (length heap) ->
  length (heapify_up fuel heap tree idx) = length heap /\
  Permutation (heap_items (heapify_up fuel heap tree idx) n) (heap_items heap n).
Proof.
  induction fuel as [|fuel IH]; intros heap tree idx n Hi Hn; cbn [heapify_up]; auto.
  destruct (idx =? 0) eqn:E0; auto.
  apply Z.eqb_neq in E0.
  destruct (_ <? _); auto.
  assert (Hu : 0 <= (idx - 1) / 2 < idx).
  { split; [apply Z.div_pos; lia | apply Z.div_lt_upper_bound; lia]. }
  destruct (IH (swap_min_heap heap idx ((idx - 1) / 2)) tree ((idx - 1) / 2) n)
    as [L P]; try lia.
  { rewrite swap_min_heap_length. lia. }
  rewrite swap_min_heap_length in L. split; [assumption|].
  eapply perm_trans; [exact P|]. apply swap_min_heap_items; lia.
Qed.

Lemma heap_items_snoc heap n item :
  0 <= n < Z.of_nat (length heap) ->
  heap_items (set heap n item) (n + 1) = heap_items heap n ++ [item].
Proof.
  intros Hn. unfold heap_items, set.
  replace (Z.to_nat (n + 1)) with (S (Z.to_nat n)) by lia.
  assert (H : (Z.to_nat n < length heap)%nat) by lia.
  revert H. generalize (Z.to_nat n). clear.
  induction heap as [|h t IH]; intros [|k] H; simpl in *; try lia; auto.
  f_equal. apply IH. lia.
Qed.

Lemma insert_min_heap_spec heap n tree item :
  0 <= n < Z.of_nat (length heap) ->
  length (fst (insert_min_heap heap n tree item)) = length heap /\
  snd (insert_min_heap heap n tree item) = n + 1 /\
  Permutation (heap_items (fst (insert_min_heap heap n tree item)) (n + 1))
              (item :: heap_items heap n).
Proof.
  intros Hn. unfold insert_min_heap. cbn [fst snd].
  destruct (heapify_up_spec (Z.to_nat n) (set heap n item) tree n (n + 1))
    as [L P]; try lia.
  { rewrite length_set. lia. }
  rewrite length_set in L. split; [assumption|]. split; [reflexivity|].
  eapply perm_trans; [exact P|].
  rewrite heap_items_snoc by lia. apply Permutation_sym, Permutation_cons_append.
Qed.

Lemma heapify_down_spec fuel : forall heap n tree idx,
  0 <= idx -> n <= Z.of_nat (length heap) ->
  length (heapify_down fuel heap n tree idx) = length heap /\
  Permutation (heap_items (heapify_down fuel heap n tree idx) n) (heap_items heap n).
Proof.
  induction fuel as [|fuel IH]; intros heap n tree idx Hi Hn; cbn [heapify_down]; auto.
  cbv zeta.
  destruct (idx * 2 + 1 <? n) eqn:E1; auto. apply Z.ltb_lt in E1.
  destruct ((idx + 1) * 2 <? n) eqn:E2.
  - apply Z.ltb_lt in E2.
    destruct ((heap_count heap tree idx <? heap_count heap tree (idx * 2 + 1)) &&
              (heap_count heap tree idx <? heap_count heap tree ((idx + 1) * 2))); auto.
    destruct (heap_count heap tree ((idx + 1) * 2) <? heap_count heap tree (idx * 2 + 1)).
    + destruct (IH (swap_min_heap heap ((idx + 1) * 2) idx) n tree ((idx + 1) * 2))
        as [L P]; try lia.
      { rewrite swap_min_heap_length. lia. }
      rewrite swap_min_heap_length in L. split; [assumption|].
      eapply perm_trans; [exact P|]. apply swap_min_heap_items; lia.
    + destruct (IH (swap_min_heap heap (idx * 2 + 1) idx) n tree (idx * 2 + 1))
        as [L P]; try lia.
      { rewrite swap_min_heap_length. lia. }
      rewrite swap_min_heap_length in L. split; [assumption|].
      eapply perm_trans; [exact P|]. apply swap_min_heap_items; lia.
  - destruct (heap_count heap tree (idx * 2 + 1) <? heap_count heap tree idx); auto.
    split; [apply swap_min_heap_length|]. apply swap_min_heap_items; lia.
Qed.

Lemma firstn_snoc {A} (l : list A) k d :
  (k < length l)%nat -> firstn (S k) l = firstn k l ++ [nth k l d].
Proof.
  revert k; induction l as [|h t IH]; intros [|k] H; simpl in *; try lia; auto.
  f_equal. apply IH. lia.
Qed.

Lemma pop_perm {A} (l : list A) k d :
  (k < length l)%nat ->
  Permutation (nth 0 l d :: firstn k (upd l 0 (nth k l d))) (firstn (S k) l).
Proof.
  intros H. destruct l as [|h t]; [simpl in H; lia|].
  destruct k as [|k]; [reflexivity|].
  cbn [nth upd]. rewrite !firstn_cons. apply perm_skip.
  simpl in H. rewrite (firstn_snoc t k d) by lia.
  apply Permutation_cons_append.
Qed.

Lemma heap_items_pop heap n :
  1 <= n <= Z.of_nat (length heap) ->
  Permutation (get 0 heap 0 :: heap_items (set heap 0 (get 0 heap (n - 1))) (n - 1))
              (heap_items heap n).
Proof.
  intros Hn. unfold heap_items, set, get.
  replace (Z.to_nat n) with (S (Z.to_nat (n - 1))) by lia.
  change (Z.to_nat 0) with O. apply pop_perm. lia.
Qed.

Lemma pop_min_heap_spec heap n tree :
  1 <= n <= Z.of_nat (length heap) ->
  let '(item, heap', n') := pop_min_heap heap n tree in
  length heap' = length heap /\ n' = n - 1 /\
  Permutation (item :: heap_items heap' (n - 1)) (heap_items heap n).
Proof.
  intros Hn. unfold pop_min_heap.
  destruct (n - 1 =? 0) eqn:E.
  - apply Z.eqb_eq in E. split; [reflexivity|]. split; [reflexivity|].
    assert (n = 1) by lia. subst n. unfold heap_items, get. simpl.
    destruct heap; simpl in *; [lia|]. reflexivity.
  - apply Z.eqb_neq in E.
    destruct (heapify_down_spec (Z.to_nat (n - 1)) (set heap 0 (get 0 heap (n - 1)))
                                (n - 1) tree 0) as [L P]; try lia.
    { rewrite length_set. lia. }
    rewrite length_set in L. split; [assumption|]. split; [reflexivity|].
    eapply perm_trans; [apply perm_skip; exact P|]. apply heap_items_pop. lia.
Qed.

(** ** The Huffman builder *)

Lemma shape_set tree next x n t :
  0 <= next -> shape tree next n t -> shape (set tree next x) (next + 1) n t.
Proof.
  intros Hn H. induction H as [s Hs | n l r Hr Hl IHl Hrr IHr].
  - now constructor.
  - constructor; [lia| |]; rewrite get_set_other by lia; assumption.
Qed.

Lemma shape_node_range tree next n t : shape tree next n t -> 0 <= n.
Proof. intros H. destruct H; lia. Qed.

Lemma map_seq_from {A} (f : nat -> A) m : forall n,
  map f (seq n m) = map (fun i => f (n + i)%nat) (seq 0 m).
Proof.
  induction m as [|m IH]; intros n; [reflexivity|].
  cbn [seq map]. f_equal; [f_equal; lia|].
  rewrite <- (seq_shift m 0), map_map, (IH (S n)).
  apply map_ext. intros i. f_equal. lia.
Qed.

Lemma zrange_app lo n m :
  zrange lo (n + m) = zrange lo n ++ zrange (lo + Z.of_nat n) m.
Proof.
  unfold zrange. rewrite seq_app, map_app. f_equal.
  cbn [Nat.add]. rewrite map_seq_from. apply map_ext. intros i. lia.
Qed.

Lemma init_leaves_spec n : forall i histo tree heap,
  0 <= i -> i + Z.of_nat n <= Z.of_nat (length heap) ->
  let '(tree', heap', hs') := init_leaves n i histo tree heap i in
  length heap' = length heap /\ length tree' = length tree /\
  hs' = i + Z.of_nat n /\
  Permutation (heap_items heap' hs') (zrange i n ++ heap_items heap i).
Proof.
  induction n as [|n IH]; intros i histo tree heap Hi Hlen; cbn [init_leaves].
  - split; [reflexivity|]. split; [reflexivity|]. split; [lia|]. reflexivity.
  - destruct (insert_min_heap_spec heap i (set tree i (mk_tree (get 0 histo i) (-1) (-1))) i
                ltac:(lia)) as (L & Hs & P).
    destruct (insert_min_heap heap i _ i) as [heap1 hs1]. cbn [fst snd] in *. subst hs1.
    specialize (IH (i + 1) histo (set tree i (mk_tree (get 0 histo i) (-1) (-1))) heap1
                   ltac:(lia) ltac:(lia)).
    destruct (init_leaves n (i + 1) histo _ heap1 (i + 1)) as [[tree' heap'] hs'].
    destruct IH as (L' & T' & Hs' & P').
    split; [lia|]. split; [now rewrite T', length_set|]. split; [lia|].
    eapply perm_trans; [exact P'|].
    change (zrange i (S n)) with (zrange i (1 + n)). rewrite zrange_app.
    change (zrange i 1) with [i + 0]. rewrite Z.add_0_r. cbn [Z.of_nat app].
    change (Z.pos (Pos.of_succ_nat 0)) with 1.
    eapply perm_trans; [apply Permutation_app_head; exact P|].
    apply Permutation_sym, Permutation_middle.
Qed.

Lemma merge_nodes_spec fuel : forall tree heap n next,
  forest_inv tree heap n next -> (Z.to_nat n <= S fuel)%nat ->
  let '(tree', heap', n') := merge_nodes fuel tree heap n next in
  n' = 1 /\ forest_inv tree' heap' 1 511.
Proof.
  induction fuel as [|fuel IH]; intros tree heap n next Hinv Hf.
  - cbn [merge_nodes]. destruct Hinv as (Lh & Lt & Hn & Hnext & Hts).
    assert (n = 1) by lia. subst n. replace next with 511 in * by lia.
    split; [reflexivity|]. repeat split; auto; lia.
  - cbn [merge_nodes]. destruct (n >? 1) eqn:E.
    + rewrite Z.gtb_ltb in E. apply Z.ltb_lt in E.
      destruct Hinv as (Lh & Lt & Hn & Hnext & ts & Hts & Hleaves).
      pose proof (pop_min_heap_spec heap n tree ltac:(lia)) as P1.
      destruct (pop_min_heap heap n tree) as [[l heap1] n1].
      destruct P1 as (L1 & -> & P1).
      pose proof (pop_min_heap_spec heap1 (n - 1) tree ltac:(lia)) as P2.
      destruct (pop_min_heap heap1 (n - 1) tree) as [[r heap2] n2].
      destruct P2 as (L2 & -> & P2).
      set (tree1 := set tree next _).
      destruct (insert_min_heap_spec heap2 (n - 1 - 1) tree1 next ltac:(lia))
        as (L3 & Hs3 & P3).
      destruct (insert_min_heap heap2 (n - 1 - 1) tree1 next) as [heap3 n3].
      cbn [fst snd] in *. subst n3.
      apply IH; [|lia].
      assert (Perm : Permutation (heap_items heap n) (l :: r :: heap_items heap2 (n - 1 - 1))).
      { eapply perm_trans; [apply Permutation_sym; exact P1|].
        apply perm_skip. apply Permutation_sym. exact P2. }
      destruct (Permutation_Forall2 Perm Hts) as (ts' & Pts & Hts').
      inversion Hts' as [|? tl ? ts1 Hl Hts1]; subst.
      inversion Hts1 as [|? tr ? ts2 Hr Hts2]; subst.
      assert (Hnext0 : 0 <= 512 - n) by lia.
      assert (Hnew : Forall2 (shape tree1 (512 - n + 1))
                             (512 - n :: heap_items heap2 (n - 1 - 1)) (BN tl tr :: ts2)).
      { constructor.
        - constructor; [pose proof (shape_node_range _ _ _ _ Hl); lia| |];
            unfold tree1; rewrite get_set_same by lia; cbn [tree_left tree_right];
            apply shape_set; assumption.
        - clear - Hts2 Hnext0. induction Hts2; constructor; auto.
          apply shape_set; assumption. }
      destruct (Permutation_Forall2 (Permutation_sym P3) Hnew) as (ts3 & Pts3 & Hts3).
      split; [lia|]. split; [unfold tree1; now rewrite length_set|].
      split; [lia|]. split; [lia|].
      exists ts3. split; [exact Hts3|].
      eapply perm_trans; [apply Permutation_flat_map, Permutation_sym; exact Pts3|].
      eapply perm_trans; [|exact Hleaves].
      eapply perm_trans; [|apply Permutation_flat_map, Permutation_sym; exact Pts].
      cbn [flat_map leaves]. now rewrite <- app_assoc.
    + rewrite Z.gtb_ltb in E. apply Z.ltb_ge in E.
      destruct Hinv as (Lh & Lt & Hn & Hnext & Hts).
      assert (n = 1) by lia. subst n. replace next with 511 in * by lia.
      split; [reflexivity|]. repeat split; auto; lia.
Qed.

(** ** From the tree to the code table *)

Lemma path_in t p s : path t p s -> In s (leaves t).
Proof.
  induction 1; cbn [leaves]; [now left| |]; apply in_or_app; auto.
Qed.

Lemma in_path t s : In s (leaves t) -> exists p, path t p s.
Proof.
  induction t as [s'|l IHl r IHr]; cbn [leaves]; intros H.
  - destruct H as [<-|[]]. exists []. constructor.
  - apply in_app_or in H as [H|H].
    + destruct (IHl H) as [p Hp]. exists (false :: p). now constructor.
    + destruct (IHr H) as [p Hp]. exists (true :: p). now constructor.
Qed.

Lemma path_height t p s : path t p s -> (length p <= bheight t)%nat.
Proof. induction 1; cbn [length bheight]; lia. Qed.

Lemma leaves_nonempty t : (1 <= length (leaves t))%nat.
Proof.
  induction t; cbn [leaves length]; [lia|]. rewrite length_app. lia.
Qed.

Lemma height_lt_leaves t : (bheight t < length (leaves t))%nat.
Proof.
  induction t as [s|l IHl r IHr]; cbn [leaves bheight length]; [lia|].
  rewrite length_app.
  pose proof (leaves_nonempty l). pose proof (leaves_nonempty r). lia.
Qed.

(** No code word is the beginning of another. *)
Lemma path_prefix_free t p q s s' :
  path t p s -> path t (p ++ q) s' -> q = [] /\ s = s'.
Proof.
  intros H. revert q s'. induction H; intros q s' H'; cbn [app] in H';
    inversion H'; subst; auto.
Qed.

Lemma NoDup_app_disjoint {A} (l1 l2 : list A) a :
  NoDup (l1 ++ l2) -> In a l1 -> In a l2 -> False.
Proof.
  induction l1 as [|x l1 IH]; cbn [app]; intros Hnd H1 H2; [contradiction|].
  inversion Hnd as [|? ? Hx Hnd']; subst. destruct H1 as [->|H1].
  - apply Hx. apply in_or_app. now right.
  - now apply IH.
Qed.

Lemma NoDup_zrange lo n : NoDup (zrange lo n).
Proof.
  unfold zrange. generalize (seq_NoDup n 0). generalize (seq 0 n).
  intros l Hl. induction Hl as [|x l Hx Hl IH]; cbn [map]; constructor; auto.
  rewrite in_map_iff. intros (y & E & Hy). assert (y = x) by lia. now subst.
Qed.

Lemma path_unique t p p' s :
  NoDup (leaves t) -> path t p s -> path t p' s -> p = p'.
Proof.
  intros Hnd H. revert p'. induction H as [s|l r p s H IH|l r p s H IH];
    intros p' H'; inversion H' as [|? ? q ? K|? ? q ? K]; subst; auto;
    cbn [leaves] in Hnd.
  - f_equal. apply IH; [|assumption]. now apply NoDup_app_remove_r in Hnd.
  - exfalso. apply path_in in H, K. eapply NoDup_app_disjoint; eassumption.
  - exfalso. apply path_in in H, K. eapply NoDup_app_disjoint; eassumption.
  - f_equal. apply IH; [|assumption]. now apply NoDup_app_remove_l in Hnd.
Qed.

Lemma shape_leaves_range tree next n t s :
  shape tree next n t -> In s (leaves t) -> 0 <= s < 256.
Proof.
  induction 1; cbn [leaves]; intros Hin.
  - destruct Hin as [<-|[]]. assumption.
  - apply in_app_or in Hin as [Hin|Hin]; auto.
Qed.

Lemma make_encoded_word_spec tree next t : forall fuel node table bits len,
  shape tree next node t -> (bheight t < fuel)%nat ->
  NoDup (leaves t) -> length table = 256%nat ->
  let table' := make_encoded_word fuel tree table node bits len in
  length table' = 256%nat /\
  (forall s, 0 <= s -> ~ In s (leaves t) ->
     get zero_table table' s = get zero_table table s) /\
  (forall p s, path t p s ->
     get zero_table table' s =
     mk_table (tree_count (get zero_tree tree s)) (code_bits p bits len) (code_len p len)).
Proof.
  induction t as [s|l IHl r IHr]; intros fuel node table bits len Hs Hf Hnd Hlen;
    inversion Hs as [? Hrange|? ? ? Hrange Hl Hr]; subst;
    destruct fuel as [|fuel]; cbn [bheight] in Hf; try lia;
    cbn [make_encoded_word]; cbv zeta.
  - replace (s <? 256) with true by (symmetry; apply Z.ltb_lt; lia).
    split; [now rewrite length_set|]. split.
    + intros s' Hpos Hs'. cbn [leaves] in Hs'.
      apply get_set_other; try lia. intros ->. apply Hs'. now left.
    + intros p s' Hp. inversion Hp; subst. cbn [code_bits code_len].
      apply get_set_same. lia.
  - replace (node <? 256) with false by (symmetry; apply Z.ltb_ge; lia).
    cbn [leaves] in Hnd.
    pose proof (NoDup_app_remove_r _ _ Hnd) as Hndl.
    pose proof (NoDup_app_remove_l _ _ Hnd) as Hndr.
    pose proof (fun a => NoDup_app_disjoint _ _ a Hnd) as Hdisj.
    destruct (IHl fuel _ table bits (u8 (len + 1)) Hl ltac:(lia) Hndl Hlen)
      as (L1 & O1 & P1).
    destruct (IHr fuel _ (make_encoded_word fuel tree table
                             (tree_left (get zero_tree tree node)) bits (u8 (len + 1)))
                  (u32 (Z.lor bits (Z.shiftl 1 len))) (u8 (len + 1)) Hr ltac:(lia) Hndr L1)
      as (L2 & O2 & P2).
    split; [assumption|]. split.
    + intros s Hpos Hs'. cbn [leaves] in Hs'. rewrite O2, O1; auto.
      all: intros C; apply Hs'; apply in_or_app; auto.
    + intros p s Hp. inversion Hp as [|? ? q ? K|? ? q ? K]; subst;
        cbn [code_bits code_len].
      * rewrite O2; [now apply P1| |].
        -- apply path_in in K. eapply shape_leaves_range in K; [|exact Hl]. lia.
        -- intros C. eapply Hdisj; [eapply path_in; eassumption | exact C].
      * now apply P2.
Qed.

Lemma code_len_small p : forall len,
  0 <= len -> len + Z.of_nat (length p) <= 255 ->
  code_len p len = len + Z.of_nat (length p).
Proof.
  induction p as [|b p IH]; intros len H0 H; cbn [code_len length] in *; [lia|].
  unfold u8. rewrite Z.mod_small by lia. rewrite IH; lia.
Qed.

(** The code table: every symbol sits at a leaf of one tree with 256
    leaves; its entry holds the length of the way to it and the bits
    accumulated along the way. *)
Lemma build_table_spec histo :
  exists T,
    Permutation (leaves T) (zrange 0 256) /\
    length (build_table histo) = 256%nat /\
    forall p s, path T p s ->
      table_bits (get zero_table (build_table histo) s) = code_bits p 0 0 /\
      table_len (get zero_table (build_table histo) s) = Z.of_nat (length p).
Proof.
  unfold build_table.
  pose proof (init_leaves_spec 256 0 histo (repeat zero_tree 512) (repeat 65535 256)
                ltac:(lia) ltac:(rewrite repeat_length; lia)) as H1.
  destruct (init_leaves 256 0 histo _ _ 0) as [[tree1 heap1] n1].
  destruct H1 as (Lh1 & Lt1 & -> & P1).
  rewrite repeat_length in Lh1, Lt1. cbn [heap_items Z.to_nat firstn] in P1.
  rewrite app_nil_r in P1. change (0 + Z.of_nat 256) with 256 in *.
  assert (Hinv : forest_inv tree1 heap1 256 256).
  { split; [assumption|]. split; [assumption|]. split; [lia|]. split; [lia|].
    exists (map BL (heap_items heap1 256)). split.
    - assert (Hr : Forall (fun s => 0 <= s < 256) (heap_items heap1 256)).
      { apply Forall_forall. intros s Hs.
        apply (Permutation_in _ P1) in Hs. unfold zrange in Hs.
        apply in_map_iff in Hs as (i & <- & Hi). apply in_seq in Hi. lia. }
      clear P1. induction Hr; cbn [map]; constructor; auto. now constructor.
    - rewrite flat_map_concat_map, map_map. cbn [leaves].
      rewrite <- flat_map_concat_map.
      replace (flat_map (fun x => [x]) (heap_items heap1 256)) with (heap_items heap1 256);
        [assumption|].
      generalize (heap_items heap1 256). intros l. induction l; cbn; congruence. }
  pose proof (merge_nodes_spec 256 tree1 heap1 256 256 Hinv ltac:(lia)) as H2.
  destruct (merge_nodes 256 tree1 heap1 256 256) as [[tree2 heap2] n2].
  destruct H2 as (-> & Lh2 & Lt2 & _ & _ & ts & Hts & Hleaves).
  pose proof (pop_min_heap_spec heap2 1 tree2 ltac:(lia)) as H3.
  destruct (pop_min_heap heap2 1 tree2) as [[root heap3] n3].
  destruct H3 as (_ & _ & P3).
  change (heap_items heap3 (1 - 1)) with (@nil Z) in P3.
  assert (Hroot : heap_items heap2 1 = [root]).
  { apply Permutation_length_1_inv in P3. exact P3. }
  rewrite Hroot in Hts.
  inversion Hts as [|? T ? ts' HT Hnil]; subst. inversion Hnil; subst.
  cbn [flat_map] in Hleaves. rewrite app_nil_r in Hleaves.
  assert (Hnd : NoDup (leaves T)).
  { apply (Permutation_NoDup (Permutation_sym Hleaves)). apply NoDup_zrange. }
  assert (Hh : (bheight T < 256)%nat).
  { pose proof (height_lt_leaves T) as Hlt.
    rewrite (Permutation_length Hleaves) in Hlt. unfold zrange in Hlt.
    rewrite length_map, length_seq in Hlt. exact Hlt. }
  destruct (make_encoded_word_spec tree2 511 T 512 root (repeat zero_table 256) 0 0
              HT ltac:(lia) Hnd (repeat_length _ _)) as (L & _ & Hp).
  exists T. split; [assumption|]. split; [assumption|].
  intros p s Hps. rewrite (Hp p s Hps). cbn [table_bits table_len].
  split; [reflexivity|].
  pose proof (path_height _ _ _ Hps). rewrite code_len_small; lia.
Qed.

(** ** The codebook *)

Lemma write_code_app o e :
  write_code o e = (fst o ++ code_entry e, snd o + Z.of_nat (length (code_entry e))).
Proof.
  unfold code_entry, write_code.
  destruct (table_len e >? 24); [|destruct (table_len e >? 16)];
    rewrite ?qoi_write_32_bytes, ?qoi_write_24_bytes, ?qoi_write_16_bytes;
    unfold put_byte; cbn [fst snd app length]; rewrite <- app_assoc;
    cbn [app]; f_equal; lia.
Qed.

Lemma code_entry_bytes e :
  code_entry e =
  u8 (table_len e) ::
  (if table_len e >? 24 then
     [(table_bits e / 2 ^ 24) mod 256; (table_bits e / 2 ^ 16) mod 256;
      (table_bits e / 2 ^ 8) mod 256; table_bits e mod 256]
   else if table_len e >? 16 then
     [(table_bits e / 2 ^ 16) mod 256; (table_bits e / 2 ^ 8) mod 256;
      table_bits e mod 256]
   else [(table_bits e / 2 ^ 8) mod 256; table_bits e mod 256]).
Proof.
  unfold code_entry, write_code.
  destruct (table_len e >? 24); [|destruct (table_len e >? 16)];
    rewrite ?qoi_write_32_bytes, ?qoi_write_24_bytes, ?qoi_write_16_bytes;
    reflexivity.
Qed.

Lemma fold_write_code table : forall o,
  fold_left write_code table o =
  (fst o ++ flat_map code_entry table,
   snd o + Z.of_nat (length (flat_map code_entry table))).
Proof.
  induction table as [|e t IH]; intros o; cbn [fold_left flat_map].
  - rewrite app_nil_r. cbn [length]. rewrite Z.add_0_r. now destruct o.
  - rewrite IH, write_code_app. cbn [fst snd]. rewrite <- app_assoc.
    f_equal. rewrite length_app. lia.
Qed.

Lemma expected_size_some_inv table : forall acc e,
  expected_size table acc = Some e -> Forall (fun x => table_len x <= 32) table.
Proof.
  induction table as [|x t IH]; intros acc e H; [constructor|].
  cbn [expected_size] in H. unfold QOI_HUFF_MAX_BIT_NUM in H.
  destruct (table_len x >? 32) eqn:E; [discriminate|].
  rewrite Z.gtb_ltb in E. apply Z.ltb_ge in E.
  constructor; [assumption|]. eapply IH; eassumption.
Qed.

Lemma in_zrange lo n x : In x (zrange lo n) <-> lo <= x < lo + Z.of_nat n.
Proof.
  unfold zrange. rewrite in_map_iff. split.
  - intros (i & <- & Hi). apply in_seq in Hi. lia.
  - intros H. exists (Z.to_nat (x - lo)). split; [lia|]. apply in_seq. lia.
Qed.

(** Every symbol has a code word of at least one bit. *)
Lemma build_table_len_pos histo s :
  0 <= s < 256 -> 1 <= table_len (get zero_table (build_table histo) s) <= 255.
Proof.
  intros Hs. destruct (build_table_spec histo) as (T & HT & _ & Hp).
  assert (Hin : In s (leaves T)).
  { apply (Permutation_in _ (Permutation_sym HT)). apply in_zrange. lia. }
  destruct (in_path _ _ Hin) as (p & Hps).
  destruct (Hp p s Hps) as (_ & ->).
  pose proof (path_height _ _ _ Hps) as Hh.
  pose proof (height_lt_leaves T) as Hl.
  rewrite (Permutation_length HT) in Hl. unfold zrange in Hl.
  rewrite length_map, length_seq in Hl.
  inversion Hps; subst; cbn [length] in *; try lia.
  cbn [leaves] in HT. apply Permutation_length in HT.
  unfold zrange in HT. rewrite length_map, length_seq in HT. simpl in HT. lia.
Qed.

Lemma codebook_entries_of_table QM malloc junk P D S n H m table :
  table = build_table (byte_histogram (skipn 14 S)) ->
  valid_desc D ->
  qoi_encode QM (Some P) (Some D) true = Some (S, n) ->
  qoi_huff_encode QM malloc junk (Some P) (Some D) true = Some (H, m) ->
  H <> S ->
  (exists rest,
     H = header_bytes D (Z.lor (colorspace D) QOI_HUFF_ENCODED_BIT)
         ++ flat_map code_entry table ++ rest) /\
  length table = 256%nat /\
  forall s, 0 <= s < 256 ->
    1 <= table_len (get zero_table table s) <= 32 /\
    hd 0 (code_entry (get zero_table table s)) = table_len (get zero_table table s) /\
    length (code_entry (get zero_table table s)) =
      (if table_len (get zero_table table s) >? 24 then 5
       else if table_len (get zero_table table s) >? 16 then 4 else 3)%nat.
Proof.
  intros Htab Hv Henc Hhuff Hne.
  rewrite (qoi_huff_encode_base QM malloc junk P D S n Hv Henc), <- Htab in Hhuff.
  unfold huff_pack in Hhuff.
  destruct (expected_size table ((1024 + 256) * 8)) as [e|] eqn:E;
    [|injection Hhuff as <- <-; contradiction].
  match type of Hhuff with
  | (if ?c then _ else _) = _ =>
      destruct c; [injection Hhuff as <- <-; contradiction|]
  end.
  match type of Hhuff with
  | (if ?c then _ else _) = _ => destruct c; [discriminate Hhuff|]
  end.
  rewrite fold_write_code, write_header_bytes in Hhuff. cbn [fst snd] in Hhuff.
  destruct (fold_left (pack_symbol table) _ _) as [[done cur] bitIdx].
  injection Hhuff as <- <-.
  pose proof (expected_size_some_inv _ _ _ E) as Hall.
  destruct (build_table_spec (byte_histogram (skipn 14 S))) as (_ & _ & Hlen & _).
  rewrite <- Htab in Hlen.
  split; [|split; [assumption|]].
  - eexists. rewrite <- ?app_assoc. reflexivity.
  - intros s Hs.
    pose proof (build_table_len_pos (byte_histogram (skipn 14 S)) s Hs) as Hpos.
    rewrite <- Htab in Hpos.
    assert (Hle : table_len (get zero_table table s) <= 32).
    { rewrite Forall_forall in Hall. apply Hall. unfold get. apply nth_In. lia. }
    split; [lia|]. rewrite code_entry_bytes. cbn [hd]. split.
    + apply u8_byte. unfold is_byte. lia.
    + destruct (table_len (get zero_table table s) >? 24);
        [|destruct (table_len (get zero_table table s) >? 16)]; reflexivity.
Qed.


Lemma spread_desc_valid : valid_desc spread_desc.
Proof.
  unfold valid_desc, spread_desc; cbn [width height channels colorspace].
  repeat split; try lia; auto.
Defined.

Lemma spread_base_eq :
  qoi_encode (fun _ => true) (Some spread_image) (Some spread_desc) true =
  Some (fst spread_base, snd spread_base).
Proof. vm_compute. reflexivity. Defined.

Lemma spread_huff_eq :
  qoi_huff_encode (fun _ => true) (fun _ => true) (fun _ => 0)
                  (Some spread_image) (Some spread_desc) true =
  Some (fst spread_huff, snd spread_huff).
Proof. vm_compute. reflexivity. Defined.

Lemma spread_huff_differs : fst spread_huff <> fst spread_base.
Proof.
  intros C. apply (f_equal (fun l => nth 13 l 0)) in C. vm_compute in C. discriminate C.
Defined.



(** ** Further properties of the base codec *)

Lemma holds_end l t : holds (l ++ t) (Z.of_nat (length l)) t.
Proof.
  pose proof (holds_app l t []) as H. now rewrite app_nil_r in H.
Qed.

Lemma div_mod_pow v a b :
  0 <= a <= b -> (v mod 2 ^ b / 2 ^ a) mod 256 = (v / 2 ^ a) mod 256 \/ b < a + 8.
Proof.
  intros H. destruct (Z_lt_ge_dec b (a + 8)) as [L|L]; [now right|left].
  change 256 with (2 ^ 8).
  rewrite <- !Z.shiftr_div_pow2, <- !Z.land_ones by lia.
  apply Z.bits_inj'. intros n Hn.
  rewrite !Z.land_spec, !Z.shiftr_spec, Z.land_spec by lia.
  destruct (Z.lt_ge_cases n 8) as [L8|L8].
  - rewrite (Z.ones_spec_low b (n + a)) by lia. now rewrite andb_true_r.
  - rewrite (Z.ones_spec_high 8 n) by lia. now rewrite !andb_false_r.
Qed.

Lemma holds_get F p l j : holds F p l -> (j < length l)%nat ->
  get 0 F (p + Z.of_nat j) = nth j l 0.
Proof. intros H. apply H. Qed.

(** X1. A value stored by [qoi_write_32], [qoi_write_24] or [qoi_write_16]
    at the end of a buffer is read back by the reader of the same width from
    that offset, cut to the width, and both cursors end at the same place. *)
Theorem qoi_read_written l v :
  let p := Z.of_nat (length l) in
  qoi_read_32 (fst (qoi_write_32 (l, p) v)) p =
    (v mod 2 ^ 32, snd (qoi_write_32 (l, p) v)) /\
  qoi_read_24 (fst (qoi_write_24 (l, p) v)) p =
    (v mod 2 ^ 24, snd (qoi_write_24 (l, p) v)) /\
  qoi_read_16 (fst (qoi_write_16 (l, p) v)) p =
    (v mod 2 ^ 16, snd (qoi_write_16 (l, p) v)).
Proof.
  intros p. split; [|split].
  - rewrite qoi_write_32_bytes. cbn [fst snd].
    apply qoi_read_32_written; [apply Z.mod_pos_bound; lia|].
    destruct (div_mod_pow v 24 32) as [-> |]; [lia| |lia].
    destruct (div_mod_pow v 16 32) as [-> |]; [lia| |lia].
    destruct (div_mod_pow v 8 32) as [-> |]; [lia| |lia].
    replace ((v mod 2 ^ 32) mod 256) with (v mod 256).
    + apply holds_end.
    + symmetry. apply Z.mod_mod_divide. exists (2 ^ 24). reflexivity.
  - rewrite qoi_write_24_bytes. cbn [fst snd].
    pose proof (holds_end l [(v / 2 ^ 16) mod 256; (v / 2 ^ 8) mod 256; v mod 256]) as H.
    fold p in H. unfold qoi_read_24.
    pose proof (H 0%nat ltac:(simpl; lia)) as H0.
    pose proof (H 1%nat ltac:(simpl; lia)) as H1.
    pose proof (H 2%nat ltac:(simpl; lia)) as H2.
    cbn [nth] in H0, H1, H2. rewrite Z.add_0_r in H0.
    change (Z.of_nat 1) with 1 in H1. change (Z.of_nat 2) with 2 in H2.
    rewrite H0, H1, H2.
    rewrite be24_value by apply mod_byte. f_equal.
    change (2 ^ 16) with 65536. change (2 ^ 8) with 256. change (2 ^ 24) with 16777216.
    Z.div_mod_to_equations. lia.
  - rewrite qoi_write_16_bytes. cbn [fst snd].
    pose proof (holds_end l [(v / 2 ^ 8) mod 256; v mod 256]) as H.
    fold p in H. unfold qoi_read_16.
    pose proof (H 0%nat ltac:(simpl; lia)) as H0.
    pose proof (H 1%nat ltac:(simpl; lia)) as H1.
    cbn [nth] in H0, H1. rewrite Z.add_0_r in H0.
    change (Z.of_nat 1) with 1 in H1.
    rewrite H0, H1.
    rewrite be16_value by apply mod_byte. f_equal.
    change (2 ^ 16) with 65536. change (2 ^ 8) with 256.
    Z.div_mod_to_equations. lia.
Qed.

Lemma byte_field_raw M k v :
  0 <= k -> Z.shiftr M k = 255 ->
  Z.shiftr (Z.land M v) k = (v / 2 ^ k) mod 256.
Proof.
  intros Hk HM. rewrite Z.shiftr_land, HM, Z.land_comm.
  change 255 with (Z.ones 8). rewrite Z.land_ones by lia.
  now rewrite Z.shiftr_div_pow2 by lia.
Qed.

Lemma byte_field0_raw v : Z.land 0xff v = v mod 256.
Proof.
  rewrite Z.land_comm. change 0xff with (Z.ones 8). now rewrite Z.land_ones by lia.
Qed.

Lemma u8_mod_byte v : u8 (v mod 256) = v mod 256.
Proof. unfold u8. apply Z.mod_mod. lia. Qed.

(** X2. [qoi_write_32_histo] stores the same four bytes as [qoi_write_32]
    and counts each of them in the histogram: it is four calls of
    [qoi_write_8_histo], most significant byte first. *)
Theorem qoi_write_32_histo_bytes o v :
  qoi_write_32_histo o v =
    fold_left qoi_write_8_histo
      [(v / 2 ^ 24) mod 256; (v / 2 ^ 16) mod 256; (v / 2 ^ 8) mod 256; v mod 256] o /\
  fst (qoi_write_32_histo o v) = qoi_write_32 (fst o) v.
Proof.
  split; [|reflexivity].
  unfold qoi_write_32_histo, qoi_write_8_histo. cbn [fold_left fst snd].
  rewrite !byte_field_raw by (reflexivity || lia). rewrite byte_field0_raw.
  unfold put_byte. cbn [fst snd]. rewrite !u8_mod_byte. reflexivity.
Qed.

Lemma firstn_agree n b1 b2 :
  0 < n ->
  firstn (Z.to_nat n) b1 = firstn (Z.to_nat n) b2 -> agree_below n b1 b2.
Proof.
  intros Hn H i Hi. unfold get.
  rewrite <- (nth_firstn_lt b1 (Z.to_nat n)), <- (nth_firstn_lt b2 (Z.to_nat n)) by lia.
  now rewrite H.
Qed.

Lemma decode_pixel_agree b1 b2 cl ch st :
  agree_below (cl + 4) b1 b2 ->
  decode_pixel b1 cl ch st = decode_pixel b2 cl ch st.
Proof.
  intros H. unfold decode_pixel.
  destruct (d_run st >? 0); [reflexivity|].
  destruct (d_p st <? cl) eqn:E; [|reflexivity].
  apply Z.ltb_lt in E.
  unfold next_byte, decode_chunk.
  rewrite (H (d_p st)) by lia.
  rewrite (H (d_p st + 1)), (H (d_p st + 1 + 1)), (H (d_p st + 1 + 1 + 1)),
    (H (d_p st + 1 + 1 + 1 + 1)) by lia.
  reflexivity.
Qed.

Lemma decode_loop_agree b1 b2 cl ch px_len fuel : forall px_pos st,
  agree_below (cl + 4) b1 b2 ->
  decode_loop fuel b1 cl ch px_len px_pos st =
  decode_loop fuel b2 cl ch px_len px_pos st.
Proof.
  induction fuel as [|fuel IH]; intros px_pos st H; cbn [decode_loop]; [reflexivity|].
  destruct (px_pos <? px_len); [|reflexivity].
  rewrite (decode_pixel_agree b1 b2) by assumption. now apply IH.
Qed.

Lemma read_header_agree b1 b2 n :
  14 <= n -> agree_below n b1 b2 -> read_header b1 = read_header b2.
Proof.
  intros Hn H. unfold read_header, qoi_read_32, next_byte.
  rewrite !(H 0), !(H (0 + 1)), !(H (0 + 2)), !(H (0 + 3)), !(H (0 + 4)),
    !(H (0 + 4 + 1)), !(H (0 + 4 + 2)), !(H (0 + 4 + 3)), !(H (0 + 4 + 4)),
    !(H (0 + 4 + 4 + 1)), !(H (0 + 4 + 4 + 2)), !(H (0 + 4 + 4 + 3)),
    !(H (0 + 4 + 4 + 4)), !(H (0 + 4 + 4 + 4 + 1)) by lia.
  reflexivity.
Qed.

(** X3. [qoi_decode] never looks at a byte at offset [size] or beyond: two
    inputs that agree on their first [size] bytes give the same pixels and
    the same descriptor.  (The four bytes a chunk may take after its tag
    stay inside the eight bytes of padding.) *)
Theorem qoi_decode_reads_below_size QM b1 b2 size desc req :
  firstn (Z.to_nat size) b1 = firstn (Z.to_nat size) b2 ->
  qoi_decode QM (Some b1) size desc req = qoi_decode QM (Some b2) size desc req.
Proof.
  intros H.
  unfold qoi_decode. destruct desc as [d0|]; [|reflexivity].
  destruct (decode_args_invalid size req) eqn:Ea; [reflexivity|].
  assert (Hs : 22 <= size).
  { unfold decode_args_invalid in Ea. apply orb_false_elim in Ea as [_ Ea].
    apply Z.ltb_ge in Ea. exact Ea. }
  apply firstn_agree in H; [|lia].
  rewrite (read_header_agree b1 b2 size) by (assumption || lia).
  destruct (read_header b2) as [[magic d] p].
  destruct (header_invalid magic d); [reflexivity|]. cbv zeta.
  destruct (negb _); [reflexivity|].
  rewrite (decode_loop_agree b1 b2); [reflexivity|].
  intros i Hi. apply H. unfold sizeof_qoi_padding in Hi. lia.
Qed.

Lemma qoi_decode_reads_below_size_witness :
  qoi_decode (fun _ => true) (Some (sample_stream ++ [1; 2; 3])) 29
             (Some (mk_desc 0 0 0 0)) 0 =
  qoi_decode (fun _ => true) (Some (sample_stream ++ [77]))
             29 (Some (mk_desc 0 0 0 0)) 0.
Proof.
  apply (qoi_decode_reads_below_size (fun _ => true) (sample_stream ++ [1; 2; 3])
           (sample_stream ++ [77]) 29 (Some (mk_desc 0 0 0 0)) 0).
  vm_compute. reflexivity.
Defined.

Lemma header_valid_dims magic d :
  0 <= width d -> 0 <= height d ->
  header_invalid magic d = false ->
  valid_desc (mk_desc (width d) (height d) (channels d) 0) /\ magic = QOI_MAGIC.
Proof.
  intros Hw Hh H. unfold header_invalid in H.
  repeat (apply orb_false_elim in H as [H ?]).
  split.
  - apply args_valid_desc; cbn [width height channels colorspace]; try lia.
    unfold encode_args_invalid. cbn [width height channels colorspace].
    repeat (apply orb_false_intro); auto.
  - match goal with E : negb _ = false |- _ =>
      apply negb_false_iff in E; now apply Z.eqb_eq in E end.
Qed.

Lemma out_channels_cases size req d :
  decode_args_invalid size req = false ->
  channels d = 3 \/ channels d = 4 ->
  out_channels d req = 3 \/ out_channels d req = 4.
Proof.
  intros Hargs Hc. unfold out_channels. unfold decode_args_invalid in Hargs.
  apply orb_false_elim in Hargs as [Hargs _].
  destruct (req =? 0) eqn:E0; [assumption|]. cbn [negb andb] in Hargs.
  destruct (req =? 3) eqn:E3; [apply Z.eqb_eq in E3; auto|].
  destruct (req =? 4) eqn:E4; [apply Z.eqb_eq in E4; auto|discriminate].
Qed.

(** [qoi_decode] on an input that passes every check, as a run of the
    pixel loop. *)
Lemma qoi_decode_run QM bytes size d0 req magic d p :
  decode_args_invalid size req = false ->
  read_header bytes = (magic, d, p) ->
  header_invalid magic d = false ->
  QM (pixel_len d (out_channels d req)) = true ->
  qoi_decode QM (Some bytes) size (Some d0) req =
    (Some (d_pixels (dec_n bytes (size - 8) (out_channels d req)
                           (Z.to_nat (width d * height d))
                           (mk_dec 14 0 zero_index start_px []))), Some d) /\
  1 <= width d * height d < 400000000 /\
  (out_channels d req = 3 \/ out_channels d req = 4).
Proof.
  intros Hargs Hhdr Hval HQ.
  destruct (read_header_u32 _ _ _ _ Hhdr) as (Hw & Hh & -> & Hc & Hs).
  destruct (header_valid_dims magic d) as [Hv _]; [lia|lia|assumption|].
  pose proof (valid_desc_pixels _ Hv) as Hwh. unfold QOI_PIXELS_MAX in Hwh.
  cbn [width height] in Hwh.
  assert (Hch : out_channels d req = 3 \/ out_channels d req = 4).
  { apply (out_channels_cases size); [assumption|]. now destruct Hv as (_ & _ & Hc' & _). }
  assert (Hpl : pixel_len d (out_channels d req) =
                width d * height d * out_channels d req).
  { change (pixel_len d (out_channels d req)) with
      (pixel_len (mk_desc (width d) (height d) (channels d) 0) (out_channels d req)).
    rewrite pixel_len_valid by (auto; lia). reflexivity. }
  split; [|split; assumption].
  unfold qoi_decode. rewrite Hargs, Hhdr, Hval.
  cbv zeta. change (if req =? 0 then channels d else req) with (out_channels d req).
  rewrite HQ. cbn [negb]. rewrite Hpl.
  rewrite (decode_loop_dec_n _ _ _ _ _ _ _ (Z.to_nat (width d * height d))) by nia.
  reflexivity.
Qed.

Lemma qoi_decode_some_inv QM bytes size d0 req pixels dd :
  qoi_decode QM (Some bytes) size (Some d0) req = (Some pixels, dd) ->
  exists magic d p,
    decode_args_invalid size req = false /\
    read_header bytes = (magic, d, p) /\
    header_invalid magic d = false /\
    QM (pixel_len d (out_channels d req)) = true.
Proof.
  unfold qoi_decode. intros H.
  destruct (decode_args_invalid size req) eqn:Ea; [discriminate|].
  destruct (read_header bytes) as [[magic d] p] eqn:Er.
  destruct (header_invalid magic d) eqn:Ev; [discriminate|].
  cbv zeta in H.
  change (if req =? 0 then channels d else req) with (out_channels d req) in H.
  destruct (QM (pixel_len d (out_channels d req))) eqn:Em; [|discriminate].
  exists magic, d, p. repeat split; assumption.
Qed.

Lemma drop_alpha_app k : forall l l',
  length l = (4 * k)%nat -> drop_alpha (l ++ l') = drop_alpha l ++ drop_alpha l'.
Proof.
  induction k as [|k IH]; intros l l' H.
  - destruct l; [reflexivity|discriminate].
  - destruct l as [|a [|b [|c [|e l]]]]; simpl in H; try lia.
    cbn [app drop_alpha]. rewrite IH by lia. reflexivity.
Qed.

Lemma dec_n_channels bytes cl n : forall s3 s4 k,
  d_p s3 = d_p s4 -> d_run s3 = d_run s4 -> d_index s3 = d_index s4 ->
  d_px s3 = d_px s4 ->
  length (d_pixels s4) = (4 * k)%nat ->
  d_pixels s3 = drop_alpha (d_pixels s4) ->
  d_pixels (dec_n bytes cl 3 n s3) = drop_alpha (d_pixels (dec_n bytes cl 4 n s4)).
Proof.
  induction n as [|n IH]; intros s3 s4 k Hp Hr Hi Hx Hl Hd; cbn [dec_n]; [assumption|].
  apply (IH _ _ (S k)).
  1-4: unfold decode_pixel; rewrite Hp, Hr, Hi, Hx;
    destruct (d_run s4 >? 0); [reflexivity|];
    destruct (d_p s4 <? cl); [|reflexivity];
    destruct (next_byte bytes (d_p s4)) as [b1 p'];
    destruct (decode_chunk (next_byte bytes) b1 p' (d_run s4) (d_index s4) (d_px s4))
      as [[[? ?] ?] ?]; reflexivity.
  - unfold decode_pixel.
    destruct (if d_run s4 >? 0 then _ else _) as [[[? ?] ?] ?].
    cbn [d_pixels]. rewrite length_app, Hl. cbn. lia.
  - unfold decode_pixel. rewrite Hp, Hr, Hi, Hx.
    destruct (if d_run s4 >? 0 then _ else _) as [[[? ?] ?] px].
    cbn [d_pixels]. rewrite (drop_alpha_app k) by assumption.
    rewrite Hd. reflexivity.
Qed.

(** X4. The chunk parser does not depend on the requested channel count:
    whenever [qoi_decode] succeeds on the same input with [channels = 4]
    and with [channels = 3], the RGB buffer is the RGBA buffer with every
    fourth byte (alpha) left out, and the descriptors are the same. *)
Theorem qoi_decode_rgb_is_rgba_without_alpha QM3 QM4 bytes size d0 p3 p4 dd3 dd4 :
  qoi_decode QM4 (Some bytes) size (Some d0) 4 = (Some p4, dd4) ->
  qoi_decode QM3 (Some bytes) size (Some d0) 3 = (Some p3, dd3) ->
  p3 = drop_alpha p4 /\ dd3 = dd4.
Proof.
  intros H4 H3.
  destruct (qoi_decode_some_inv _ _ _ _ _ _ _ H4) as (m4 & d4 & q4 & A4 & R4 & V4 & M4).
  destruct (qoi_decode_some_inv _ _ _ _ _ _ _ H3) as (m3 & d3 & q3 & A3 & R3 & V3 & M3).
  rewrite R4 in R3. injection R3 as <- <- <-.
  destruct (qoi_decode_run _ _ _ d0 _ _ _ _ A4 R4 V4 M4) as (E4 & _ & _).
  destruct (qoi_decode_run _ _ _ d0 _ _ _ _ A3 R4 V3 M3) as (E3 & _ & _).
  rewrite E4 in H4. rewrite E3 in H3.
  injection H4 as <- <-. injection H3 as <- <-.
  split; [|reflexivity].
  change (out_channels d4 3) with 3. change (out_channels d4 4) with 4.
  apply (dec_n_channels _ _ _ _ _ 0%nat); reflexivity.
Qed.

Lemma qoi_decode_rgb_is_rgba_without_alpha_witness :
  [0; 0; 0; 10; 20; 30; 11; 21; 31] =
    drop_alpha [0; 0; 0; 255; 10; 20; 30; 40; 11; 21; 31; 40] /\
  Some sample_desc = Some sample_desc.
Proof.
  apply (qoi_decode_rgb_is_rgba_without_alpha (fun _ => true) (fun _ => true)
           sample_stream 29 (mk_desc 0 0 0 0)).
  - vm_compute. reflexivity.
  - vm_compute. reflexivity.
Defined.

Lemma unflagged_colorspace cs :
  0 <= cs < 128 ->
  Z.land cs QOI_HUFF_ENCODED_BIT = 0 /\
  u8 (Z.land cs (Z.lnot QOI_HUFF_ENCODED_BIT)) = cs.
Proof.
  intros H.
  pose proof (zrange_forallb
    (fun cs => (Z.land cs QOI_HUFF_ENCODED_BIT =? 0) &&
               (u8 (Z.land cs (Z.lnot QOI_HUFF_ENCODED_BIT)) =? cs)) 0 128
    ltac:(vm_compute; reflexivity) cs ltac:(lia)) as E.
  apply andb_true_iff in E as [E1 E2]. split; now apply Z.eqb_eq.
Qed.

(** Without the flag, [qoi_huff_decode] runs the checks and the loop of
    [qoi_decode]. *)
Lemma huff_decode_unflagged QM pixels0 bytes size desc req :
  0 <= get 0 bytes 13 < 128 ->
  qoi_huff_decode QM pixels0 (Some bytes) size desc req =
  qoi_decode QM (Some bytes) size desc req.
Proof.
  intros Hcs. unfold qoi_huff_decode, qoi_decode.
  destruct desc as [d0|]; [|reflexivity].
  destruct (decode_args_invalid size req); [reflexivity|].
  destruct (read_header bytes) as [[magic d] p] eqn:Hhdr.
  destruct (read_header_u32 _ _ _ _ Hhdr) as (_ & _ & _ & _ & Hs).
  rewrite <- Hs in Hcs. destruct (unflagged_colorspace _ Hcs) as [E1 E2].
  cbv zeta. rewrite E1, E2.
  replace (mk_desc (width d) (height d) (channels d) (colorspace d)) with d
    by (now destruct d).
  destruct (header_invalid magic d); [reflexivity|].
  destruct (negb _); reflexivity.
Qed.

(** X5. On a stream whose colorspace byte has the Huffman flag clear,
    [qoi_huff_decode] is [qoi_decode]: same checks, same pixels, same
    descriptor, for every input.  [qoi_decode_buffer] is the pixel loop of
    [qoi_decode]. *)
Theorem qoi_huff_decode_plain QM pixels0 bytes size desc req :
  0 <= get 0 bytes 13 < 128 ->
  qoi_huff_decode QM pixels0 (Some bytes) size desc req =
  qoi_decode QM (Some bytes) size desc req.
Proof. exact (huff_decode_unflagged QM pixels0 bytes size desc req). Qed.

Lemma qoi_huff_decode_plain_witness :
  qoi_huff_decode (fun _ => true) [] (Some sample_stream) 29 (Some (mk_desc 0 0 0 0)) 4 =
  qoi_decode (fun _ => true) (Some sample_stream) 29 (Some (mk_desc 0 0 0 0)) 4.
Proof.
  apply (qoi_huff_decode_plain (fun _ => true) [] sample_stream 29
                               (Some (mk_desc 0 0 0 0)) 4).
  change (0 <= 0 < 128). lia.
Defined.

Lemma read_code_cursor bytes size tabs p s tabs' p' :
  read_code bytes size (tabs, p) s = Some (tabs', p') -> p + 3 <= p' <= size.
Proof.
  unfold read_code. destruct tabs as [[table tree] nf].
  destruct (p >=? size); [discriminate|].
  unfold next_byte, qoi_read_32, qoi_read_24, qoi_read_16.
  set (len := get 0 bytes p).
  destruct (len >? 24).
  - destruct (p + 1 + 4 >? size) eqn:E; [discriminate|].
    rewrite Z.gtb_ltb in E. apply Z.ltb_ge in E.
    destruct (len <=? _).
    + intros H. injection H as _ <-. lia.
    + destruct (if _ =? 0 then _ else _) as [[[? ?] ?] ?].
      destruct (grow_tree _ _ _ _ _ _ _). intros H. injection H as _ <-. lia.
  - destruct (len >? 16).
    + destruct (p + 1 + 3 >? size) eqn:E; [discriminate|].
      rewrite Z.gtb_ltb in E. apply Z.ltb_ge in E.
      destruct (len <=? _).
      * intros H. injection H as _ <-. lia.
      * destruct (if _ =? 0 then _ else _) as [[[? ?] ?] ?].
        destruct (grow_tree _ _ _ _ _ _ _). intros H. injection H as _ <-. lia.
    + destruct (p + 1 + 2 >? size) eqn:E; [discriminate|].
      rewrite Z.gtb_ltb in E. apply Z.ltb_ge in E.
      destruct (len <=? _).
      * intros H. injection H as _ <-. lia.
      * destruct (if _ =? 0 then _ else _) as [[[? ?] ?] ?].
        destruct (grow_tree _ _ _ _ _ _ _). intros H. injection H as _ <-. lia.
Qed.

Lemma read_codebook_cursor bytes size n : forall s tabs p tabs' p',
  read_codebook n s bytes size (tabs, p) = Some (tabs', p') ->
  p + 3 * Z.of_nat n <= p' /\ (p' = p \/ p' <= size).
Proof.
  induction n as [|n IH]; intros s tabs p tabs' p' H; cbn [read_codebook] in H.
  - injection H as _ <-. lia.
  - destruct (read_code bytes size (tabs, p) s) as [[tabs1 p1]|] eqn:E; [|discriminate].
    apply read_code_cursor in E. apply IH in H as [H1 H2]. lia.
Qed.



(** ** The heap order *)

Lemma get_swap heap a b i :
  0 <= a < Z.of_nat (length heap) -> 0 <= b < Z.of_nat (length heap) -> 0 <= i ->
  get 0 (swap_min_heap heap a b) i =
  if i =? b then get 0 heap a else if i =? a then get 0 heap b else get 0 heap i.
Proof.
  intros Ha Hb Hi. unfold swap_min_heap.
  destruct (i =? b) eqn:Eb.
  - apply Z.eqb_eq in Eb. subst. rewrite get_set_same; [reflexivity|].
    rewrite length_set. lia.
  - apply Z.eqb_neq in Eb. rewrite get_set_other by lia.
    destruct (i =? a) eqn:Ea.
    + apply Z.eqb_eq in Ea. subst. now rewrite get_set_same.
    + apply Z.eqb_neq in Ea. now rewrite get_set_other by lia.
Qed.

Lemma heap_count_swap heap tree a b i :
  0 <= a < Z.of_nat (length heap) -> 0 <= b < Z.of_nat (length heap) -> 0 <= i ->
  heap_count (swap_min_heap heap a b) tree i =
  if i =? b then heap_count heap tree a
  else if i =? a then heap_count heap tree b else heap_count heap tree i.
Proof.
  intros Ha Hb Hi. unfold heap_count. rewrite get_swap by assumption.
  destruct (i =? b); [reflexivity|]. destruct (i =? a); reflexivity.
Qed.

Lemma parent_bounds i : 0 < i -> 0 <= (i - 1) / 2 < i.
Proof.
  intros H. split; [apply Z.div_pos; lia | apply Z.div_lt_upper_bound; lia].
Qed.

Lemma parent_children i p : (i - 1) / 2 = p <-> i = 2 * p + 1 \/ i = 2 * p + 2.
Proof.
  split; intros H.
  - pose proof (Z.div_mod (i - 1) 2 ltac:(lia)) as E.
    pose proof (Z.mod_pos_bound (i - 1) 2 ltac:(lia)) as B. lia.
  - destruct H as [-> | ->].
    + replace (2 * p + 1 - 1) with (p * 2) by lia. apply Z.div_mul. lia.
    + replace (2 * p + 2 - 1) with (1 + p * 2) by lia.
      rewrite Z.div_add by lia. reflexivity.
Qed.

Ltac swap_counts :=
  repeat match goal with
  | |- context [heap_count (swap_min_heap ?h ?a ?b) ?t ?i] =>
      rewrite (heap_count_swap h t a b i) by lia
  end;
  repeat match goal with
  | |- context [?x =? ?y] =>
      let E := fresh "E" in
      destruct (x =? y) eqn:E;
      [apply Z.eqb_eq in E | apply Z.eqb_neq in E]
  end.

Lemma heapify_up_ok tree n fuel : forall heap idx,
  idx <= Z.of_nat fuel -> 0 <= idx < n -> n <= Z.of_nat (length heap) ->
  up_inv heap tree n idx ->
  heap_ok (heapify_up fuel heap tree idx) tree n.
Proof.
  induction fuel as [|fuel IH]; intros heap idx Hf Hi Hn [U1 U2]; cbn [heapify_up].
  - intros i Hi'. apply U1; lia.
  - destruct (idx =? 0) eqn:E0.
    { apply Z.eqb_eq in E0. intros i Hi'. apply U1; lia. }
    apply Z.eqb_neq in E0.
    pose proof (parent_bounds idx ltac:(lia)) as Hu.
    destruct (_ <? _) eqn:Ec.
    + apply Z.ltb_lt in Ec. intros i Hi'.
      destruct (Z.eq_dec i idx) as [-> |Hne]; [lia|]. now apply U1.
    + apply Z.ltb_ge in Ec.
      apply IH; try lia; [now rewrite swap_min_heap_length|].
      set (up := (idx - 1) / 2) in *.
      split.
      * intros i Hi' Hne.
        pose proof (parent_bounds i ltac:(lia)) as Hp.
        destruct (Z.eq_dec i idx) as [-> |Hni].
        { fold up. swap_counts; try lia. }
        destruct (Z.eq_dec ((i - 1) / 2) idx) as [Ep|Ep].
        { specialize (U2 ltac:(lia) i Hi' Ep). fold up in U2.
          rewrite Ep. swap_counts; try lia. }
        destruct (Z.eq_dec ((i - 1) / 2) up) as [Eu|Eu].
        { specialize (U1 i Hi' Hni). rewrite Eu in *.
          swap_counts; try lia. }
        specialize (U1 i Hi' Hni).
        swap_counts; try lia.
      * intros Hup i Hi' Ep.
        pose proof (parent_bounds up ltac:(lia)) as Hpu.
        pose proof (parent_bounds i ltac:(lia)) as Hp.
        pose proof (U1 up ltac:(lia) ltac:(lia)) as Uu.
        destruct (Z.eq_dec i idx) as [-> |Hni].
        { swap_counts; try lia. }
        specialize (U1 i Hi' Hni). rewrite Ep in U1.
        swap_counts; try lia.
Qed.

Lemma heapify_down_ok tree n fuel : forall heap idx,
  n <= Z.of_nat fuel + idx -> 0 <= idx -> n <= Z.of_nat (length heap) ->
  down_inv heap tree n idx ->
  heap_ok (heapify_down fuel heap n tree idx) tree n.
Proof.
  induction fuel as [|fuel IH]; intros heap idx Hf Hi Hn [D1 D2]; cbn [heapify_down].
  - intros i Hi'. apply D1; [lia|]. pose proof (parent_bounds i ltac:(lia)). lia.
  - cbv zeta.
    destruct (idx * 2 + 1 <? n) eqn:E1.
    2:{ apply Z.ltb_ge in E1. intros i Hi'. apply D1; [lia|].
        intros Ep. apply parent_children in Ep. lia. }
    apply Z.ltb_lt in E1.
    destruct ((idx + 1) * 2 <? n) eqn:E2.
    + apply Z.ltb_lt in E2.
      destruct ((heap_count heap tree idx <? heap_count heap tree (idx * 2 + 1)) &&
                (heap_count heap tree idx <? heap_count heap tree ((idx + 1) * 2)))
        eqn:Es.
      * apply andb_true_iff in Es as [Es1 Es2].
        apply Z.ltb_lt in Es1. apply Z.ltb_lt in Es2.
        intros i Hi'.
        destruct (Z.eq_dec ((i - 1) / 2) idx) as [Ep|Ep]; [|now apply D1].
        rewrite Ep. apply parent_children in Ep.
        destruct Ep as [-> | ->].
        -- replace (2 * idx + 1) with (idx * 2 + 1) by lia. lia.
        -- replace (2 * idx + 2) with ((idx + 1) * 2) by lia. lia.
      * assert (Hor : heap_count heap tree (idx * 2 + 1) <= heap_count heap tree idx \/
                      heap_count heap tree ((idx + 1) * 2) <= heap_count heap tree idx).
        { apply andb_false_iff in Es as [Es|Es]; apply Z.ltb_ge in Es; auto. }
        clear Es.
        destruct (heap_count heap tree ((idx + 1) * 2) <? heap_count heap tree (idx * 2 + 1))
          eqn:Ec.
        -- apply Z.ltb_lt in Ec.
           apply IH; try lia; [now rewrite swap_min_heap_length|].
           split.
           ++ intros i Hi' Hne.
              pose proof (parent_bounds i ltac:(lia)) as Hp.
              destruct (Z.eq_dec ((i - 1) / 2) idx) as [Ep|Ep].
              { rewrite Ep. apply parent_children in Ep.
                destruct Ep as [-> | ->].
                - replace (2 * idx + 1) with (idx * 2 + 1) by lia.
                  swap_counts; try lia.
                - replace (2 * idx + 2) with ((idx + 1) * 2) by lia.
                  swap_counts; try lia. }
              destruct (Z.eq_dec i idx) as [-> |Hni].
              { specialize (D2 ltac:(lia) ((idx + 1) * 2) ltac:(lia)
                              ltac:(apply parent_children; lia)).
                swap_counts; try lia. }
              specialize (D1 i Hi' Ep).
              assert (i <> (idx + 1) * 2).
              { intros ->. apply Ep. apply parent_children. lia. }
              swap_counts; try lia.
           ++ intros _ i Hi' Ep.
              assert (Er : ((idx + 1) * 2 - 1) / 2 = idx) by (apply parent_children; lia).
              rewrite Er.
              pose proof (D1 i Hi' ltac:(lia)) as Di. rewrite Ep in Di.
              assert (i <> idx) by (apply parent_children in Ep; lia).
              assert (i <> (idx + 1) * 2) by (apply parent_children in Ep; lia).
              swap_counts; try lia.
        -- apply Z.ltb_ge in Ec.
           apply IH; try lia; [now rewrite swap_min_heap_length|].
           split.
           ++ intros i Hi' Hne.
              pose proof (parent_bounds i ltac:(lia)) as Hp.
              destruct (Z.eq_dec ((i - 1) / 2) idx) as [Ep|Ep].
              { rewrite Ep. apply parent_children in Ep.
                destruct Ep as [-> | ->].
                - replace (2 * idx + 1) with (idx * 2 + 1) by lia.
                  swap_counts; try lia.
                - replace (2 * idx + 2) with ((idx + 1) * 2) by lia.
                  swap_counts; try lia. }
              destruct (Z.eq_dec i idx) as [-> |Hni].
              { specialize (D2 ltac:(lia) (idx * 2 + 1) ltac:(lia)
                              ltac:(apply parent_children; lia)).
                swap_counts; try lia. }
              specialize (D1 i Hi' Ep).
              assert (i <> idx * 2 + 1).
              { intros ->. apply Ep. apply parent_children. lia. }
              swap_counts; try lia.
           ++ intros _ i Hi' Ep.
              assert (Er : (idx * 2 + 1 - 1) / 2 = idx) by (apply parent_children; lia).
              rewrite Er.
              pose proof (D1 i Hi' ltac:(lia)) as Di. rewrite Ep in Di.
              assert (i <> idx) by (apply parent_children in Ep; lia).
              assert (i <> idx * 2 + 1) by (apply parent_children in Ep; lia).
              swap_counts; try lia.
    + apply Z.ltb_ge in E2.
      destruct (heap_count heap tree (idx * 2 + 1) <? heap_count heap tree idx) eqn:Ec.
      * apply Z.ltb_lt in Ec. intros i Hi'.
        pose proof (parent_bounds i ltac:(lia)) as Hp.
        destruct (Z.eq_dec ((i - 1) / 2) idx) as [Ep|Ep].
        { rewrite Ep. apply parent_children in Ep.
          assert (i = idx * 2 + 1) by lia. subst i.
          swap_counts; try lia. }
        destruct (Z.eq_dec i idx) as [-> |Hni].
        { specialize (D2 ltac:(lia) (idx * 2 + 1) ltac:(lia)
                        ltac:(apply parent_children; lia)).
          swap_counts; try lia. }
        specialize (D1 i Hi' Ep).
        assert (i <> idx * 2 + 1).
        { intros ->. apply Ep. apply parent_children. lia. }
        assert ((i - 1) / 2 <> idx * 2 + 1).
        { intros Eq. apply parent_children in Eq. lia. }
        swap_counts; try lia.
      * apply Z.ltb_ge in Ec. intros i Hi'.
        destruct (Z.eq_dec ((i - 1) / 2) idx) as [Ep|Ep]; [|now apply D1].
        rewrite Ep. apply parent_children in Ep.
        assert (i = idx * 2 + 1) by lia. subst i. lia.
Qed.

Lemma heap_ok_min heap tree n :
  heap_ok heap tree n ->
  forall i, 0 <= i < n -> heap_count heap tree 0 <= heap_count heap tree i.
Proof.
  intros H i Hi.
  assert (G : forall k : nat, forall i, 0 <= i < n -> i <= Z.of_nat k ->
              heap_count heap tree 0 <= heap_count heap tree i).
  { induction k as [|k IH]; intros j Hj Hk.
    - assert (j = 0) by lia. subst. lia.
    - destruct (Z.eq_dec j 0) as [-> |Hne]; [lia|].
      pose proof (parent_bounds j ltac:(lia)) as Hp.
      specialize (H j ltac:(lia)).
      specialize (IH ((j - 1) / 2) ltac:(lia) ltac:(lia)). lia. }
  apply (G (Z.to_nat i)); lia.
Qed.

Lemma heap_count_set_other heap tree k x i :
  0 <= k -> 0 <= i -> i <> k ->
  heap_count (set heap k x) tree i = heap_count heap tree i.
Proof.
  intros Hk Hi Hne. unfold heap_count. now rewrite get_set_other by lia.
Qed.

Lemma in_heap_items heap n x :
  In x (heap_items heap n) -> n <= Z.of_nat (length heap) ->
  exists i, 0 <= i < n /\ x = get 0 heap i.
Proof.
  intros H Hn. unfold heap_items in H.
  destruct (In_nth _ _ 0 H) as (k & Hk & E).
  rewrite length_firstn in Hk.
  exists (Z.of_nat k). split; [lia|].
  unfold get. rewrite Nat2Z.id. rewrite <- E. apply nth_firstn_lt. lia.
Qed.





(** ** Code words as numbers *)

Lemma bits_val_bound p : 0 <= bits_val p < 2 ^ Z.of_nat (length p).
Proof.
  induction p as [|b p IH]; cbn [bits_val length].
  - cbn. lia.
  - rewrite Nat2Z.inj_succ, Z.pow_succ_r by lia. destruct b; cbn [Z.b2z]; lia.
Qed.

Lemma bits_val_app p q :
  bits_val (p ++ q) = bits_val p + 2 ^ Z.of_nat (length p) * bits_val q.
Proof.
  induction p as [|b p IH]; cbn [app bits_val length].
  - change (2 ^ Z.of_nat 0) with 1. lia.
  - rewrite IH, Nat2Z.inj_succ, Z.pow_succ_r by lia. lia.
Qed.

Lemma bits_val_inj p : forall q,
  length p = length q -> bits_val p = bits_val q -> p = q.
Proof.
  induction p as [|b p IH]; intros [|c q] Hl Hv; cbn [length] in Hl; try discriminate;
    [reflexivity|].
  cbn [bits_val] in Hv.
  assert (b = c) by (destruct b, c; cbn [Z.b2z] in Hv; (reflexivity || lia)).
  subst c. f_equal. apply IH; [lia|]. lia.
Qed.

Lemma bits_val_mod p q :
  bits_val (p ++ q) mod 2 ^ Z.of_nat (length p) = bits_val p.
Proof.
  rewrite bits_val_app, Z.mul_comm, Z.mod_add by lia.
  apply Z.mod_small. apply bits_val_bound.
Qed.

Lemma code_bits_val p : forall bits len,
  0 <= len -> 0 <= bits < 2 ^ len -> len + Z.of_nat (length p) <= 32 ->
  code_bits p bits len = bits + 2 ^ len * bits_val p.
Proof.
  induction p as [|b p IH]; intros bits len Hl Hb Hn; cbn [code_bits bits_val length] in *.
  - lia.
  - assert (Hu : u8 (len + 1) = len + 1) by (unfold u8; apply Z.mod_small; lia).
    rewrite Hu.
    assert (Hp : 2 ^ (len + 1) = 2 * 2 ^ len) by (rewrite Z.pow_add_r by lia; lia).
    assert (Hle : 2 ^ (len + 1) <= 2 ^ 32) by (apply Z.pow_le_mono_r; lia).
    destruct b; cbn [Z.b2z].
    + rewrite Z.shiftl_1_l.
      rewrite Z.lor_comm, (lor_disjoint_add (2 ^ len) bits len);
        [|lia|lia|apply Z.mod_same; lia].
      unfold u32. change 4294967296 with (2 ^ 32).
      rewrite Z.mod_small by lia.
      rewrite IH by lia. rewrite Hp. lia.
    + rewrite IH by lia. rewrite Hp. lia.
Qed.

(** The code of a symbol, for the ways of at most 32 steps. *)
Lemma build_table_codes histo :
  exists T,
    Permutation (leaves T) (zrange 0 256) /\
    length (build_table histo) = 256%nat /\
    forall p s, path T p s ->
      table_len (get zero_table (build_table histo) s) = Z.of_nat (length p) /\
      ((length p <= 32)%nat ->
       table_bits (get zero_table (build_table histo) s) = bits_val p).
Proof.
  destruct (build_table_spec histo) as (T & HT & HL & Hp).
  exists T. split; [assumption|]. split; [assumption|].
  intros p s Hps. destruct (Hp p s Hps) as [Hb Hl]. split; [assumption|].
  intros Hle. rewrite Hb, code_bits_val; [|lia|change (2 ^ 0) with 1; lia|lia].
  change (2 ^ 0) with 1. lia.
Qed.

(** X9. The code table built from any histogram is a prefix code on its
    integer fields: for code words of at most 32 bits, [bits] has no bit at
    or above [len], and the [len] low bits of a code word are never the
    code word of another symbol. *)
Theorem build_table_prefix_free histo s s' :
  0 <= s < 256 -> 0 <= s' < 256 ->
  let e := get zero_table (build_table histo) s in
  let e' := get zero_table (build_table histo) s' in
  table_len e <= table_len e' <= 32 ->
  0 <= table_bits e < 2 ^ table_len e /\
  (table_bits e' mod 2 ^ table_len e = table_bits e -> s = s').
Proof.
  intros Hs Hs' e e' Hle.
  destruct (build_table_codes histo) as (T & HT & _ & Hp).
  assert (Hin : forall x, 0 <= x < 256 -> exists p, path T p x).
  { intros x Hx. apply in_path.
    apply (Permutation_in _ (Permutation_sym HT)). apply in_zrange. lia. }
  destruct (Hin s Hs) as (p & Hps). destruct (Hin s' Hs') as (p' & Hps').
  destruct (Hp p s Hps) as [Hl Hb]. destruct (Hp p' s' Hps') as [Hl' Hb'].
  fold e in Hl, Hb. fold e' in Hl', Hb'.
  rewrite Hb by lia. rewrite Hl. split; [apply bits_val_bound|].
  rewrite Hb' by lia. intros Hm.
  assert (E : exists a b, p' = a ++ b /\ length a = length p).
  { exists (firstn (length p) p'), (skipn (length p) p').
    split; [symmetry; apply firstn_skipn | rewrite length_firstn; lia]. }
  destruct E as (a & b & -> & La).
  rewrite <- La, bits_val_mod in Hm.
  apply bits_val_inj in Hm; [|lia]. subst a.
  destruct (path_prefix_free _ _ _ _ _ Hps Hps') as [_ ?]. assumption.
Qed.

(** ** Ways in the tree and the node arena *)

Lemma path_sub t p s : path t p s <-> sub t p = Some (BL s).
Proof.
  split.
  - induction 1; cbn [sub]; auto.
  - revert t. induction p as [|b p IH]; intros t H; cbn [sub] in H.
    + injection H as ->. constructor.
    + destruct t as [|l r]; [discriminate|].
      destruct b; constructor; now apply IH.
Qed.

Lemma sub_app p : forall t q,
  sub t (p ++ q) = match sub t p with Some t' => sub t' q | None => None end.
Proof.
  induction p as [|b p IH]; intros t q; cbn [app sub]; [reflexivity|].
  destruct t; [reflexivity|]. apply IH.
Qed.

Lemma sub_proper_prefix t p q s :
  path t (p ++ q) s -> q <> [] -> exists l r, sub t p = Some (BN l r).
Proof.
  intros H Hq. apply path_sub in H. rewrite sub_app in H.
  destruct (sub t p) as [[x|l r]|]; [|eauto|discriminate].
  destruct q; [congruence|discriminate].
Qed.

Lemma sub_snoc_inner t p b l r :
  sub t p = Some (BN l r) -> sub t (p ++ [b]) = Some (if b then r else l).
Proof. intros H. rewrite sub_app, H. reflexivity. Qed.

Lemma length_positions t :
  length (positions t) = (2 * length (leaves t) - 1)%nat.
Proof.
  induction t as [s|l IHl r IHr]; cbn [positions leaves length]; [reflexivity|].
  rewrite !length_app, !length_map, IHl, IHr.
  pose proof (leaves_nonempty l). pose proof (leaves_nonempty r). lia.
Qed.

Lemma in_positions t : forall p, sub t p <> None -> In p (positions t).
Proof.
  induction t as [s|l IHl r IHr]; intros p H; cbn [positions].
  - destruct p; [now left|]. cbn [sub] in H. congruence.
  - destruct p as [|b p]; [now left|]. right. cbn [sub] in H.
    apply in_or_app. destruct b.
    + right. apply in_map. now apply IHr.
    + left. apply in_map. now apply IHl.
Qed.

Lemma follow_app tree p : forall r q,
  follow tree r (p ++ q) =
  match follow tree r p with Some x => follow tree x q | None => None end.
Proof.
  induction p as [|b p IH]; intros r q; cbn [app follow]; [reflexivity|].
  destruct (isLeaf _); [reflexivity|].
  destruct (_ || _); [reflexivity|]. apply IH.
Qed.

Lemma extends_refl tree nf : extends tree tree nf.
Proof. intros q Hq. auto. Qed.

Lemma extends_trans t1 t2 t3 n1 n2 :
  n1 <= n2 -> extends t1 t2 n1 -> extends t2 t3 n2 -> extends t1 t3 n1.
Proof.
  intros Hn H12 H23 q Hq.
  destruct (H12 q Hq) as [A1 B1]. destruct (H23 q ltac:(lia)) as [A2 B2].
  split; [congruence|]. intros b Hb.
  rewrite B2 by (rewrite B1; assumption). now apply B1.
Qed.

Lemma follow_extends tree tree' nf bs : forall r q,
  extends tree tree' nf ->
  (forall x b, 0 <= x < nf -> 0 <= child tree x b -> child tree x b < nf) ->
  0 <= r < nf ->
  follow tree r bs = Some q -> follow tree' r bs = Some q /\ 0 <= q < nf.
Proof.
  induction bs as [|b bs IH]; intros r q He Hc Hr H; cbn [follow] in *.
  - injection H as <-. auto.
  - destruct (He r Hr) as [E1 E2]. rewrite E1.
    destruct (isLeaf _); [discriminate|].
    destruct (_ || _) eqn:Eo; [discriminate|].
    apply orb_false_elim in Eo as [Eo1 Eo2].
    apply Z.ltb_ge in Eo1. apply Z.leb_gt in Eo2.
    rewrite (E2 b Eo1).
    rewrite (proj2 (Z.ltb_ge _ _) Eo1), (proj2 (Z.leb_gt _ _) Eo2). cbn [orb].
    apply IH; auto.
Qed.

Lemma get_set_child_other tree cur bit c q :
  0 <= cur -> 0 <= q -> q <> cur ->
  get zero_dnode (set_child tree cur bit c) q = get zero_dnode tree q.
Proof.
  intros Hc Hq Hne. unfold set_child. destruct (bit =? 0); now rewrite get_set_other by lia.
Qed.

Lemma get_set_child_same tree cur (b : bool) c :
  0 <= cur < Z.of_nat (length tree) ->
  get zero_dnode (set_child tree cur (Z.b2z b) c) cur =
  let n := get zero_dnode tree cur in
  if b then mk_dnode (isLeaf n) (leaf_len n) (leaf_byteValue n) (node_left n) c
  else mk_dnode (isLeaf n) (leaf_len n) (leaf_byteValue n) c (node_right n).
Proof.
  intros Hc. unfold set_child. destruct b; cbn [Z.b2z Z.eqb]; now rewrite get_set_same.
Qed.

Lemma length_set_child tree cur bit c :
  length (set_child tree cur bit c) = length tree.
Proof. unfold set_child. destruct (bit =? 0); apply length_set. Qed.

Lemma child_set_child tree cur (b : bool) c q b' :
  0 <= cur < Z.of_nat (length tree) -> 0 <= q ->
  child (set_child tree cur (Z.b2z b) c) q b' =
  if (q =? cur) && Bool.eqb b b' then c else child tree q b'.
Proof.
  intros Hc Hq. unfold child. destruct (q =? cur) eqn:E.
  - apply Z.eqb_eq in E. subst q. rewrite get_set_child_same by assumption.
    destruct b, b'; reflexivity.
  - apply Z.eqb_neq in E. now rewrite get_set_child_other by lia.
Qed.

Lemma isLeaf_set_child tree cur (b : bool) c q :
  0 <= cur < Z.of_nat (length tree) -> 0 <= q ->
  isLeaf (get zero_dnode (set_child tree cur (Z.b2z b) c) q) =
  isLeaf (get zero_dnode tree q).
Proof.
  intros Hc Hq. destruct (Z.eq_dec q cur) as [-> |Hne].
  - rewrite get_set_child_same by assumption. now destruct b.
  - now rewrite get_set_child_other by lia.
Qed.

Lemma bits_val_cons_bit b p :
  Z.land (bits_val (b :: p)) 1 = Z.b2z b /\ Z.shiftr (bits_val (b :: p)) 1 = bits_val p.
Proof.
  cbn [bits_val]. split.
  - change 1 with (Z.ones 1). rewrite Z.land_ones by lia. change (2 ^ 1) with 2.
    rewrite (Z.mul_comm 2), Z.mod_add by lia. now destruct b.
  - rewrite Z.shiftr_div_pow2 by lia. change (2 ^ 1) with 2.
    rewrite (Z.mul_comm 2), Z.div_add by lia. destruct b; cbn [Z.b2z]; 
      [change (1 / 2) with 0|change (0 / 2) with 0]; lia.
Qed.

Lemma lab_set_same lab q p : lab_set lab q p q = p.
Proof. unfold lab_set. now rewrite Z.eqb_refl. Qed.

Lemma lab_set_other lab q p x : x <> q -> lab_set lab q p x = lab x.
Proof. intros H. unfold lab_set. now rewrite (proj2 (Z.eqb_neq _ _) H). Qed.

Lemma labels_count (t : btree) (lab : Z -> list bool) (n : nat) :
  (forall q, (q < n)%nat -> sub t (lab (Z.of_nat q)) <> None) ->
  (forall q q', (q < n)%nat -> (q' < n)%nat ->
     lab (Z.of_nat q) = lab (Z.of_nat q') -> q = q') ->
  (n <= 2 * length (leaves t) - 1)%nat.
Proof.
  intros Hs Hi. rewrite <- length_positions.
  rewrite <- (length_seq n 0) at 1. rewrite <- (length_map (fun q => lab (Z.of_nat q))).
  apply NoDup_incl_length.
  - assert (G : forall l, NoDup l -> (forall q, In q l -> (q < n)%nat) ->
                NoDup (map (fun q => lab (Z.of_nat q)) l)).
    { induction 1 as [|x l Hx Hl IH]; intros Hb; cbn [map]; constructor.
      - intros Hin. apply in_map_iff in Hin as (y & Hy & Hin).
        apply Hi in Hy; [subst; contradiction| |]; apply Hb; simpl; auto.
      - apply IH. intros q Hq. apply Hb. now right. }
    apply G; [apply seq_NoDup|]. intros q Hq. apply in_seq in Hq. lia.
  - intros p Hp. apply in_map_iff in Hp as (q & <- & Hq). apply in_seq in Hq.
    apply in_positions. apply Hs. lia.
Qed.

(** ** One codebook entry and one table lookup *)

Lemma read_code_entry bytes size st p s :
  read_code bytes size (st, p) s =
  match entry_at bytes size p with
  | None => None
  | Some (len, bits, p') => Some (add_code st len bits s, p')
  end.
Proof.
  unfold read_code, entry_at, add_code. destruct st as [[table tree] nf].
  destruct (p >=? size); [reflexivity|].
  unfold next_byte, qoi_read_32, qoi_read_24, qoi_read_16. cbn [fst].
  set (len := get 0 bytes p).
  destruct (len >? 24).
  { destruct (p + 1 + 4 >? size); [reflexivity|].
    destruct (len <=? _); [reflexivity|].
    destruct (_ =? 0); destruct (grow_tree _ _ _ _ _ _ _); reflexivity. }
  destruct (len >? 16).
  { destruct (p + 1 + 3 >? size); [reflexivity|].
    destruct (len <=? _); [reflexivity|].
    destruct (_ =? 0); destruct (grow_tree _ _ _ _ _ _ _); reflexivity. }
  destruct (p + 1 + 2 >? size); [reflexivity|].
  destruct (len <=? _); [reflexivity|].
  destruct (_ =? 0); destruct (grow_tree _ _ _ _ _ _ _); reflexivity.
Qed.

Lemma length_fill_span n : forall i table len bits s,
  length (fill_span n i table len bits s) = length table.
Proof.
  induction n as [|n IH]; intros i table len bits s; cbn [fill_span]; [reflexivity|].
  rewrite IH. apply length_set.
Qed.

Lemma span_index i len bits :
  0 <= i -> 0 <= len -> 0 <= bits < 2 ^ len ->
  Z.lor (Z.shiftl i len) bits = i * 2 ^ len + bits.
Proof.
  intros Hi Hl Hb. rewrite Z.shiftl_mul_pow2 by lia.
  apply (lor_disjoint_add _ _ len); [lia|lia|]. apply Z.mod_mul. lia.
Qed.

Lemma fill_span_get len bits s e n : forall i table v,
  0 <= i -> 0 <= len -> 0 <= bits < 2 ^ len ->
  (i + Z.of_nat n) * 2 ^ len <= Z.of_nat (length table) ->
  0 <= v ->
  e = u16 (Z.lor (Z.shiftl (Z.land len 0x3f) 8) s) ->
  get 0 (fill_span n i table len bits s) v =
  if (v mod 2 ^ len =? bits) && (i <=? v / 2 ^ len) && (v / 2 ^ len <? i + Z.of_nat n)
  then e else get 0 table v.
Proof.
  induction n as [|n IH]; intros i table v Hi Hl Hb Hn Hv He; cbn [fill_span].
  - replace (v / 2 ^ len <? i + Z.of_nat 0) with (v / 2 ^ len <? i) by (f_equal; lia).
    destruct (i <=? v / 2 ^ len) eqn:E1, (v / 2 ^ len <? i) eqn:E2;
      rewrite ?andb_false_r, ?andb_true_r; try reflexivity.
    apply Z.leb_le in E1. apply Z.ltb_lt in E2. lia.
  - assert (Hp : 0 < 2 ^ len) by (apply Z.pow_pos_nonneg; lia).
    rewrite (IH (i + 1)); try lia; try assumption.
    2:{ rewrite length_set. lia. }
    rewrite span_index by lia. rewrite <- He.
    pose proof (Z.div_mod v (2 ^ len) ltac:(lia)) as Ed.
    pose proof (Z.mod_pos_bound v (2 ^ len) Hp) as Bd.
    destruct (v mod 2 ^ len =? bits) eqn:Em; cbn [andb].
    + apply Z.eqb_eq in Em.
      destruct (Z.eq_dec (v / 2 ^ len) i) as [Ei|Ei].
      * assert (v = i * 2 ^ len + bits) by nia. subst v.
        rewrite (proj2 (Z.leb_gt _ _)) by lia. cbn [andb].
        rewrite get_set_same by nia.
        rewrite (proj2 (Z.leb_le _ _)), (proj2 (Z.ltb_lt _ _)) by lia. reflexivity.
      * rewrite get_set_other by nia.
        destruct (i + 1 <=? v / 2 ^ len) eqn:E1, (i <=? v / 2 ^ len) eqn:E2;
          try apply Z.leb_le in E1; try apply Z.leb_le in E2;
          try apply Z.leb_gt in E1; try apply Z.leb_gt in E2; try lia; cbn [andb];
          try reflexivity.
        replace (i + Z.of_nat (S n)) with (i + 1 + Z.of_nat n) by lia. reflexivity.
    + apply Z.eqb_neq in Em. apply get_set_other; [nia|lia|].
      intros E. apply Em. rewrite <- E.
      rewrite Z.add_comm, Z.mod_add by lia. apply Z.mod_small. lia.
Qed.

Lemma term_entry len s :
  0 <= len < 64 -> 0 <= s < 256 ->
  u16 (Z.lor (Z.shiftl (Z.land len 0x3f) 8) s) = len * 256 + s.
Proof.
  intros Hl Hs. change 0x3f with (Z.ones 6). rewrite Z.land_ones by lia.
  change (2 ^ 6) with 64. rewrite Z.mod_small by lia.
  rewrite Z.shiftl_mul_pow2 by lia. change (2 ^ 8) with 256.
  rewrite (lor_disjoint_add _ _ 8); [|lia|change (2 ^ 8) with 256; lia
                                      |change (2 ^ 8) with 256; apply Z.mod_mul; lia].
  unfold u16. apply Z.mod_small. lia.
Qed.

Lemma ptr_entry r :
  0 <= r < 512 ->
  u16 (Z.lor r (Z.shiftl 1 15)) = r + 32768 /\
  Z.land (r + 32768) (Z.lnot (Z.shiftl 1 15)) = r /\
  (Z.land (r + 32768) (Z.shiftl 1 15) =? 0) = false.
Proof.
  intros H.
  pose proof (zrange_forallb
    (fun r => (u16 (Z.lor r (Z.shiftl 1 15)) =? r + 32768) &&
              (Z.land (r + 32768) (Z.lnot (Z.shiftl 1 15)) =? r) &&
              negb (Z.land (r + 32768) (Z.shiftl 1 15) =? 0)) 0 512
    ltac:(vm_compute; reflexivity) r ltac:(lia)) as E.
  apply andb_true_iff in E as [E E3]. apply andb_true_iff in E as [E1 E2].
  apply Z.eqb_eq in E1. apply Z.eqb_eq in E2. apply negb_true_iff in E3. auto.
Qed.

Lemma term_lookup len s :
  0 <= len < 64 -> 0 <= s < 256 ->
  (Z.land (len * 256 + s) (Z.shiftl 1 15) =? 0) = true /\
  Z.land (len * 256 + s) 0xff = s /\ Z.shiftr (len * 256 + s) 8 = len.
Proof.
  intros Hl Hs. split; [|split].
  - apply Z.eqb_eq. apply Z.bits_inj'. intros n Hn.
    rewrite Z.land_spec, Z.bits_0. rewrite Z.shiftl_1_l.
    destruct (Z.eq_dec n 15) as [-> |Hne].
    + destruct (Z.eq_dec (len * 256 + s) 0) as [-> |Hnz]; [reflexivity|].
      rewrite (Z.bits_above_log2 (len * 256 + s)); [reflexivity|lia|].
      apply Z.log2_lt_pow2; [lia|]. change (2 ^ 15) with 32768. lia.
    + rewrite Z.pow2_bits_false by lia. apply andb_false_r.
  - change 0xff with (Z.ones 8). rewrite Z.land_ones by lia. change (2 ^ 8) with 256.
    rewrite Z.add_comm, Z.mod_add by lia. apply Z.mod_small. lia.
  - rewrite Z.shiftr_div_pow2 by lia. change (2 ^ 8) with 256.
    rewrite Z.add_comm, Z.div_add by lia. rewrite Z.div_small by lia. lia.
Qed.

Lemma huff_decode_next_byte_lookup bytes size table tree wordIdx bitIdx :
  huff_decode_next_byte bytes size table tree (wordIdx, bitIdx) =
  if wordIdx + 1 >=? size / 4 then (0, (wordIdx, bitIdx))
  else
    let bits := word_at bytes wordIdx + Z.shiftl (word_at bytes (wordIdx + 1)) 32 in
    let '(byteValue, len) := huff_lookup table tree (Z.shiftr bits bitIdx) in
    (byteValue,
     (if bitIdx + len >=? 32 then wordIdx + 1 else wordIdx, (bitIdx + len) mod 32)).
Proof.
  unfold huff_decode_next_byte, huff_lookup.
  destruct (wordIdx + 1 >=? size / 4); [reflexivity|]. cbv zeta.
  destruct (Z.land _ (Z.shiftl 1 15) =? 0); reflexivity.
Qed.

Lemma div_mod_pow2 x a b :
  0 <= a -> 0 <= b -> (x / 2 ^ a) mod 2 ^ b = (x mod 2 ^ (a + b)) / 2 ^ a.
Proof.
  intros Ha Hb. rewrite Z.pow_add_r by lia.
  assert (0 < 2 ^ a) by (apply Z.pow_pos_nonneg; lia).
  assert (0 < 2 ^ b) by (apply Z.pow_pos_nonneg; lia).
  rewrite Z.rem_mul_r by lia.
  rewrite Z.add_comm, Z.mul_comm, Z.div_add_l by lia.
  rewrite (Z.div_small (x mod 2 ^ a)) by (apply Z.mod_pos_bound; lia). lia.
Qed.

Lemma walk_follow tree bs : forall fuel r t q,
  follow tree r bs = Some q ->
  isLeaf (get zero_dnode tree q) = true ->
  t mod 2 ^ Z.of_nat (length bs) = bits_val bs ->
  (length bs < fuel)%nat ->
  walk_tree fuel tree r t = q.
Proof.
  induction bs as [|b bs IH]; intros fuel r t q Hf Hl Ht Hfu;
    (destruct fuel as [|fuel]; [cbn in Hfu; lia|]); cbn [follow walk_tree] in *.
  - injection Hf as <-. now rewrite Hl.
  - destruct (isLeaf (get zero_dnode tree r)); [discriminate|].
    destruct (_ || _) eqn:Eo; [discriminate|].
    apply orb_false_elim in Eo as [Eo1 Eo2].
    apply Z.ltb_ge in Eo1. apply Z.leb_gt in Eo2.
    cbn [length] in Ht. rewrite Nat2Z.inj_succ, Z.pow_succ_r in Ht by lia.
    cbn [bits_val] in Ht.
    pose proof (bits_val_bound bs) as Bb.
    assert (P : 0 < 2 ^ Z.of_nat (length bs)) by (apply Z.pow_pos_nonneg; lia).
    assert (E1 : Z.land t 1 = Z.b2z b).
    { change 1 with (Z.ones 1). rewrite Z.land_ones by lia. change (2 ^ 1) with 2.
      rewrite Z.rem_mul_r in Ht by lia.
      assert (0 <= t mod 2 < 2) by (apply Z.mod_pos_bound; lia).
      assert (0 <= (t / 2) mod 2 ^ Z.of_nat (length bs) < 2 ^ Z.of_nat (length bs))
        by (apply Z.mod_pos_bound; lia).
      destruct b; cbn [Z.b2z] in *; lia. }
    assert (E2 : Z.shiftr t 1 mod 2 ^ Z.of_nat (length bs) = bits_val bs).
    { rewrite Z.shiftr_div_pow2 by lia. change (2 ^ 1) with 2.
      rewrite Z.rem_mul_r in Ht by lia.
      assert (0 <= t mod 2 < 2) by (apply Z.mod_pos_bound; lia).
      assert (0 <= (t / 2) mod 2 ^ Z.of_nat (length bs) < 2 ^ Z.of_nat (length bs))
        by (apply Z.mod_pos_bound; lia).
      destruct b; cbn [Z.b2z] in *; lia. }
    rewrite E1.
    replace (if Z.b2z b =? 0 then node_left (get zero_dnode tree r)
             else node_right (get zero_dnode tree r)) with (child tree r b)
      by (now destruct b).
    unfold u16. rewrite Z.mod_small by lia.
    apply IH; auto. cbn in Hfu. lia.
Qed.

Lemma qoi_read_24_written F p v :
  0 <= v < 16777216 ->
  holds F p [(v / 2 ^ 16) mod 256; (v / 2 ^ 8) mod 256; v mod 256] ->
  qoi_read_24 F p = (v, p + 3).
Proof.
  intros Hv H. unfold qoi_read_24.
  pose proof (H 0%nat ltac:(simpl; lia)) as H0.
  pose proof (H 1%nat ltac:(simpl; lia)) as H1.
  pose proof (H 2%nat ltac:(simpl; lia)) as H2.
  cbn [nth] in H0, H1, H2. rewrite Z.add_0_r in H0.
  change (Z.of_nat 1) with 1 in H1. change (Z.of_nat 2) with 2 in H2.
  rewrite H0, H1, H2. rewrite be24_value by apply mod_byte. f_equal.
  change (2 ^ 16) with 65536. change (2 ^ 8) with 256.
  Z.div_mod_to_equations. lia.
Qed.

Lemma qoi_read_16_written F p v :
  0 <= v < 65536 ->
  holds F p [(v / 2 ^ 8) mod 256; v mod 256] ->
  qoi_read_16 F p = (v, p + 2).
Proof.
  intros Hv H. unfold qoi_read_16.
  pose proof (H 0%nat ltac:(simpl; lia)) as H0.
  pose proof (H 1%nat ltac:(simpl; lia)) as H1.
  cbn [nth] in H0, H1. rewrite Z.add_0_r in H0.
  change (Z.of_nat 1) with 1 in H1.
  rewrite H0, H1. rewrite be16_value by apply mod_byte. f_equal.
  change (2 ^ 8) with 256. Z.div_mod_to_equations. lia.
Qed.

Lemma u8_small' v : 0 <= v < 256 -> u8 v = v.
Proof. intros H. unfold u8. now apply Z.mod_small. Qed.

(** A codebook entry is read back as it was written. *)
Lemma entry_at_written bytes size p e :
  holds bytes p (code_entry e) -> 0 <= p ->
  p + Z.of_nat (length (code_entry e)) <= size ->
  1 <= table_len e <= 32 -> 0 <= table_bits e < 2 ^ table_len e ->
  entry_at bytes size p =
  Some (table_len e, table_bits e, p + Z.of_nat (length (code_entry e))).
Proof.
  intros H Hp Hsz Hl Hb. rewrite code_entry_bytes in *.
  apply holds_cons in H as [H0 H]. rewrite u8_small' in H0 by lia.
  unfold entry_at. rewrite !Z.geb_leb, !Z.gtb_ltb in *.
  cbn [length] in Hsz.
  rewrite (proj2 (Z.leb_gt size p)) by lia. rewrite H0.
  destruct (24 <? table_len e) eqn:E24.
  - apply Z.ltb_lt in E24. cbn [length] in *.
    rewrite (proj2 (Z.ltb_ge size (p + 1 + 4))) by lia.
    rewrite (qoi_read_32_written _ _ (table_bits e)); [| |assumption].
    + cbn [fst]. do 2 f_equal. lia.
    + assert (2 ^ table_len e <= 2 ^ 32) by (apply Z.pow_le_mono_r; lia). lia.
  - apply Z.ltb_ge in E24. destruct (16 <? table_len e) eqn:E16.
    + apply Z.ltb_lt in E16. cbn [length] in *.
      rewrite (proj2 (Z.ltb_ge size (p + 1 + 3))) by lia.
      rewrite (qoi_read_24_written _ _ (table_bits e)); [| |assumption].
      * cbn [fst]. do 2 f_equal. lia.
      * assert (2 ^ table_len e <= 2 ^ 24) by (apply Z.pow_le_mono_r; lia). lia.
    + apply Z.ltb_ge in E16. cbn [length] in *.
      rewrite (proj2 (Z.ltb_ge size (p + 1 + 2))) by lia.
      rewrite (qoi_read_16_written _ _ (table_bits e)); [| |assumption].
      * cbn [fst]. do 2 f_equal. lia.
      * assert (2 ^ table_len e <= 2 ^ 16) by (apply Z.pow_le_mono_r; lia). lia.
Qed.

(** ** The decoding table and tree of a code *)

Section DecodingTables.

(** The tree of the code; the code word of a symbol is its way. *)
Variable T : btree.
Hypothesis T_leaves : Permutation (leaves T) (zrange 0 256).
Hypothesis T_depth : forall p s, path T p s -> (length p <= 32)%nat.

Lemma T_nodup : NoDup (leaves T).
Proof. apply (Permutation_NoDup (Permutation_sym T_leaves)). apply NoDup_zrange. Qed.

Lemma T_size : length (leaves T) = 256%nat.
Proof.
  rewrite (Permutation_length T_leaves). unfold zrange.
  now rewrite length_map, length_seq.
Qed.

Lemma T_range s : In s (leaves T) -> 0 <= s < 256.
Proof. intros H. apply (Permutation_in _ T_leaves) in H. apply in_zrange in H. lia. Qed.

Lemma T_path s : 0 <= s < 256 -> exists p, path T p s.
Proof.
  intros H. apply in_path. apply (Permutation_in _ (Permutation_sym T_leaves)).
  apply in_zrange. lia.
Qed.

Lemma dcore_count_gen lab n :
  0 <= n ->
  (forall q, 0 <= q < n -> sub T (lab q) <> None) ->
  (forall q q', 0 <= q < n -> 0 <= q' < n -> lab q = lab q' -> q = q') ->
  n <= 511.
Proof.
  intros Hn Hs Hi.
  pose proof (labels_count T lab (Z.to_nat n)) as H. rewrite T_size in H.
  assert ((Z.to_nat n <= 2 * 256 - 1)%nat); [|lia].
  apply H.
  - intros q Hq. apply Hs. lia.
  - intros q q' Hq Hq' E. apply Hi in E; lia.
Qed.

Lemma dcore_sub k dt tr nf lab q :
  dcore T k dt tr nf lab -> 0 <= q < nf -> sub T (lab q) <> None.
Proof.
  intros Hc Hq. destruct (dc_node T _ _ _ _ _ Hc q Hq) as [_ H].
  destruct (sub T (lab q)); [discriminate|contradiction].
Qed.

Lemma dcore_child_bound k dt tr nf lab :
  dcore T k dt tr nf lab ->
  forall x b, 0 <= x < nf -> 0 <= child tr x b -> child tr x b < nf.
Proof.
  intros Hc x b Hx Hb. destruct (dc_node T _ _ _ _ _ Hc x Hx) as [_ H].
  destruct (sub T (lab x)) as [[s|l r]|]; [| |contradiction].
  - destruct H as (_ & _ & E). unfold child in *. rewrite E in *. cbn in *.
    destruct b; lia.
  - destruct H as [_ H]. destruct (H b) as [E|[E _]]; lia.
Qed.

(** One more node below [cur], on the side [b]. *)
Lemma add_child_node k k' dt tr nf lab cur b l r nd :
  dcore T k dt tr nf lab -> k <= k' ->
  0 <= cur < nf ->
  sub T (lab cur) = Some (BN l r) ->
  child tr cur b = -1 ->
  match (if b then r else l) with
  | BL s => 0 <= s < k' /\
            nd = mk_dnode true (Z.of_nat (length (lab cur)) + 1) s 0 0
  | BN _ _ => nd = new_dnode
  end ->
  let tr' := set_child (set tr nf nd) cur (Z.b2z b) nf in
  nf < 511 /\
  dcore T k' dt tr' (nf + 1) (lab_set lab nf (lab cur ++ [b])) /\
  extends tr tr' nf /\ child tr' cur b = nf.
Proof.
  intros Hc Hk Hcur Hsub Hch Hnd tr'.
  pose proof Hc as [Ldt Ltr Hnf Hslot Hnode Hinj Hpar Hroot].
  set (lab' := lab_set lab nf (lab cur ++ [b])).
  assert (Hfresh : forall q, 0 <= q < nf -> lab q <> lab cur ++ [b]).
  { intros q Hq E.
    destruct (Hnode cur Hcur) as [L11 _].
    destruct (Hpar q Hq) as (q' & b' & Hq' & E' & Hc').
    { rewrite E, length_app. cbn. lia. }
    rewrite E in E'. apply app_inj_tail in E' as [E1 E2]. subst b'.
    apply Hinj in E1; try assumption. subst q'. lia. }
  assert (Hsub' : sub T (lab cur ++ [b]) = Some (if b then r else l))
    by (now apply sub_snoc_inner).
  assert (Hlt : nf < 511).
  { assert (nf + 1 <= 511); [|lia].
    apply (dcore_count_gen lab'); [lia| |].
    - intros q Hq. unfold lab', lab_set. destruct (q =? nf) eqn:E.
      + rewrite Hsub'. discriminate.
      + apply Z.eqb_neq in E. apply (dcore_sub _ _ _ _ _ _ Hc). lia.
    - intros q q' Hq Hq' E. unfold lab' in E.
      destruct (Z.eq_dec q nf) as [E1|E1], (Z.eq_dec q' nf) as [E2|E2]; [lia| | |].
      + subst q. rewrite lab_set_same, lab_set_other in E by assumption.
        symmetry in E. apply Hfresh in E; [contradiction|lia].
      + subst q'. rewrite lab_set_same, lab_set_other in E by assumption.
        apply Hfresh in E; [contradiction|lia].
      + rewrite !lab_set_other in E by assumption. apply Hinj; auto; lia. }
  assert (Lset : length (set tr nf nd) = 512%nat) by (now rewrite length_set).
  assert (Hget_nf : get zero_dnode tr' nf = nd).
  { unfold tr'. rewrite get_set_child_other by lia. apply get_set_same. lia. }
  assert (Hget_o : forall q, 0 <= q < nf -> q <> cur ->
            get zero_dnode tr' q = get zero_dnode tr q).
  { intros q Hq Hne. unfold tr'. rewrite get_set_child_other by lia.
    apply get_set_other; lia. }
  assert (Hchild : forall q b', 0 <= q < nf ->
            child tr' q b' = if (q =? cur) && Bool.eqb b b' then nf else child tr q b').
  { intros q b' Hq. unfold tr'. rewrite child_set_child by lia.
    destruct (_ && _); [reflexivity|]. unfold child.
    now rewrite get_set_other by lia. }
  assert (Hleaf : forall q, 0 <= q < nf ->
            isLeaf (get zero_dnode tr' q) = isLeaf (get zero_dnode tr q)).
  { intros q Hq. unfold tr'. rewrite isLeaf_set_child by lia.
    now rewrite get_set_other by lia. }
  assert (Hcur_in : isLeaf (get zero_dnode tr cur) = false /\
            forall b0, child tr cur b0 = -1 \/
              (0 <= child tr cur b0 < nf /\ lab (child tr cur b0) = lab cur ++ [b0])).
  { destruct (Hnode cur Hcur) as [_ H]. now rewrite Hsub in H. }
  split; [assumption|]. split; [|split].
  - constructor.
    + assumption.
    + unfold tr'. now rewrite length_set_child.
    + lia.
    + intros v Hv. destruct (Hslot v Hv) as [H|[H|H]]; [now left| |].
      * right; left. destruct H as (s & p & Hs & H). exists s, p. split; [lia|assumption].
      * right; right. destruct H as (r0 & H1 & H2 & H3 & H4). exists r0.
        unfold lab'. rewrite lab_set_other by lia. repeat split; auto; lia.
    + intros q Hq. destruct (Z.eq_dec q nf) as [-> |Hne].
      * unfold lab'. rewrite lab_set_same, Hsub', Hget_nf.
        destruct (Hnode cur Hcur) as [L11 _].
        split; [rewrite length_app; cbn; lia|].
        destruct (if b then r else l) as [s|l' r'].
        -- destruct Hnd as [Hs ->]. split; [assumption|].
           split; [rewrite length_app; cbn; lia|].
           rewrite length_app. cbn [length]. f_equal. lia.
        -- subst nd. split; [reflexivity|]. intros b0. left.
           unfold child. rewrite Hget_nf. now destruct b0.
      * assert (Hq' : 0 <= q < nf) by lia.
        unfold lab'. rewrite lab_set_other by assumption.
        destruct (Hnode q Hq') as [L11 H]. split; [assumption|].
        destruct (sub T (lab q)) as [[s|l' r']|] eqn:Es; [| |contradiction].
        -- destruct H as (H1 & H2 & H3). split; [lia|]. split; [assumption|].
           destruct (Z.eq_dec q cur) as [-> |Hnc]; [congruence|].
           now rewrite Hget_o.
        -- destruct H as [H1 H2]. split; [now rewrite Hleaf|].
           intros b0. rewrite Hchild by assumption.
           destruct ((q =? cur) && Bool.eqb b b0) eqn:E.
           ++ apply andb_true_iff in E as [E1 E2]. apply Z.eqb_eq in E1.
              apply eqb_prop in E2. subst q b0. right.
              rewrite lab_set_same. split; [lia|reflexivity].
           ++ destruct (H2 b0) as [H|[H H']]; [now left|right].
              rewrite lab_set_other by lia. split; [lia|assumption].
    + intros q q' Hq Hq' E. unfold lab' in E.
      destruct (Z.eq_dec q nf) as [E1|E1], (Z.eq_dec q' nf) as [E2|E2]; [lia| | |].
      * subst q. rewrite lab_set_same, lab_set_other in E by assumption.
        symmetry in E. apply Hfresh in E; [contradiction|lia].
      * subst q'. rewrite lab_set_same, lab_set_other in E by assumption.
        apply Hfresh in E; [contradiction|lia].
      * rewrite !lab_set_other in E by assumption. apply Hinj; auto; lia.
    + intros q Hq Hl. destruct (Z.eq_dec q nf) as [-> |Hne].
      * exists cur, b. unfold lab'. rewrite lab_set_same, lab_set_other by lia.
        split; [lia|]. split; [reflexivity|].
        rewrite Hchild by assumption. now rewrite Z.eqb_refl, eqb_reflx.
      * unfold lab' in *. rewrite lab_set_other in * by assumption.
        destruct (Hpar q ltac:(lia) Hl) as (q' & b' & Hq' & E & Hc').
        exists q', b'. rewrite lab_set_other by lia.
        split; [lia|]. split; [assumption|].
        rewrite Hchild by assumption.
        destruct ((q' =? cur) && Bool.eqb b b') eqn:Eb; [|assumption].
        apply andb_true_iff in Eb as [E1 E2]. apply Z.eqb_eq in E1.
        apply eqb_prop in E2. subst q' b'. lia.
    + intros q Hq Hl. destruct (Z.eq_dec q nf) as [-> |Hne].
      * unfold lab' in Hl. rewrite lab_set_same, length_app in Hl.
        destruct (Hnode cur Hcur) as [L11 _]. cbn in Hl. lia.
      * unfold lab' in *. rewrite lab_set_other in * by assumption.
        apply Hroot; [lia|assumption].
  - intros q Hq. split; [now apply Hleaf|].
    intros b0 Hb0. rewrite Hchild by assumption.
    destruct ((q =? cur) && Bool.eqb b b0) eqn:Eb; [|reflexivity].
    apply andb_true_iff in Eb as [E1 E2]. apply Z.eqb_eq in E1.
    apply eqb_prop in E2. subst q b0. lia.
  - rewrite Hchild by assumption. now rewrite Z.eqb_refl, eqb_reflx.
Qed.

(** A new root for the table slot of the way [p] of 11 steps. *)
Lemma add_root_node k dt tr nf lab p l r :
  dcore T k dt tr nf lab ->
  length p = 11%nat -> sub T p = Some (BN l r) ->
  get 0 dt (bits_val p) = 0 ->
  let dt' := set dt (bits_val p) (nf + 32768) in
  let tr' := set tr nf new_dnode in
  nf < 511 /\
  dcore T k dt' tr' (nf + 1) (lab_set lab nf p) /\
  extends tr tr' nf /\
  get 0 dt' (bits_val p) = nf + 32768 /\
  (forall v, 0 <= v -> v <> bits_val p -> get 0 dt' v = get 0 dt v).
Proof.
  intros Hc Hl Hsub Hz dt' tr'.
  pose proof Hc as [Ldt Ltr Hnf Hslot Hnode Hinj Hpar Hroot].
  set (lab' := lab_set lab nf p).
  pose proof (bits_val_bound p) as Hv. rewrite Hl in Hv.
  change (2 ^ Z.of_nat 11) with 2048 in Hv.
  assert (Hfresh : forall q, 0 <= q < nf -> lab q <> p).
  { intros q Hq E. pose proof (Hroot q Hq ltac:(now rewrite E)) as H.
    rewrite E in H. lia. }
  assert (Hlt : nf < 511).
  { assert (nf + 1 <= 511); [|lia].
    apply (dcore_count_gen lab'); [lia| |].
    - intros q Hq. unfold lab', lab_set. destruct (q =? nf) eqn:E.
      + rewrite Hsub. discriminate.
      + apply Z.eqb_neq in E. apply (dcore_sub _ _ _ _ _ _ Hc). lia.
    - intros q q' Hq Hq' E. unfold lab' in E.
      destruct (Z.eq_dec q nf) as [E1|E1], (Z.eq_dec q' nf) as [E2|E2]; [lia| | |].
      + subst q. rewrite lab_set_same, lab_set_other in E by assumption.
        symmetry in E. apply Hfresh in E; [contradiction|lia].
      + subst q'. rewrite lab_set_same, lab_set_other in E by assumption.
        apply Hfresh in E; [contradiction|lia].
      + rewrite !lab_set_other in E by assumption. apply Hinj; auto; lia. }
  assert (Hdt_same : get 0 dt' (bits_val p) = nf + 32768).
  { unfold dt'. apply get_set_same. lia. }
  assert (Hdt_o : forall v, 0 <= v -> v <> bits_val p -> get 0 dt' v = get 0 dt v).
  { intros v Hv0 Hne. unfold dt'. apply get_set_other; lia. }
  assert (Hget_nf : get zero_dnode tr' nf = new_dnode).
  { unfold tr'. apply get_set_same. lia. }
  assert (Hget_o : forall q, 0 <= q < nf -> get zero_dnode tr' q = get zero_dnode tr q).
  { intros q Hq. unfold tr'. apply get_set_other; lia. }
  assert (Hchild : forall q b, 0 <= q < nf -> child tr' q b = child tr q b).
  { intros q b Hq. unfold child. now rewrite Hget_o. }
  split; [assumption|]. split; [|split; [|split; assumption]].
  - constructor.
    + unfold dt'. now rewrite length_set.
    + unfold tr'. now rewrite length_set.
    + lia.
    + intros v Hv'. destruct (Z.eq_dec v (bits_val p)) as [-> |Hne].
      * right; right. exists nf. unfold lab'. rewrite lab_set_same.
        repeat split; auto; lia.
      * rewrite Hdt_o by lia.
        destruct (Hslot v Hv') as [H|[H|H]]; [now left|now (right; left)|].
        right; right. destruct H as (r0 & H1 & H2 & H3 & H4). exists r0.
        unfold lab'. rewrite lab_set_other by lia. repeat split; auto; lia.
    + intros q Hq. destruct (Z.eq_dec q nf) as [-> |Hne].
      * unfold lab'. rewrite lab_set_same, Hsub, Hget_nf.
        split; [lia|]. split; [reflexivity|]. intros b. left.
        unfold child. rewrite Hget_nf. now destruct b.
      * assert (Hq' : 0 <= q < nf) by lia.
        unfold lab'. rewrite lab_set_other by assumption.
        destruct (Hnode q Hq') as [L11 H]. split; [assumption|].
        destruct (sub T (lab q)) as [[s|l' r']|] eqn:Es; [| |contradiction].
        -- now rewrite Hget_o.
        -- destruct H as [H1 H2]. split; [now rewrite Hget_o|].
           intros b. rewrite Hchild by assumption.
           destruct (H2 b) as [H|[H H']]; [now left|right].
           rewrite lab_set_other by lia. split; [lia|assumption].
    + intros q q' Hq Hq' E. unfold lab' in E.
      destruct (Z.eq_dec q nf) as [E1|E1], (Z.eq_dec q' nf) as [E2|E2]; [lia| | |].
      * subst q. rewrite lab_set_same, lab_set_other in E by assumption.
        symmetry in E. apply Hfresh in E; [contradiction|lia].
      * subst q'. rewrite lab_set_same, lab_set_other in E by assumption.
        apply Hfresh in E; [contradiction|lia].
      * rewrite !lab_set_other in E by assumption. apply Hinj; auto; lia.
    + intros q Hq Hlq. destruct (Z.eq_dec q nf) as [-> |Hne].
      * unfold lab' in Hlq. rewrite lab_set_same in Hlq. lia.
      * unfold lab' in *. rewrite lab_set_other in * by assumption.
        destruct (Hpar q ltac:(lia) Hlq) as (q' & b' & Hq' & E & Hc').
        exists q', b'. rewrite lab_set_other by lia.
        split; [lia|]. split; [assumption|]. now rewrite Hchild.
    + intros q Hq Hlq. destruct (Z.eq_dec q nf) as [-> |Hne].
      * unfold lab'. rewrite lab_set_same. assumption.
      * unfold lab' in *. rewrite lab_set_other in * by assumption.
        assert (Hq' : 0 <= q < nf) by lia.
        pose proof (Hroot q Hq' Hlq) as Hr.
        rewrite Hdt_o; [assumption|apply bits_val_bound|].
        intros E. rewrite E in Hr. lia.
  - intros q Hq. split; [now rewrite Hget_o|]. intros b _. now apply Hchild.
Qed.

Lemma path_symbol_range p s : path T p s -> 0 <= s < 256.
Proof. intros H. apply T_range. eapply path_in. eassumption. Qed.

Lemma u8_small v : 0 <= v < 256 -> u8 v = v.
Proof. intros H. unfold u8. now apply Z.mod_small. Qed.

Lemma child_of_bit tr cur (b : bool) :
  (if Z.b2z b =? 0 then node_left (get zero_dnode tr cur)
   else node_right (get zero_dnode tr cur)) = child tr cur b.
Proof. now destruct b. Qed.

(** The loop over the bits of a long code word enters its way below the
    node [cur]. *)
Lemma grow_tree_ok s dt : forall bs pre tr nf lab cur,
  bs <> [] -> path T (pre ++ bs) s ->
  dcore T s dt tr nf lab -> 0 <= cur < nf -> lab cur = pre ->
  exists tr' nf' lab',
    grow_tree (length bs) tr nf cur (bits_val bs)
              (Z.of_nat (length (pre ++ bs))) s = (tr', nf') /\
    dcore T (s + 1) dt tr' nf' lab' /\ extends tr tr' nf /\ nf <= nf' /\
    (forall q, 0 <= q < nf -> lab' q = lab q) /\
    exists q, follow tr' cur bs = Some q /\ 0 <= q < nf' /\ lab' q = pre ++ bs.
Proof.
  induction bs as [|b bs IH]; intros pre tr nf lab cur Hne Hp Hc Hcur Hlab;
    [contradiction|].
  pose proof (path_symbol_range _ _ Hp) as Hs.
  pose proof (T_depth _ _ Hp) as Hd.
  destruct (sub_proper_prefix T pre (b :: bs) s Hp Hne) as (l & r & Hsub).
  pose proof (sub_snoc_inner T pre b l r Hsub) as Hsub1.
  pose proof (dc_node T _ _ _ _ _ Hc cur Hcur) as [L11 Hn].
  rewrite Hlab, Hsub in Hn. destruct Hn as [Hleaf Hch].
  cbn [length grow_tree].
  destruct (bits_val_cons_bit b bs) as [Eb Es]. rewrite Eb, Es. cbv zeta.
  rewrite child_of_bit.
  destruct bs as [|b2 bs2].
  - cbn [length].
    assert (Hleafpos : (if b then r else l) = BL s).
    { apply path_sub in Hp. rewrite Hsub1 in Hp. now injection Hp. }
    assert (Hm1 : child tr cur b = -1).
    { destruct (Hch b) as [E|[Hb Hl]]; [assumption|exfalso].
      pose proof (dc_node T _ _ _ _ _ Hc _ Hb) as [_ Hn].
      rewrite Hl, Hsub1, Hleafpos in Hn. lia. }
    rewrite <- Hlab in Hsub.
    destruct (add_child_node s (s + 1) dt tr nf lab cur b l r
                (mk_dnode true (u8 (Z.of_nat (length (pre ++ [b])))) (u8 s) 0 0)
                Hc ltac:(lia) Hcur Hsub Hm1) as (Hlt & Hc' & Hext & Hchild).
    { rewrite Hleafpos. split; [lia|]. rewrite Hlab, (u8_small s) by lia.
      rewrite length_app in *. cbn [length] in *. rewrite u8_small by lia.
      do 2 f_equal. lia. }
    eexists _, _, _. split; [reflexivity|]. split; [exact Hc'|].
    split; [exact Hext|]. split; [lia|]. split.
    { intros q Hq. apply lab_set_other. lia. }
    exists nf. cbn [follow].
    destruct (Hext cur Hcur) as [E1 _]. rewrite E1, Hleaf, Hchild.
    pose proof (dc_nf T _ _ _ _ _ Hc) as Hnf.
    rewrite (proj2 (Z.ltb_ge nf 0)), (proj2 (Z.leb_gt 512 nf)) by lia. cbn [orb].
    split; [reflexivity|]. split; [lia|]. rewrite lab_set_same, Hlab. reflexivity.
  - assert (Hp' : path T ((pre ++ [b]) ++ b2 :: bs2) s)
      by (now rewrite <- app_assoc).
    destruct (sub_proper_prefix T (pre ++ [b]) (b2 :: bs2) s Hp' ltac:(discriminate))
      as (l2 & r2 & Hsub2).
    assert (Hin : (if b then r else l) = BN l2 r2) by congruence.
    assert (Elen : length (pre ++ b :: b2 :: bs2) = length ((pre ++ [b]) ++ b2 :: bs2))
      by (now rewrite <- app_assoc).
    rewrite Elen.
    change (match length (b2 :: bs2) with O => ?a | S _ => ?c end) with c.
    destruct (child tr cur b <? 0) eqn:Elt.
    + apply Z.ltb_lt in Elt.
      assert (Hm1 : child tr cur b = -1) by (destruct (Hch b) as [E|[Hb _]]; lia).
      rewrite <- Hlab in Hsub.
      destruct (add_child_node s s dt tr nf lab cur b l r new_dnode
                  Hc ltac:(lia) Hcur Hsub Hm1) as (Hlt & Hc' & Hext & Hchild).
      { now rewrite Hin. }
      rewrite Hlab in Hc'.
      destruct (IH (pre ++ [b]) _ (nf + 1) _ nf ltac:(discriminate) Hp' Hc'
                  ltac:(pose proof (dc_nf T _ _ _ _ _ Hc); lia) (lab_set_same _ _ _))
        as (tr' & nf' & lab' & Hg & Hc2 & Hext2 & Hnf2 & Hlab2 & q & Hf & Hq & Hlq).
      exists tr', nf', lab'. split; [exact Hg|]. split; [exact Hc2|].
      split; [eapply extends_trans; [|exact Hext|exact Hext2]; lia|].
      split; [lia|]. split.
      { intros x Hx. rewrite Hlab2 by lia. apply lab_set_other. lia. }
      exists q. split; [|split; [assumption|now rewrite Hlq, <- app_assoc]].
      cbn [follow].
      destruct (Hext cur Hcur) as [E1 _].
      destruct (Hext2 cur ltac:(lia)) as [E2 E3].
      pose proof (dc_nf T _ _ _ _ _ Hc) as Hnf.
      rewrite E2, E1, Hleaf, (E3 b) by (rewrite Hchild; lia). rewrite Hchild.
      rewrite (proj2 (Z.ltb_ge nf 0)), (proj2 (Z.leb_gt 512 nf)) by lia. cbn [orb].
      exact Hf.
    + apply Z.ltb_ge in Elt.
      destruct (Hch b) as [E|[Hb Hl]]; [lia|].
      destruct (IH (pre ++ [b]) tr nf lab (child tr cur b) ltac:(discriminate) Hp' Hc
                  Hb Hl)
        as (tr' & nf' & lab' & Hg & Hc2 & Hext2 & Hnf2 & Hlab2 & q & Hf & Hq & Hlq).
      exists tr', nf', lab'. split; [exact Hg|]. split; [exact Hc2|].
      split; [exact Hext2|]. split; [lia|]. split; [exact Hlab2|].
      exists q. split; [|split; [assumption|now rewrite Hlq, <- app_assoc]].
      cbn [follow].
      destruct (Hext2 cur Hcur) as [E2 E3].
      pose proof (dc_tr T _ _ _ _ _ Hc) as Ltr.
      pose proof (dcore_count_gen lab nf (dc_nf T _ _ _ _ _ Hc)
                    (fun q Hq => dcore_sub _ _ _ _ _ q Hc Hq)
                    (dc_inj T _ _ _ _ _ Hc)) as Hcnt.
      rewrite E2, Hleaf, (E3 b) by lia.
      rewrite (proj2 (Z.ltb_ge (child tr cur b) 0)),
        (proj2 (Z.leb_gt 512 (child tr cur b))) by lia. cbn [orb].
      exact Hf.
Qed.

Lemma path_nonempty p s : path T p s -> (1 <= length p)%nat.
Proof.
  intros H. destruct p; [|cbn; lia]. exfalso.
  pose proof T_size as L. apply path_sub in H. cbn [sub] in H.
  injection H as E. rewrite E in L. cbn in L. discriminate.
Qed.

Lemma val_prefix p q :
  (length p <= length q)%nat ->
  bits_val q mod 2 ^ Z.of_nat (length p) = bits_val p ->
  exists rest, q = p ++ rest.
Proof.
  intros Hl Hm.
  assert (E : exists a b, q = a ++ b /\ length a = length p).
  { exists (firstn (length p) q), (skipn (length p) q).
    split; [symmetry; apply firstn_skipn | rewrite length_firstn; lia]. }
  destruct E as (a & b & -> & La).
  rewrite <- La, bits_val_mod in Hm.
  apply bits_val_inj in Hm; [|lia]. subst a. now exists b.
Qed.

Lemma slot_conflict p s q :
  path T p s -> sub T q <> None -> (length p <= length q)%nat ->
  bits_val q mod 2 ^ Z.of_nat (length p) = bits_val p -> q = p.
Proof.
  intros Hp Hq Hl Hm. destruct (val_prefix p q Hl Hm) as [rest ->].
  apply path_sub in Hp. rewrite sub_app, Hp in Hq.
  destruct rest; [now rewrite app_nil_r|]. cbn in Hq. congruence.
Qed.

Lemma mod_pow_mod v a b :
  0 <= a <= b -> (v mod 2 ^ b) mod 2 ^ a = v mod 2 ^ a.
Proof.
  intros H. apply Z.mod_mod_divide. exists (2 ^ (b - a)).
  rewrite <- Z.pow_add_r by lia. f_equal. lia.
Qed.

Lemma code_conflict p s p' s' v :
  path T p s -> path T p' s' ->
  v mod 2 ^ Z.of_nat (length p) = bits_val p ->
  v mod 2 ^ Z.of_nat (length p') = bits_val p' -> s = s'.
Proof.
  assert (G : forall p s p' s', (length p <= length p')%nat ->
            path T p s -> path T p' s' ->
            v mod 2 ^ Z.of_nat (length p) = bits_val p ->
            v mod 2 ^ Z.of_nat (length p') = bits_val p' -> s = s').
  { clear p s p' s'. intros p s p' s' Hl Hp Hp' Hv Hv'.
    destruct (val_prefix p p' Hl) as [rest ->].
    - rewrite <- Hv', mod_pow_mod by lia. assumption.
    - now destruct (path_prefix_free _ _ _ _ _ Hp Hp'). }
  intros Hp Hp' Hv Hv'.
  destruct (Nat.le_ge_cases (length p) (length p')) as [L|L].
  - eapply G; eassumption.
  - symmetry. eapply G; eassumption.
Qed.

Lemma val_firstn p n :
  bits_val (firstn n p) = bits_val p mod 2 ^ Z.of_nat (length (firstn n p)).
Proof.
  rewrite <- (firstn_skipn n p) at 2. now rewrite bits_val_mod.
Qed.

Lemma val_skipn p n :
  (n <= length p)%nat ->
  bits_val (skipn n p) = Z.shiftr (bits_val p) (Z.of_nat n).
Proof.
  intros H. rewrite <- (firstn_skipn n p) at 2. rewrite bits_val_app.
  rewrite length_firstn, Nat.min_l by assumption.
  rewrite Z.shiftr_div_pow2 by lia.
  pose proof (bits_val_bound (firstn n p)) as B.
  rewrite length_firstn, Nat.min_l in B by assumption.
  rewrite Z.add_comm, Z.mul_comm, Z.div_add_l by lia.
  rewrite Z.div_small by lia. lia.
Qed.

Lemma dcore_mono k k' dt tr nf lab :
  k <= k' -> dcore T k dt tr nf lab -> dcore T k' dt tr nf lab.
Proof.
  intros Hk [Ldt Ltr Hnf Hslot Hnode Hinj Hpar Hroot]. constructor; auto.
  - intros v Hv. destruct (Hslot v Hv) as [H|[H|H]]; auto.
    right; left. destruct H as (s & p & Hs & H). exists s, p. split; [lia|assumption].
  - intros q Hq. destruct (Hnode q Hq) as [L H]. split; [assumption|].
    destruct (sub T (lab q)) as [[s|l r]|]; auto.
    destruct H as (H1 & H2). split; [lia|assumption].
Qed.

(** A short code word: its span of the table. *)
Lemma add_code_short s p dt tr nf lab :
  path T p s -> (length p <= 11)%nat ->
  dcore T s dt tr nf lab -> dshort T s dt -> dlong T s dt tr nf lab ->
  exists dt',
    add_code (dt, tr, nf) (Z.of_nat (length p)) (bits_val p) s = (dt', tr, nf) /\
    dcore T (s + 1) dt' tr nf lab /\ dshort T (s + 1) dt' /\ dlong T (s + 1) dt' tr nf lab.
Proof.
  intros Hp Hl Hc Hsh Hlo.
  pose proof (path_nonempty _ _ Hp) as Hl1.
  pose proof (path_symbol_range _ _ Hp) as Hs.
  pose proof (bits_val_bound p) as Hb.
  pose proof Hc as [Ldt Ltr Hnf Hslot Hnode Hinj Hpar Hroot].
  set (l := Z.of_nat (length p)) in *.
  unfold add_code. unfold QOI_HUFF_DECODING_TABLE_WIDTH.
  rewrite (proj2 (Z.leb_le l 11)) by lia. cbv zeta.
  eexists. split; [reflexivity|].
  set (dt' := fill_span _ 0 dt l (bits_val p) s).
  assert (Hpow : 2 ^ (11 - l) * 2 ^ l = 2048).
  { rewrite <- Z.pow_add_r by lia. replace (11 - l + l) with 11 by lia. reflexivity. }
  assert (Hp2 : 0 < 2 ^ l) by (apply Z.pow_pos_nonneg; lia).
  assert (Hget : forall v, 0 <= v < 2048 ->
            get 0 dt' v = if v mod 2 ^ l =? bits_val p then l * 256 + s else get 0 dt v).
  { intros v Hv. unfold dt'.
    rewrite (fill_span_get l (bits_val p) s (l * 256 + s)); try lia.
    - rewrite Z.shiftl_1_l, Z2Nat.id by (apply Z.pow_nonneg; lia).
      assert (0 <= v / 2 ^ l < 2 ^ (11 - l)).
      { split; [apply Z.div_pos; lia|]. apply Z.div_lt_upper_bound; lia. }
      rewrite (proj2 (Z.leb_le 0 _)), (proj2 (Z.ltb_lt _ (0 + _))) by lia.
      now rewrite !andb_true_r.
    - rewrite Z.shiftl_1_l, Z2Nat.id by (apply Z.pow_nonneg; lia). lia.
    - symmetry. apply term_entry; lia. }
  split; [|split].
  - constructor; auto.
    + unfold dt'. now rewrite length_fill_span.
    + intros v Hv. rewrite Hget by assumption.
      destruct (v mod 2 ^ l =? bits_val p) eqn:E.
      * apply Z.eqb_eq in E. right; left. exists s, p. repeat split; auto; lia.
      * destruct (Hslot v Hv) as [H|[H|H]]; auto.
        right; left. destruct H as (s0 & p0 & Hs0 & H). exists s0, p0.
        split; [lia|assumption].
    + intros q Hq. destruct (Hnode q Hq) as [L H]. split; [assumption|].
      destruct (sub T (lab q)) as [[s0|l0 r0]|]; auto.
      destruct H as (H1 & H2). split; [lia|assumption].
    + intros q Hq Hlq.
      pose proof (bits_val_bound (lab q)) as Bq. rewrite Hlq in Bq.
      change (2 ^ Z.of_nat 11) with 2048 in Bq.
      rewrite Hget by assumption.
      destruct (_ =? _) eqn:E; [|now apply Hroot].
      apply Z.eqb_eq in E. exfalso.
      assert (E' : lab q = p).
      { apply (slot_conflict p s); auto; [|lia].
        apply (dcore_sub _ _ _ _ _ _ Hc Hq). }
      destruct (Hnode q Hq) as [_ H]. apply path_sub in Hp.
      rewrite E', Hp in H. lia.
  - intros s0 p0 v Hs0 Hp0 Hl0 Hv Hm. rewrite Hget by assumption.
    destruct (Z.eq_dec s0 s) as [-> |Hne].
    + assert (p0 = p) by (eapply path_unique; [apply T_nodup|eassumption..]). subst p0.
      fold l in Hm. rewrite Hm, Z.eqb_refl. reflexivity.
    + destruct (_ =? _) eqn:E.
      * apply Z.eqb_eq in E. exfalso. apply Hne.
        eapply (code_conflict p0 s0 p s v); eassumption.
      * apply Hsh; auto. lia.
  - intros s0 p0 Hs0 Hp0 Hl0.
    assert (Hne : s0 <> s).
    { intros ->. assert (p0 = p) by (eapply path_unique; [apply T_nodup|eassumption..]). subst. lia. }
    destruct (Hlo s0 p0 ltac:(lia) Hp0 Hl0) as (r & q & H1 & H2 & H3 & H4 & H5).
    exists r, q. split; [|repeat split; auto; lia].
    pose proof (bits_val_bound (firstn 11 p0)) as Bq.
    rewrite length_firstn, Nat.min_l in Bq by lia.
    change (2 ^ Z.of_nat 11) with 2048 in Bq.
    rewrite Hget by assumption.
    destruct (_ =? _) eqn:E; [|assumption].
    apply Z.eqb_eq in E. exfalso. apply Hne.
    destruct (val_prefix p (firstn 11 p0)) as [rest Er].
    { rewrite length_firstn. lia. }
    { exact E. }
    rewrite <- (firstn_skipn 11 p0), Er, <- app_assoc in Hp0.
    now destruct (path_prefix_free _ _ _ _ _ Hp Hp0).
Qed.

(** The root of the tree for the table slot of a long code word: taken
    from the slot, or allocated. *)
Lemma long_code_root s p dt tr nf lab :
  path T p s -> (11 < length p)%nat -> dcore T s dt tr nf lab ->
  let v := bits_val (firstn 11 p) in
  exists dt1 tr1 nf1 lab1 r0,
    (if get 0 dt v =? 0
     then (set dt v (u16 (Z.lor nf (Z.shiftl 1 15))), set tr nf new_dnode, nf + 1, nf)
     else (dt, tr, nf, Z.land (get 0 dt v) (Z.lnot (Z.shiftl 1 15)))) =
    (dt1, tr1, nf1, r0) /\
    dcore T s dt1 tr1 nf1 lab1 /\ extends tr tr1 nf /\ nf <= nf1 /\
    (forall q, 0 <= q < nf -> lab1 q = lab q) /\
    0 <= r0 < nf1 /\ lab1 r0 = firstn 11 p /\ get 0 dt1 v = r0 + 32768 /\
    (forall v', 0 <= v' -> get 0 dt v' <> 0 -> get 0 dt1 v' = get 0 dt v').
Proof.
  intros Hp Hl Hc v.
  pose proof Hc as [Ldt Ltr Hnf Hslot Hnode Hinj Hpar Hroot].
  assert (Lpre : length (firstn 11 p) = 11%nat) by (rewrite length_firstn; lia).
  pose proof (bits_val_bound (firstn 11 p)) as Bv. rewrite Lpre in Bv.
  change (2 ^ Z.of_nat 11) with 2048 in Bv. fold v in Bv.
  assert (Hp' : path T (firstn 11 p ++ skipn 11 p) s) by (now rewrite firstn_skipn).
  assert (Hbs : skipn 11 p <> []).
  { intros E. pose proof (length_skipn 11 p) as L. rewrite E in L. cbn in L. lia. }
  destruct (sub_proper_prefix T _ _ s Hp' Hbs) as (l & r & Hsub).
  pose proof (dcore_count_gen lab nf Hnf
                (fun q Hq => dcore_sub _ _ _ _ _ q Hc Hq) Hinj) as Hcnt.
  destruct (Hslot v Bv) as [H|[H|H]].
  - rewrite H, Z.eqb_refl.
    destruct (add_root_node s dt tr nf lab (firstn 11 p) l r Hc Lpre Hsub H)
      as (Hlt & Hc1 & Hext & Hg & Ho).
    destruct (ptr_entry nf ltac:(lia)) as (E1 & _ & _). rewrite E1.
    eexists _, _, _, _, _. split; [reflexivity|]. split; [exact Hc1|].
    split; [exact Hext|]. split; [lia|]. split.
    { intros q Hq. apply lab_set_other. lia. }
    split; [lia|]. split; [apply lab_set_same|]. split; [exact Hg|].
    intros v' Hv' Hnz. apply Ho; [assumption|]. intros ->. contradiction.
  - exfalso. destruct H as (s0 & p0 & Hs0 & Hp0 & Hl0 & Hm & _).
    destruct (val_prefix p0 (firstn 11 p)) as [rest Er]; [lia|exact Hm|].
    rewrite Er, <- app_assoc in Hp'.
    destruct (path_prefix_free _ _ _ _ _ Hp0 Hp') as [E _].
    apply app_eq_nil in E as [_ E]. contradiction.
  - destruct H as (r0 & H1 & H2 & H3 & H4).
    destruct (ptr_entry r0 ltac:(lia)) as (_ & E2 & _).
    rewrite H1. rewrite (proj2 (Z.eqb_neq _ 0)) by lia. rewrite E2.
    exists dt, tr, nf, lab, r0. split; [reflexivity|]. split; [exact Hc|].
    split; [apply extends_refl|]. split; [lia|]. split; [auto|].
    split; [assumption|]. split; [|split; [assumption|auto]].
    apply bits_val_inj; [lia|assumption].
Qed.

(** A long code word: its way below the root of its table slot. *)
Lemma add_code_long s p dt tr nf lab :
  path T p s -> (11 < length p)%nat ->
  dcore T s dt tr nf lab -> dshort T s dt -> dlong T s dt tr nf lab ->
  exists dt' tr' nf' lab',
    add_code (dt, tr, nf) (Z.of_nat (length p)) (bits_val p) s = (dt', tr', nf') /\
    dcore T (s + 1) dt' tr' nf' lab' /\ dshort T (s + 1) dt' /\
    dlong T (s + 1) dt' tr' nf' lab'.
Proof.
  intros Hp Hl Hc Hsh Hlo.
  pose proof (path_symbol_range _ _ Hp) as Hs.
  assert (Lpre : length (firstn 11 p) = 11%nat) by (rewrite length_firstn; lia).
  assert (Lbs : length (skipn 11 p) = (length p - 11)%nat) by apply length_skipn.
  assert (Hp' : path T (firstn 11 p ++ skipn 11 p) s) by (now rewrite firstn_skipn).
  assert (Hbs : skipn 11 p <> []).
  { intros E. rewrite E in Lbs. cbn in Lbs. lia. }
  unfold add_code. unfold QOI_HUFF_DECODING_TABLE_WIDTH.
  rewrite (proj2 (Z.leb_gt (Z.of_nat (length p)) 11)) by lia. cbv zeta.
  change (Z.lnot (Z.shiftl (Z.lnot 0) 11)) with (Z.ones 11).
  rewrite Z.land_ones by lia.
  assert (Ev : bits_val p mod 2 ^ 11 = bits_val (firstn 11 p)).
  { rewrite val_firstn, Lpre. reflexivity. }
  rewrite Ev.
  assert (Es : Z.shiftr (bits_val p) 11 = bits_val (skipn 11 p))
    by (rewrite (val_skipn p 11) by lia; reflexivity).
  rewrite Es.
  replace (Z.to_nat (Z.of_nat (length p) - 11)) with (length (skipn 11 p)) by lia.
  destruct (long_code_root s p dt tr nf lab Hp Hl Hc)
    as (dt1 & tr1 & nf1 & lab1 & r0 & Eif & Hc1 & Hext1 & Hnf1 & Hlab1 & Hr0 & Hlr0 &
        Hg1 & Ho1).
  cbv zeta in Eif. rewrite Eif.
  replace (Z.of_nat (length p)) with
    (Z.of_nat (length (firstn 11 p ++ skipn 11 p))) by (now rewrite firstn_skipn).
  destruct (grow_tree_ok s dt1 (skipn 11 p) (firstn 11 p) tr1 nf1 lab1 r0
              Hbs Hp' Hc1 Hr0 Hlr0)
    as (tr' & nf' & lab' & Hg & Hc2 & Hext2 & Hnf2 & Hlab2 & q & Hf & Hq & Hlq).
  rewrite Hg.
  exists dt1, tr', nf', lab'. split; [reflexivity|]. split; [exact Hc2|].
  rewrite firstn_skipn in Hlq.
  pose proof (path_nonempty) as Hne1.
  split.
  - intros s0 p0 v Hs0 Hp0 Hl0 Hv Hm.
    assert (Hne : s0 <> s).
    { intros ->. assert (p0 = p) by (eapply path_unique; [apply T_nodup|eassumption..]). subst. lia. }
    pose proof (Hsh s0 p0 v ltac:(lia) Hp0 Hl0 Hv Hm) as E.
    rewrite Ho1; [assumption|lia|].
    pose proof (Hne1 _ _ Hp0). rewrite E. lia.
  - intros s0 p0 Hs0 Hp0 Hl0.
    destruct (Z.eq_dec s0 s) as [-> |Hne].
    + assert (p0 = p) by (eapply path_unique; [apply T_nodup|eassumption..]). subst p0.
      exists r0, q. split; [assumption|]. split; [lia|]. split; [assumption|].
      split; assumption.
    + destruct (Hlo s0 p0 ltac:(lia) Hp0 Hl0) as (r & q0 & H1 & H2 & H3 & H4 & H5).
      exists r, q0.
      destruct (follow_extends tr tr' nf (skipn 11 p0) r q0) as [F1 F2]; auto.
      { eapply extends_trans; [|exact Hext1|exact Hext2]. lia. }
      { apply (dcore_child_bound _ _ _ _ _ Hc). }
      split; [|split; [lia|split; [assumption|split; [lia|]]]].
      * rewrite Ho1; [assumption|apply bits_val_bound|]. rewrite H1. lia.
      * rewrite Hlab2, Hlab1 by lia. assumption.
Qed.

Lemma dcore_init : dcore T 0 (repeat 0 2048) (repeat zero_dnode 512) 0 (fun _ => []).
Proof.
  constructor; try (intros; lia); try (now rewrite repeat_length).
  intros v Hv. left. unfold get. apply nth_repeat.
Qed.

(** The lookup finds the symbol of the code word that the window starts
    with, and its length. *)
Lemma huff_lookup_ok dt tr nf lab p s x :
  dcore T 256 dt tr nf lab -> dshort T 256 dt -> dlong T 256 dt tr nf lab ->
  path T p s -> 0 <= x ->
  x mod 2 ^ Z.of_nat (length p) = bits_val p ->
  huff_lookup dt tr x = (s, Z.of_nat (length p)).
Proof.
  intros Hc Hsh Hlo Hp Hx Hm.
  pose proof (path_symbol_range _ _ Hp) as Hs.
  pose proof (path_nonempty _ _ Hp) as L1. pose proof (T_depth _ _ Hp) as L2.
  unfold huff_lookup. unfold QOI_HUFF_DECODING_TABLE_WIDTH. cbv zeta.
  change (Z.lnot (Z.shiftl (Z.lnot 0) 11)) with (Z.ones 11).
  rewrite Z.land_ones by lia.
  assert (Bx : 0 <= x mod 2 ^ 11 < 2048) by (apply Z.mod_pos_bound; lia).
  destruct (Nat.le_gt_cases (length p) 11) as [Hshort|Hlong].
  - rewrite (Hsh s p (x mod 2 ^ 11)); auto.
    + destruct (term_lookup (Z.of_nat (length p)) s) as (E1 & E2 & E3); [lia|lia|].
      now rewrite E1, E2, E3.
    + rewrite mod_pow_mod by lia. assumption.
  - destruct (Hlo s p Hs Hp Hlong) as (r & q & H1 & H2 & H3 & H4 & H5).
    assert (Ev : x mod 2 ^ 11 = bits_val (firstn 11 p)).
    { rewrite val_firstn, length_firstn, Nat.min_l by lia.
      rewrite <- Hm. symmetry. apply (mod_pow_mod x 11); lia. }
    rewrite Ev, H1.
    pose proof (dcore_count_gen lab nf (dc_nf T _ _ _ _ _ Hc)
                  (fun q Hq => dcore_sub _ _ _ _ _ q Hc Hq)
                  (dc_inj T _ _ _ _ _ Hc)) as Hcnt.
    destruct (ptr_entry r ltac:(lia)) as (_ & E2 & E3). rewrite E3, E2.
    pose proof (dc_node T _ _ _ _ _ Hc q H4) as [_ Hn].
    apply path_sub in Hp. rewrite H5, Hp in Hn. destruct Hn as (_ & _ & Hn).
    rewrite (walk_follow tr (skipn 11 p) 512 r _ q); auto.
    + rewrite Hn. reflexivity.
    + now rewrite Hn.
    + rewrite length_skipn.
      rewrite (val_skipn p 11) by lia. rewrite <- Hm.
      rewrite !Z.shiftr_div_pow2 by lia.
      unfold u32. change 4294967296 with (2 ^ 32).
      rewrite mod_pow_mod by lia.
      rewrite div_mod_pow2 by lia. do 2 f_equal. f_equal. lia.
    + rewrite length_skipn. lia.
Qed.

(** The code table of the encoder: the entry of a symbol holds its way. *)
Variable table : list encoding_table_t.
Hypothesis table_length : length table = 256%nat.
Hypothesis table_codes : forall p s, path T p s ->
  table_len (get zero_table table s) = Z.of_nat (length p) /\
  table_bits (get zero_table table s) = bits_val p.

(** Reading back the codebook written from [table] builds the decoding
    structures of all 256 code words. *)
Lemma read_codebook_ok bytes size : forall n k dt tr nf lab p,
  Z.of_nat n + k = 256 -> 0 <= k ->
  dcore T k dt tr nf lab -> dshort T k dt -> dlong T k dt tr nf lab ->
  holds bytes p (flat_map code_entry (skipn (Z.to_nat k) table)) -> 0 <= p ->
  p + Z.of_nat (length (flat_map code_entry (skipn (Z.to_nat k) table))) <= size ->
  exists dt' tr' nf' lab',
    read_codebook n k bytes size (dt, tr, nf, p) =
    Some (dt', tr', nf',
          p + Z.of_nat (length (flat_map code_entry (skipn (Z.to_nat k) table)))) /\
    dcore T 256 dt' tr' nf' lab' /\ dshort T 256 dt' /\ dlong T 256 dt' tr' nf' lab'.
Proof.
  induction n as [|n IH]; intros k dt tr nf lab p Hn Hk Hc Hsh Hlo Hh Hp Hsz.
  - assert (k = 256) by lia. subst k.
    rewrite skipn_all2 by (rewrite table_length; lia).
    cbn [flat_map length read_codebook]. rewrite Z.add_0_r.
    exists dt, tr, nf, lab. auto.
  - cbn [read_codebook].
    rewrite (skipn_nth_cons table (Z.to_nat k) zero_table) in *
      by (rewrite table_length; lia).
    change (nth (Z.to_nat k) table zero_table) with (get zero_table table k) in *.
    cbn [flat_map] in *. rewrite length_app in *.
    apply holds_split in Hh as [Hh1 Hh2].
    destruct (T_path k ltac:(lia)) as [pk Hpk].
    destruct (table_codes pk k Hpk) as [El Eb].
    pose proof (path_nonempty _ _ Hpk) as L1. pose proof (T_depth _ _ Hpk) as L2.
    pose proof (bits_val_bound pk) as Bb.
    rewrite read_code_entry.
    rewrite (entry_at_written bytes size p (get zero_table table k)); try assumption;
      try (rewrite ?El, ?Eb; lia).
    rewrite El, Eb.
    replace (S (Z.to_nat k)) with (Z.to_nat (k + 1)) in * by lia.
    destruct (Nat.le_gt_cases (length pk) 11) as [Hs|Hl].
    + destruct (add_code_short k pk dt tr nf lab Hpk Hs Hc Hsh Hlo)
        as (dt1 & E1 & Hc1 & Hsh1 & Hlo1).
      rewrite E1.
      destruct (IH (k + 1) dt1 tr nf lab
                  (p + Z.of_nat (length (code_entry (get zero_table table k))))
                  ltac:(lia) ltac:(lia) Hc1 Hsh1 Hlo1 Hh2 ltac:(lia) ltac:(lia))
        as (dt' & tr' & nf' & lab' & E & H).
      exists dt', tr', nf', lab'. split; [|exact H].
      eapply eq_trans; [exact E|]. do 2 f_equal. lia.
    + destruct (add_code_long k pk dt tr nf lab Hpk Hl Hc Hsh Hlo)
        as (dt1 & tr1 & nf1 & lab1 & E1 & Hc1 & Hsh1 & Hlo1).
      rewrite E1.
      destruct (IH (k + 1) dt1 tr1 nf1 lab1
                  (p + Z.of_nat (length (code_entry (get zero_table table k))))
                  ltac:(lia) ltac:(lia) Hc1 Hsh1 Hlo1 Hh2 ltac:(lia) ltac:(lia))
        as (dt' & tr' & nf' & lab' & E & H).
      exists dt', tr', nf', lab'. split; [|exact H].
      eapply eq_trans; [exact E|]. do 2 f_equal. lia.
Qed.

End DecodingTables.

(** ** The bit packer *)

Lemma words_val_app a b :
  words_val (a ++ b) = words_val a + 2 ^ (32 * Z.of_nat (length a)) * words_val b.
Proof.
  induction a as [|w a IH]; cbn [app words_val length].
  - change (2 ^ (32 * Z.of_nat 0)) with 1. lia.
  - rewrite IH. rewrite Nat2Z.inj_succ.
    replace (32 * Z.succ (Z.of_nat (length a))) with (32 + 32 * Z.of_nat (length a)) by lia.
    rewrite Z.pow_add_r by lia. lia.
Qed.

Lemma huff_word_mask_ones : huff_word_mask = Z.ones 32.
Proof. reflexivity. Qed.

Lemma pack_symbol_rel table ps vs sym :
  1 <= table_len (get zero_table table sym) <= 32 ->
  0 <= table_bits (get zero_table table sym)
    < 2 ^ table_len (get zero_table table sym) ->
  pack_rel ps vs ->
  pack_rel (pack_symbol table ps sym) (stream_step table vs sym).
Proof.
  destruct ps as [[done cur] k]. destruct vs as [V L].
  unfold pack_rel, pack_symbol, stream_step. cbn [fst snd].
  set (c := table_bits (get zero_table table sym)).
  set (l := table_len (get zero_table table sym)).
  intros Hl Hc (Hk & HL & Hdone & Hcur & HV).
  rewrite words_val_app in HV. cbn [words_val] in HV.
  set (n := Z.of_nat (length done)) in *.
  set (W := words_val done) in *.
  assert (PA : 0 < 2 ^ k) by (apply Z.pow_pos_nonneg; lia).
  assert (PB : 0 < 2 ^ (32 - k)) by (apply Z.pow_pos_nonneg; lia).
  assert (PAB : 2 ^ k * 2 ^ (32 - k) = 2 ^ 32).
  { rewrite <- Z.pow_add_r by lia. f_equal. lia. }
  assert (PP : 0 < 2 ^ (32 * n)) by (apply Z.pow_pos_nonneg; lia).
  assert (PL : 2 ^ L = 2 ^ (32 * n) * 2 ^ k).
  { rewrite HL, Z.pow_add_r by lia. reflexivity. }
  set (lo := c mod 2 ^ (32 - k)).
  set (hi := c / 2 ^ (32 - k)).
  assert (Ec : c = 2 ^ (32 - k) * hi + lo) by (apply Z.div_mod; lia).
  assert (Blo : 0 <= lo < 2 ^ (32 - k)) by (apply Z.mod_pos_bound; lia).
  assert (Bhi : 0 <= hi) by (apply Z.div_pos; lia).
  assert (Et : (c * 2 ^ k) mod 2 ^ 32 = 2 ^ k * lo).
  { rewrite <- PAB, (Z.mul_comm c). apply Z.mul_mod_distr_l; lia. }
  assert (Eterm : Z.land (u32 (Z.shiftl c k)) huff_word_mask = 2 ^ k * lo).
  { rewrite huff_word_mask_ones, Z.land_ones by lia.
    unfold u32. change 4294967296 with (2 ^ 32).
    rewrite Z.mod_mod by lia. rewrite Z.shiftl_mul_pow2 by lia. exact Et. }
  assert (Eu : u32 (k + l) = k + l) by (unfold u32; apply Z.mod_small; lia).
  rewrite !Eu, !Eterm.
  rewrite Z.lor_comm, (lor_disjoint_add (2 ^ k * lo) cur k);
    [|lia|lia|rewrite Z.mul_comm; apply Z.mod_mul; lia].
  destruct (k + l >=? 32) eqn:E32.
  - rewrite Z.geb_leb in E32. apply Z.leb_le in E32.
    assert (Emod : (k + l) mod 32 = k + l - 32).
    { symmetry. apply (Z.mod_unique (k + l) 32 1); lia. }
    rewrite Emod.
    assert (Ecur2 : (if k + l >? 32
                     then Z.lor 0 (Z.shiftr c (u32 (l - (k + l - 32)))) else 0) = hi).
    { replace (l - (k + l - 32)) with (32 - k) by lia.
      unfold u32. rewrite (Z.mod_small (32 - k)) by lia.
      rewrite Z.lor_0_l, Z.shiftr_div_pow2 by lia. fold hi.
      destruct (k + l >? 32) eqn:E; [reflexivity|].
      rewrite Z.gtb_ltb in E. apply Z.ltb_ge in E.
      assert (l = 32 - k) by lia. unfold hi. rewrite <- H.
      symmetry. apply Z.div_small. lia. }
    rewrite Ecur2.
    assert (Hhi : hi < 2 ^ (k + l - 32)).
    { unfold hi. apply Z.div_lt_upper_bound; [lia|].
      rewrite <- Z.pow_add_r by lia. replace (32 - k + (k + l - 32)) with l by lia.
      lia. }
    split; [lia|]. split; [rewrite length_app; cbn [length]; lia|].
    split.
    { apply Forall_app. split; [assumption|]. constructor; [|constructor]. nia. }
    split; [lia|].
    rewrite !words_val_app. cbn [words_val length].
    rewrite length_app. cbn [length].
    replace (32 * Z.of_nat (length done + 1)) with (32 * n + 32) by lia.
    rewrite Z.pow_add_r by lia. fold W. fold n.
    rewrite <- HV, PL. clearbody lo hi. clearbody c. rewrite Ec, <- PAB. ring.
  - rewrite Z.geb_leb in E32. apply Z.leb_gt in E32.
    assert (Hgt : (k + l >? 32) = false) by (rewrite Z.gtb_ltb; apply Z.ltb_ge; lia).
    rewrite Hgt. rewrite (Z.mod_small (k + l)) by lia.
    assert (Elo : lo = c).
    { unfold lo. apply Z.mod_small.
      assert (2 ^ l <= 2 ^ (32 - k)) by (apply Z.pow_le_mono_r; lia). lia. }
    rewrite Elo in *.
    split; [lia|]. split; [lia|]. split; [assumption|].
    split.
    { rewrite Z.pow_add_r by lia. nia. }
    rewrite words_val_app. cbn [words_val]. fold W. fold n.
    rewrite <- HV, PL. ring.
Qed.

Lemma pack_fold table syms : forall ps vs,
  codes_ok table -> Forall is_byte syms -> pack_rel ps vs ->
  pack_rel (fold_left (pack_symbol table) syms ps)
           (fold_left (stream_step table) syms vs).
Proof.
  induction syms as [|s syms IH]; intros ps vs Hok Hs Hr; cbn [fold_left]; [assumption|].
  inversion Hs as [|? ? Hs1 Hs2]; subst.
  apply IH; auto. destruct (Hok s Hs1). now apply pack_symbol_rel.
Qed.

Lemma stream_fold table syms : forall V L,
  0 <= L -> codes_ok table -> Forall is_byte syms ->
  fold_left (stream_step table) syms (V, L) =
  (V + 2 ^ L * fst (code_stream table syms), L + snd (code_stream table syms)) /\
  0 <= snd (code_stream table syms) /\
  0 <= fst (code_stream table syms) < 2 ^ snd (code_stream table syms).
Proof.
  unfold code_stream.
  induction syms as [|s syms IH]; intros V L HL Hok Hs; cbn [fold_left fst snd].
  - split; [f_equal; lia|]. change (2 ^ 0) with 1. lia.
  - inversion Hs as [|? ? Hs1 Hs2]; subst.
    destruct (Hok s Hs1) as [Hl Hc].
    set (c := table_bits (get zero_table table s)) in *.
    set (l := table_len (get zero_table table s)) in *.
    assert (S1 : stream_step table (V, L) s = (V + c * 2 ^ L, L + l)) by reflexivity.
    assert (S0 : stream_step table (0, 0) s = (0 + c * 2 ^ 0, 0 + l)) by reflexivity.
    destruct (IH (V + c * 2 ^ L) (L + l) ltac:(lia) Hok Hs2) as (E1 & _ & _).
    destruct (IH (0 + c * 2 ^ 0) (0 + l) ltac:(lia) Hok Hs2) as (E2 & B1 & B2).
    rewrite S1, !S0, E1, !E2. cbn [fst snd].
    set (X := fst (fold_left (stream_step table) syms (0, 0))) in *.
    set (Y := snd (fold_left (stream_step table) syms (0, 0))) in *.
    change (2 ^ 0) with 1.
    assert (P1 : 0 < 2 ^ l) by (apply Z.pow_pos_nonneg; lia).
    assert (P2 : 0 < 2 ^ Y) by (apply Z.pow_pos_nonneg; lia).
    assert (P3 : 0 < 2 ^ L) by (apply Z.pow_pos_nonneg; lia).
    rewrite !Z.pow_add_r by lia. change (2 ^ 0) with 1.
    split; [f_equal; ring|]. split; [lia|]. nia.
Qed.

Lemma code_stream_app table pre s post :
  codes_ok table -> Forall is_byte pre -> is_byte s -> Forall is_byte post ->
  let '(Vp, Lp) := code_stream table pre in
  let e := get zero_table table s in
  0 <= Lp /\ 0 <= Vp < 2 ^ Lp /\
  code_stream table (pre ++ [s]) = (Vp + table_bits e * 2 ^ Lp, Lp + table_len e) /\
  exists R, 0 <= R /\
    fst (code_stream table (pre ++ s :: post)) =
    Vp + 2 ^ Lp * (table_bits e + 2 ^ table_len e * R) /\
    Lp + table_len e <= snd (code_stream table (pre ++ s :: post)).
Proof.
  intros Hok Hpre Hs Hpost.
  destruct (stream_fold table pre 0 0 ltac:(lia) Hok Hpre) as (_ & B1 & B2).
  destruct (code_stream table pre) as [Vp Lp] eqn:Ep. cbn [fst snd] in *.
  cbv zeta. split; [assumption|]. split; [assumption|].
  split.
  { unfold code_stream in *. rewrite fold_left_app, Ep. reflexivity. }
  destruct (Hok s Hs) as [Hl Hc].
  destruct (stream_fold table post (Vp + table_bits (get zero_table table s) * 2 ^ Lp)
              (Lp + table_len (get zero_table table s)) ltac:(lia) Hok Hpost)
    as (E & C1 & C2).
  exists (fst (code_stream table post)). split; [lia|].
  unfold code_stream at 1 3. rewrite fold_left_app. fold (code_stream table pre).
  rewrite Ep. cbn [fold_left]. unfold stream_step at 2 4. cbn [fst snd].
  rewrite E. cbn [fst snd]. rewrite Z.pow_add_r by lia. split; [ring|lia].
Qed.

Lemma words_window ws : forall i,
  Forall (fun w => 0 <= w < 2 ^ 32) ws -> (i + 1 < length ws)%nat ->
  nth i ws 0 + nth (i + 1) ws 0 * 2 ^ 32 =
  (words_val ws / 2 ^ (32 * Z.of_nat i)) mod 2 ^ 64.
Proof.
  induction ws as [|a ws IH]; intros i Hr Hi; [cbn in Hi; lia|].
  inversion Hr as [|? ? Ha Hr']; subst.
  destruct i as [|i].
  - destruct ws as [|b ws]; [cbn in Hi; lia|].
    inversion Hr' as [|? ? Hb _]; subst.
    cbn [nth Nat.add words_val]. change (2 ^ (32 * Z.of_nat 0)) with 1.
    rewrite Z.div_1_r.
    replace (a + 2 ^ 32 * (b + 2 ^ 32 * words_val ws))
      with (a + b * 2 ^ 32 + words_val ws * 2 ^ 64)
      by (change (2 ^ 64) with (2 ^ 32 * 2 ^ 32); ring).
    rewrite Z.mod_add by lia. symmetry. apply Z.mod_small.
    change (2 ^ 64) with (2 ^ 32 * 2 ^ 32). nia.
  - cbn [nth Nat.add words_val]. rewrite IH by (auto; cbn in Hi; lia).
    f_equal. rewrite Nat2Z.inj_succ.
    replace (32 * Z.succ (Z.of_nat i)) with (32 + 32 * Z.of_nat i) by lia.
    rewrite Z.pow_add_r, <- Z.div_div by lia. f_equal.
    rewrite Z.add_comm, Z.mul_comm, Z.div_add_l by lia.
    rewrite (Z.div_small a) by lia. lia.
Qed.

Lemma get_word_bytes ws : forall i t,
  (i < length ws)%nat -> 0 <= t < 4 ->
  get 0 (flat_map word_bytes ws) (4 * Z.of_nat i + t) =
  nth (Z.to_nat t) (word_bytes (nth i ws 0)) 0.
Proof.
  induction ws as [|w ws IH]; intros i t Hi Ht; [cbn in Hi; lia|].
  cbn [flat_map]. destruct i as [|i].
  - rewrite get_app_l by (cbn; lia). unfold get. cbn [nth]. f_equal.
  - rewrite get_app_r by (cbn [word_bytes length]; lia).
    cbn [word_bytes length nth].
    replace (4 * Z.of_nat (S i) + t - Z.of_nat 4) with (4 * Z.of_nat i + t) by lia.
    apply IH; [cbn in Hi; lia|assumption].
Qed.

Lemma word_bytes_value w :
  0 <= w < 2 ^ 32 ->
  nth 0 (word_bytes w) 0 + Z.shiftl (nth 1 (word_bytes w) 0) 8 +
  Z.shiftl (nth 2 (word_bytes w) 0) 16 + Z.shiftl (nth 3 (word_bytes w) 0) 24 = w.
Proof.
  intros H. unfold word_bytes. cbn [nth].
  change 0xff with (Z.ones 8). rewrite !Z.land_ones by lia.
  rewrite !Z.shiftr_div_pow2, !Z.shiftl_mul_pow2 by lia.
  change (2 ^ 8) with 256. change (2 ^ 16) with 65536. change (2 ^ 24) with 16777216.
  change (2 ^ 32) with 4294967296 in H.
  Z.div_mod_to_equations. lia.
Qed.

Lemma word_at_words pre ws w0 i :
  Z.of_nat (length pre) = 4 * w0 -> (i < length ws)%nat ->
  Forall (fun w => 0 <= w < 2 ^ 32) ws ->
  word_at (pre ++ flat_map word_bytes ws) (w0 + Z.of_nat i) = nth i ws 0.
Proof.
  intros Hp Hi Hr. unfold word_at.
  assert (G : forall t, 0 <= t < 4 ->
            get 0 (pre ++ flat_map word_bytes ws) (4 * (w0 + Z.of_nat i) + t) =
            nth (Z.to_nat t) (word_bytes (nth i ws 0)) 0).
  { intros t Ht. rewrite get_app_r by lia.
    replace (4 * (w0 + Z.of_nat i) + t - Z.of_nat (length pre))
      with (4 * Z.of_nat i + t) by lia.
    now apply get_word_bytes. }
  pose proof (G 0 ltac:(lia)) as G0. rewrite Z.add_0_r in G0.
  rewrite G0, (G 1), (G 2), (G 3) by lia.
  apply word_bytes_value.
  rewrite Forall_forall in Hr. apply Hr. now apply nth_In.
Qed.

Lemma mod_pow_mod' v a b :
  0 <= a <= b -> (v mod 2 ^ b) mod 2 ^ a = v mod 2 ^ a.
Proof.
  intros H. apply Z.mod_mod_divide. exists (2 ^ (b - a)).
  rewrite <- Z.pow_add_r by lia. f_equal. lia.
Qed.

(** Decoding at the first bit of a code word gives its symbol and moves to
    the first bit of the next one. *)
Lemma next_symbol table dt tr pre ws w0 size sp s sq :
  codes_ok table -> lookup_ok table dt tr ->
  Z.of_nat (length pre) = 4 * w0 -> 0 <= w0 ->
  Forall (fun w => 0 <= w < 2 ^ 32) ws ->
  words_val ws = fst (code_stream table (sp ++ s :: sq)) ->
  snd (code_stream table (sp ++ s :: sq)) < 32 * (Z.of_nat (length ws) - 1) ->
  size / 4 = w0 + Z.of_nat (length ws) ->
  Forall is_byte sp -> is_byte s -> Forall is_byte sq ->
  huff_decode_next_byte (pre ++ flat_map word_bytes ws) size dt tr
    (src_at w0 (snd (code_stream table sp))) =
  (s, src_at w0 (snd (code_stream table (sp ++ [s])))).
Proof.
  intros Hok Hlk Hpre Hw0 Hws HB HL Hsz Hsp Hs Hsq.
  pose proof (code_stream_app table sp s sq Hok Hsp Hs Hsq) as H.
  destruct (code_stream table sp) as [Vp Lp]. cbv zeta in H.
  destruct H as (HLp & HVp & E1 & R & HR & EB & HLt).
  rewrite E1. cbn [snd].
  destruct (Hok s Hs) as [Hl Hc].
  set (c := table_bits (get zero_table table s)) in *.
  set (l := table_len (get zero_table table s)) in *.
  unfold src_at at 1. rewrite huff_decode_next_byte_lookup.
  set (i := Lp / 32). set (k := Lp mod 32).
  assert (Hk : 0 <= k < 32) by (apply Z.mod_pos_bound; lia).
  assert (Hi : 0 <= i) by (apply Z.div_pos; lia).
  assert (ELp : Lp = 32 * i + k) by (apply Z.div_mod; lia).
  assert (Hi2 : i + 1 < Z.of_nat (length ws) - 0) by lia.
  rewrite Hsz. rewrite Z.geb_leb, (proj2 (Z.leb_gt _ _)) by lia.
  cbv zeta.
  replace i with (Z.of_nat (Z.to_nat i)) at 1 2 by lia.
  replace (w0 + Z.of_nat (Z.to_nat i) + 1) with (w0 + Z.of_nat (Z.to_nat i + 1)) by lia.
  rewrite !word_at_words by (auto; lia).
  rewrite Z.shiftl_mul_pow2 by lia.
  rewrite words_window by (auto; lia).
  rewrite Z2Nat.id by lia. rewrite HB, EB.
  set (B := Vp + 2 ^ Lp * (c + 2 ^ l * R)).
  assert (PL : 0 < 2 ^ l) by (apply Z.pow_pos_nonneg; lia).
  assert (Px : (B / 2 ^ (32 * i)) mod 2 ^ 64 / 2 ^ k mod 2 ^ l = c).
  { rewrite div_mod_pow2 by lia.
    rewrite (mod_pow_mod' _ (k + l) 64) by lia.
    rewrite <- div_mod_pow2 by lia.
    rewrite Z.div_div by (try apply Z.pow_pos_nonneg; lia).
    rewrite <- Z.pow_add_r, <- ELp by lia.
    unfold B. rewrite Z.add_comm, Z.mul_comm, Z.div_add_l by (apply Z.pow_nonzero; lia).
    rewrite (Z.div_small Vp) by lia. rewrite Z.add_0_r.
    rewrite (Z.mul_comm (2 ^ l)), Z.mod_add by lia. apply Z.mod_small. lia. }
  rewrite Z.shiftr_div_pow2 by lia.
  rewrite (Hlk s _ Hs); [| |exact Px].
  2:{ apply Z.div_pos; [|apply Z.pow_pos_nonneg; lia].
      apply Z.mod_pos_bound. lia. }
  fold l. unfold src_at. f_equal. f_equal.
  - rewrite Z.geb_leb. rewrite ELp.
    replace (32 * i + k + l) with (k + l + i * 32) by lia.
    rewrite Z.div_add by lia.
    destruct (32 <=? k + l) eqn:E.
    + apply Z.leb_le in E.
      assert ((k + l) / 32 = 1); [|lia].
      symmetry. apply (Z.div_unique (k + l) 32 1 (k + l - 32)); lia.
    + apply Z.leb_gt in E. rewrite Z.div_small by lia. lia.
  - rewrite ELp. replace (32 * i + k + l) with (k + l + i * 32) by lia.
    now rewrite Z.mod_add by lia.
Qed.

(** ** The Huffman decoder follows the base decoder *)

Lemma huff_decode_loop_hdec_n next size ch pixels0 fuel :
  forall px_len px_pos st n,
  0 < ch -> px_pos + Z.of_nat n * ch = px_len -> (n <= fuel)%nat ->
  huff_decode_loop fuel next size ch pixels0 px_len px_pos st =
  hdec_n next size ch pixels0 n px_pos st.
Proof.
  induction fuel as [|fuel IH]; intros px_len px_pos st n Hch Hn Hf.
  - assert (n = O) by lia. subst. reflexivity.
  - destruct n as [|n]; cbn [huff_decode_loop hdec_n].
    + rewrite (proj2 (Z.ltb_ge px_pos px_len)) by lia. reflexivity.
    + rewrite (proj2 (Z.ltb_lt px_pos px_len)) by nia. apply IH; lia.
Qed.

(** The chunk parser over any byte source that yields the bytes of [syms]
    in order. *)
Lemma decode_chunk_pos {R} (next : R -> Z * R) (pos : nat -> R) syms bound
      b1 j run index px :
  (forall i, (i < bound)%nat -> next (pos i) = (nth i syms 0, pos (S i))) ->
  (j + 4 <= bound)%nat ->
  decode_chunk next b1 (pos j) run index px =
  let '(k, r, ix, p) :=
    decode_chunk (fun i => (nth i syms 0, S i)) b1 j run index px in
  (pos k, r, ix, p).
Proof.
  intros H Hj. unfold decode_chunk.
  destruct (b1 =? QOI_OP_RGB).
  { rewrite !H by lia. reflexivity. }
  destruct (b1 =? QOI_OP_RGBA).
  { rewrite !H by lia. reflexivity. }
  destruct (Z.land b1 QOI_MASK_2 =? QOI_OP_INDEX); [reflexivity|].
  destruct (Z.land b1 QOI_MASK_2 =? QOI_OP_DIFF); [reflexivity|].
  destruct (Z.land b1 QOI_MASK_2 =? QOI_OP_LUMA).
  { rewrite !H by lia. reflexivity. }
  destruct (Z.land b1 QOI_MASK_2 =? QOI_OP_RUN); reflexivity.
Qed.

Lemma decode_chunk_advance syms b1 j run index px :
  let '(k, _, _, _) :=
    decode_chunk (fun i => (nth i syms 0, S i)) b1 j run index px in
  (j <= k <= j + 4)%nat.
Proof.
  unfold decode_chunk.
  destruct (b1 =? QOI_OP_RGB); [lia|].
  destruct (b1 =? QOI_OP_RGBA); [lia|].
  destruct (Z.land b1 QOI_MASK_2 =? QOI_OP_INDEX); [lia|].
  destruct (Z.land b1 QOI_MASK_2 =? QOI_OP_DIFF); [lia|].
  destruct (Z.land b1 QOI_MASK_2 =? QOI_OP_LUMA); [lia|].
  destruct (Z.land b1 QOI_MASK_2 =? QOI_OP_RUN); lia.
Qed.

Section HuffLoop.

(** The base stream, and a Huffman byte source that yields its bytes after
    the header in order. *)
Variable S0 : list Z.
Variable next_h : Z * Z -> Z * (Z * Z).
Variable src : nat -> Z * Z.
Variable size : Z.
Let syms := skipn 14 S0.
Hypothesis S0_header : (14 <= length S0)%nat.
Hypothesis next_h_src :
  forall j, (j < length syms)%nat -> next_h (src j) = (nth j syms 0, src (S j)).
Hypothesis src_inside : forall j, (j <= length syms)%nat -> fst (src j) * 4 < size.

Lemma next_byte_pos j :
  next_byte S0 (14 + Z.of_nat j) = (nth j syms 0, 14 + Z.of_nat (S j)).
Proof.
  unfold next_byte, get, syms. rewrite nth_skipn. f_equal; [f_equal|]; lia.
Qed.

Lemma decode_pixel_hrel ch pixels0 px_pos j st hs :
  hrel src j st hs -> (j + 5 <= length syms)%nat ->
  exists j', (j <= j' <= j + 5)%nat /\
    hrel src j' (decode_pixel S0 (Z.of_nat (length S0)) ch st)
            (huff_decode_pixel next_h size ch pixels0 px_pos hs).
Proof.
  intros (Hp & Hs & Hr & Hi & Hx & Hpx) Hj.
  assert (Ls : length syms = (length S0 - 14)%nat) by apply length_skipn.
  unfold decode_pixel, huff_decode_pixel. rewrite <- Hr.
  destruct (d_run st >? 0).
  - exists j. split; [lia|]. repeat split; cbn; auto; try congruence.
  - rewrite (proj2 (Z.ltb_lt (d_p st) _)) by lia.
    rewrite Hp, Hs, next_byte_pos, next_h_src by lia.
    cbn [fst]. rewrite Z.geb_leb, (proj2 (Z.leb_gt size _)) by (apply src_inside; lia).
    rewrite <- Hi, <- Hx.
    rewrite (decode_chunk_pos (next_byte S0) (fun i => 14 + Z.of_nat i) syms
               (length syms)) by (intros; try apply next_byte_pos; lia).
    rewrite (decode_chunk_pos next_h src syms (length syms))
      by (intros; try apply next_h_src; lia).
    pose proof (decode_chunk_advance syms (nth j syms 0) (S j) (d_run st)
                  (d_index st) (d_px st)) as Ha.
    destruct (decode_chunk _ (nth j syms 0) (S j) (d_run st) (d_index st) (d_px st))
      as [[[k r] ix] p].
    exists k. split; [lia|]. repeat split; cbn; auto; congruence.
Qed.

Lemma dec_n_hrel ch pixels0 bodylen : forall k j st hs px_pos,
  (bodylen + 5 <= length syms)%nat ->
  hrel src j st hs ->
  (forall i, (i <= k)%nat ->
     d_p (dec_n S0 (Z.of_nat (length S0)) ch i st) <= 14 + Z.of_nat bodylen) ->
  exists j',
    hrel src j' (dec_n S0 (Z.of_nat (length S0)) ch k st)
            (hdec_n next_h size ch pixels0 k px_pos hs).
Proof.
  induction k as [|k IH]; intros j st hs px_pos Hb Hrel Hbound; cbn [dec_n hdec_n].
  - now exists j.
  - pose proof (Hbound O ltac:(lia)) as H0. cbn [dec_n] in H0.
    assert (Hj : (j <= bodylen)%nat) by (destruct Hrel as (Hp & _); lia).
    destruct (decode_pixel_hrel ch pixels0 px_pos j st hs Hrel ltac:(lia))
      as (j' & _ & Hrel').
    apply (IH j'); auto.
    intros i Hi. apply (Hbound (S i)). lia.
Qed.

End HuffLoop.

Lemma decode_pixel_p_mono bytes cl ch st :
  d_p st <= d_p (decode_pixel bytes cl ch st).
Proof.
  unfold decode_pixel.
  destruct (d_run st >? 0); [cbn; lia|].
  destruct (d_p st <? cl); [|cbn; lia].
  unfold next_byte, decode_chunk.
  destruct (_ =? QOI_OP_RGB); [cbn; lia|].
  destruct (_ =? QOI_OP_RGBA); [cbn; lia|].
  destruct (_ =? QOI_OP_INDEX); [cbn; lia|].
  destruct (_ =? QOI_OP_DIFF); [cbn; lia|].
  destruct (_ =? QOI_OP_LUMA); [cbn; lia|].
  destruct (_ =? QOI_OP_RUN); cbn; lia.
Qed.

Lemma dec_n_p_mono bytes cl ch k : forall st,
  d_p st <= d_p (dec_n bytes cl ch k st).
Proof.
  induction k as [|k IH]; intros st; cbn [dec_n]; [lia|].
  pose proof (decode_pixel_p_mono bytes cl ch st). specialize (IH (decode_pixel bytes cl ch st)).
  lia.
Qed.

Lemma dec_n_p_le bytes cl ch i k st :
  (i <= k)%nat -> d_p (dec_n bytes cl ch i st) <= d_p (dec_n bytes cl ch k st).
Proof.
  intros H. replace k with (i + (k - i))%nat by lia.
  rewrite dec_n_add. apply dec_n_p_mono.
Qed.

(** ** The base stream inside the Huffman encoder *)

Lemma put_byte_bytes (a b : outbuf) v :
  a = b /\ Forall is_byte (fst a) ->
  put_byte a v = put_byte b v /\ Forall is_byte (fst (put_byte a v)).
Proof.
  intros [-> H]. split; [reflexivity|]. unfold put_byte. cbn [fst].
  apply Forall_app. split; [assumption|]. constructor; [|constructor].
  unfold u8, is_byte. apply Z.mod_pos_bound. lia.
Qed.

Lemma header_bytes_bytes d cs :
  is_byte (channels d) -> is_byte cs -> Forall is_byte (header_bytes d cs).
Proof.
  intros Hc Hs. unfold header_bytes.
  repeat (constructor; [first [apply mod_byte | assumption | unfold is_byte; lia]|]).
  constructor.
Qed.

(** The base stream of a valid image: header, chunks, padding; all bytes;
    and the run of the decoder loop over it, wherever the chunk data is
    said to end after the chunks. *)
Lemma qoi_encode_stream QM P D :
  valid_desc D -> Forall is_byte P -> QM (encode_max_size D) = true ->
  exists body,
    qoi_encode QM (Some P) (Some D) true =
    Some (header_bytes D (colorspace D) ++ body ++ qoi_padding,
          14 + Z.of_nat (length body) + 8) /\
    Forall is_byte body /\
    forall t cl chd,
      14 + Z.of_nat (length body) <= cl ->
      let sd := dec_n (header_bytes D (colorspace D) ++ body ++ t) cl chd
                      (Z.to_nat (width D * height D))
                      (mk_dec 14 0 zero_index start_px []) in
      d_p sd = 14 + Z.of_nat (length body) /\
      d_pixels sd =
      flat_map (px_bytes chd)
               (input_pxs P (channels D) (Z.to_nat (width D * height D)) 0).
Proof.
  intros Hv HP HQ.
  pose proof (valid_desc_pixels D Hv) as Hwh. unfold QOI_PIXELS_MAX in Hwh.
  pose proof Hv as (Hw & Hh & Hc & Hs & Hm).
  assert (Hch : 0 < channels D) by lia.
  set (n := Z.to_nat (width D * height D)).
  set (hdr := header_bytes D (colorspace D)).
  set (px_len := width D * height D * channels D).
  destruct (sim_n P (channels D) (px_len - channels D) HP Hch n 0
                  (enc_init (hdr, 14)) (enc_init_inv _ _ _)
                  ltac:(unfold px_len, n; nia) ltac:(unfold n; lia))
    as (Hinv' & Hrun' & body & Hbody & Hbound & Hdec).
  set (se' := enc_n put_byte P (channels D) (px_len - channels D) n 0
                    (enc_init (hdr, 14))) in *.
  cbn [enc_init e_out e_run fst snd] in Hbody, Hbound.
  exists body.
  assert (Henc : encode_pixels put_byte (hdr, 14) P D = se').
  { unfold encode_pixels. rewrite pixel_len_valid by (auto; lia). fold px_len.
    apply encode_loop_enc_n; unfold px_len, n; nia. }
  assert (Hout : e_out se' = (hdr ++ body, 14 + Z.of_nat (length body))).
  { rewrite (surjective_pairing (e_out se')), (inv_p _ _ Hinv'), Hbody.
    f_equal. rewrite length_app. unfold hdr. cbn [header_bytes length]. lia. }
  split; [|split].
  - unfold qoi_encode. rewrite (valid_desc_args D Hv), HQ. cbn [negb].
    rewrite write_header_bytes. fold hdr. rewrite Henc, fold_padding, Hout.
    cbn [fst snd]. now rewrite <- app_assoc.
  - assert (Hb : Forall is_byte (fst (e_out se'))).
    { rewrite <- Henc. unfold encode_pixels.
      pose proof (encode_loop_rel
                    (fun a b : outbuf => a = b /\ Forall is_byte (fst a))
                    put_byte put_byte put_byte_bytes
                    (Z.to_nat (pixel_len D (channels D))) P (channels D)
                    (pixel_len D (channels D))
                    (pixel_len D (channels D) - channels D) 0
                    (enc_init (hdr, 14)) (enc_init (hdr, 14))) as [[_ H] _].
      { repeat split; auto. cbn [enc_init e_out fst]. unfold hdr.
        apply header_bytes_bytes; unfold is_byte; lia. }
      exact H. }
    rewrite Hout in Hb. cbn [fst] in Hb. apply Forall_app in Hb. tauto.
  - intros t cl chd Hcl.
    specialize (Hdec t cl chd (mk_dec 14 0 zero_index start_px [])).
    rewrite Hout in Hdec. cbn [fst snd] in Hdec.
    rewrite <- app_assoc in Hdec.
    destruct Hdec as (Hsim & Hpix).
    + rewrite length_app. unfold hdr. cbn [header_bytes length]. lia.
    + split; [reflexivity|]. split; [reflexivity|]. split; [reflexivity|].
      apply index_rel_refl. reflexivity.
    + cbn [enc_init e_run e_px_prev Z.to_nat Nat.add repeat app d_pixels] in Hpix, Hsim.
      cbv zeta. split; [|exact Hpix].
      destruct Hsim as (Hp & _). rewrite Hp, Hout. reflexivity.
Qed.

(** The two outcomes of the Huffman stage: the base stream, or the header
    with the flag, the codebook, the bytes up to the next word boundary and
    the packed words. *)
Lemma huff_pack_cases malloc junk D table S n H m :
  huff_pack malloc junk D table S n = Some (H, m) ->
  (H = S /\ m = n) \/
  (Forall (fun e => table_len e <= 32) table /\
   let hp := 14 + Z.of_nat (length (flat_map code_entry table)) in
   exists done cur bitIdx,
     fold_left (pack_symbol table) (skipn 14 S) ([], 0, 0) = (done, cur, bitIdx) /\
     H = (header_bytes D (Z.lor (colorspace D) QOI_HUFF_ENCODED_BIT) ++
          flat_map code_entry table ++
          map (fun i => u8 (junk i)) (zrange hp (Z.to_nat (word_index hp * 4 - hp)))) ++
         flat_map word_bytes (done ++ [cur; 0]) /\
     m = (word_index hp + Z.of_nat (length done) + 1) * 4 + 4).
Proof.
  unfold huff_pack. intros E.
  destruct (expected_size table ((1024 + 256) * 8)) as [e|] eqn:Ee.
  2:{ injection E as <- <-. now left. }
  destruct (_ && _).
  { injection E as <- <-. now left. }
  destruct (negb _); [discriminate|].
  right. split; [eapply expected_size_some_inv; eassumption|].
  rewrite write_header_bytes, fold_write_code in E. cbn [fst snd] in E.
  unfold QOI_HEADER_SIZE in E. change (Z.to_nat 14) with 14%nat in E.
  destruct (fold_left (pack_symbol table) (skipn 14 S) ([], 0, 0))
    as [[done cur] bitIdx].
  injection E as <- <-. exists done, cur, bitIdx.
  split; [reflexivity|]. split; [|reflexivity].
  rewrite <- !app_assoc. reflexivity.
Qed.

(** ** Decoding the packed stream *)

(** The code table of a Huffman stream: every code word has 1 to 32 bits
    and is the way to its symbol in one tree. *)
Lemma build_table_tree histo :
  Forall (fun e => table_len e <= 32) (build_table histo) ->
  exists T,
    Permutation (leaves T) (zrange 0 256) /\
    (forall p s, path T p s -> (length p <= 32)%nat) /\
    length (build_table histo) = 256%nat /\
    (forall p s, path T p s ->
       table_len (get zero_table (build_table histo) s) = Z.of_nat (length p) /\
       table_bits (get zero_table (build_table histo) s) = bits_val p) /\
    codes_ok (build_table histo).
Proof.
  intros Hall.
  destruct (build_table_codes histo) as (T & HT & HL & Hp).
  assert (Hd : forall p s, path T p s -> (length p <= 32)%nat).
  { intros p s Hps. destruct (Hp p s Hps) as [El _].
    pose proof (path_symbol_range T HT p s Hps) as Hs.
    rewrite Forall_forall in Hall.
    specialize (Hall (get zero_table (build_table histo) s)).
    unfold get in Hall at 1. specialize (Hall ltac:(apply nth_In; lia)). lia. }
  exists T. split; [assumption|]. split; [assumption|]. split; [assumption|].
  split.
  - intros p s Hps. destruct (Hp p s Hps) as [El Eb]. split; [assumption|].
    apply Eb. now apply (Hd p s).
  - intros s Hs.
    assert (Hin : In s (leaves T)).
    { apply (Permutation_in _ (Permutation_sym HT)). apply in_zrange. lia. }
    destruct (in_path _ _ Hin) as (p & Hps).
    destruct (Hp p s Hps) as [El Eb]. rewrite El, (Eb (Hd p s Hps)).
    pose proof (path_nonempty T HT p s Hps). pose proof (Hd p s Hps).
    split; [lia|apply bits_val_bound].
Qed.

Lemma word_index_bounds p : 0 <= p -> p <= word_index p * 4 < p + 4.
Proof.
  intros Hp. unfold word_index.
  pose proof (Z.div_mod p 4 ltac:(lia)) as E.
  pose proof (Z.mod_pos_bound p 4 ltac:(lia)) as B.
  destruct (p mod 4 =? 0) eqn:E0.
  - apply Z.eqb_eq in E0. lia.
  - apply Z.eqb_neq in E0. lia.
Qed.

Lemma length_zrange lo n : length (zrange lo n) = n.
Proof. unfold zrange. now rewrite length_map, length_seq. Qed.

Lemma flagged_colorspace cs :
  cs = 0 \/ cs = 1 ->
  is_byte (Z.lor cs QOI_HUFF_ENCODED_BIT) /\
  (Z.land (Z.lor cs QOI_HUFF_ENCODED_BIT) QOI_HUFF_ENCODED_BIT =? 0) = false /\
  u8 (Z.land (Z.lor cs QOI_HUFF_ENCODED_BIT) (Z.lnot QOI_HUFF_ENCODED_BIT)) = cs.
Proof.
  intros [-> | ->]; (split; [|split; reflexivity]).
  - change (is_byte 128). unfold is_byte. lia.
  - change (is_byte 129). unfold is_byte. lia.
Qed.

(** The packed words against the bit stream of the symbols. *)
Lemma pack_words table syms done cur bitIdx :
  codes_ok table -> Forall is_byte syms ->
  fold_left (pack_symbol table) syms ([], 0, 0) = (done, cur, bitIdx) ->
  Forall (fun w => 0 <= w < 2 ^ 32) (done ++ [cur; 0]) /\
  words_val (done ++ [cur; 0]) = fst (code_stream table syms) /\
  snd (code_stream table syms) < 32 * (Z.of_nat (length (done ++ [cur; 0])) - 1) /\
  snd (code_stream table syms) / 32 <= Z.of_nat (length done).
Proof.
  intros Hok Hs E.
  pose proof (pack_fold table syms ([], 0, 0) (0, 0) Hok Hs) as H.
  fold (code_stream table syms) in H. rewrite E in H.
  destruct H as (Hk & HL & Hd & Hc & HV).
  { cbn. repeat split; try lia. constructor. }
  assert (2 ^ bitIdx < 2 ^ 32) by (apply Z.pow_lt_mono_r; lia).
  split; [|split; [|split]].
  - apply Forall_app. split; [assumption|].
    constructor; [lia|]. constructor; [lia|constructor].
  - rewrite <- HV. rewrite !words_val_app. cbn [words_val]. lia.
  - rewrite HL, length_app. cbn [length]. lia.
  - rewrite HL. apply Z.lt_succ_r. apply Z.div_lt_upper_bound; lia.
Qed.

Lemma code_stream_prefix_le table syms j :
  codes_ok table -> Forall is_byte syms ->
  0 <= snd (code_stream table (firstn j syms)) <= snd (code_stream table syms).
Proof.
  intros Hok Hs.
  assert (H1 : Forall is_byte (firstn j syms)).
  { rewrite <- (firstn_skipn j syms) in Hs. apply Forall_app in Hs. tauto. }
  assert (H2 : Forall is_byte (skipn j syms)).
  { rewrite <- (firstn_skipn j syms) in Hs. apply Forall_app in Hs. tauto. }
  destruct (stream_fold table (firstn j syms) 0 0 ltac:(lia) Hok H1) as (_ & B1 & _).
  destruct (stream_fold table (skipn j syms)
              (fst (code_stream table (firstn j syms)))
              (snd (code_stream table (firstn j syms))) B1 Hok H2) as (E & B2 & _).
  rewrite <- surjective_pairing in E.
  split; [assumption|].
  rewrite <- (firstn_skipn j syms) at 2.
  unfold code_stream at 2. rewrite fold_left_app.
  fold (code_stream table (firstn j syms)). rewrite E. cbn [snd]. lia.
Qed.

(** A Huffman stream is decoded to the pixels that the base decoder gives
    for the base stream it was packed from. *)
Lemma huff_stream_decodes T table QM' pixels0 junk D body done cur bitIdx req d0 PX :
  Permutation (leaves T) (zrange 0 256) ->
  (forall p s, path T p s -> (length p <= 32)%nat) ->
  length table = 256%nat ->
  (forall p s, path T p s ->
     table_len (get zero_table table s) = Z.of_nat (length p) /\
     table_bits (get zero_table table s) = bits_val p) ->
  codes_ok table ->
  valid_desc D ->
  Forall is_byte body ->
  (forall cl chd, 14 + Z.of_nat (length body) <= cl ->
     let sd := dec_n (header_bytes D (colorspace D) ++ body ++ qoi_padding) cl chd
                     (Z.to_nat (width D * height D))
                     (mk_dec 14 0 zero_index start_px []) in
     d_p sd = 14 + Z.of_nat (length body) /\ d_pixels sd = PX chd) ->
  fold_left (pack_symbol table) (body ++ qoi_padding) ([], 0, 0) = (done, cur, bitIdx) ->
  req = 0 \/ req = 3 \/ req = 4 ->
  QM' (pixel_len D (out_channels D req)) = true ->
  let hp := 14 + Z.of_nat (length (flat_map code_entry table)) in
  let H := (header_bytes D (Z.lor (colorspace D) QOI_HUFF_ENCODED_BIT) ++
            flat_map code_entry table ++
            map (fun i => u8 (junk i)) (zrange hp (Z.to_nat (word_index hp * 4 - hp)))) ++
           flat_map word_bytes (done ++ [cur; 0]) in
  let m := (word_index hp + Z.of_nat (length done) + 1) * 4 + 4 in
  qoi_huff_decode QM' pixels0 (Some H) m (Some d0) req =
  (Some (PX (out_channels D req)), Some D).
Proof.
  intros HT Hd Ltab Hcodes Hok Hv Hbody Hbase Epack Hreq HQ' hp H m.
  pose proof (valid_desc_pixels D Hv) as Hwh. unfold QOI_PIXELS_MAX in Hwh.
  pose proof Hv as (Hw & Hh & Hc & Hs & Hm).
  set (syms := body ++ qoi_padding) in *.
  set (S0 := header_bytes D (colorspace D) ++ syms) in *.
  assert (Hsyms : Forall is_byte syms).
  { apply Forall_app. split; [assumption|].
    unfold qoi_padding, is_byte. repeat constructor; lia. }
  destruct (pack_words table syms done cur bitIdx Hok Hsyms Epack)
    as (Hws & HV & HL & Hdiv).
  set (ws := done ++ [cur; 0]) in *.
  set (w0 := word_index hp) in *.
  assert (Hhp : 14 <= hp) by (unfold hp; lia).
  pose proof (word_index_bounds hp ltac:(lia)) as Hw0. fold w0 in Hw0.
  set (cb := flat_map code_entry table) in *.
  set (pad := map (fun i => u8 (junk i)) (zrange hp (Z.to_nat (w0 * 4 - hp)))) in *.
  set (hdr' := header_bytes D (Z.lor (colorspace D) QOI_HUFF_ENCODED_BIT)) in *.
  assert (Lhdr : length hdr' = 14%nat) by reflexivity.
  assert (Lpre : Z.of_nat (length (hdr' ++ cb ++ pad)) = 4 * w0).
  { rewrite !length_app, Lhdr. unfold pad. rewrite length_map, length_zrange.
    unfold hp in *. lia. }
  assert (Lws : length ws = (length done + 2)%nat).
  { unfold ws. rewrite length_app. cbn [length]. lia. }
  assert (Hm4 : m / 4 = w0 + Z.of_nat (length ws)).
  { unfold m. rewrite Lws.
    replace ((w0 + Z.of_nat (length done) + 1) * 4 + 4)
      with ((w0 + Z.of_nat (length done + 2)) * 4) by lia.
    apply Z.div_mul. lia. }
  destruct (flagged_colorspace (colorspace D) Hs) as (Fb & Fl & Fm).
  set (chd := out_channels D req) in *.
  assert (Hchd : chd = 3 \/ chd = 4).
  { unfold chd, out_channels. destruct Hreq as [->|[->| ->]]; cbn; auto. }
  unfold qoi_huff_decode.
  replace (decode_args_invalid m req) with false.
  2:{ unfold decode_args_invalid, QOI_HEADER_SIZE, sizeof_qoi_padding. symmetry.
      apply orb_false_intro.
      - destruct Hreq as [->|[->| ->]]; reflexivity.
      - apply Z.ltb_ge. unfold m. lia. }
  assert (EH : H = hdr' ++ (cb ++ pad ++ flat_map word_bytes ws)).
  { unfold H. now rewrite <- !app_assoc. }
  rewrite EH at 1. unfold hdr' at 1.
  rewrite read_header_written; try lia; [|unfold is_byte; lia|assumption].
  cbv zeta. cbn [colorspace width height channels].
  rewrite Fl, Fm.
  replace (mk_desc (width D) (height D) (channels D) (colorspace D)) with D
    by (now destruct D).
  rewrite (header_invalid_valid D Hv).
  change (if req =? 0 then channels D else req) with chd.
  rewrite HQ'. cbn [negb].
  unfold qoi_huff_decode_buffer.
  (* the codebook *)
  destruct (read_codebook_ok T HT Hd table Ltab Hcodes H m 256 0
              (repeat 0 2048) (repeat zero_dnode 512) 0 (fun _ => []) 14
              ltac:(lia) ltac:(lia) (dcore_init T))
    as (dt & tr & nf & lab & Ecb & Hdc & Hds & Hdl).
  { intros s p v Hs0. lia. }
  { intros s p Hs0. lia. }
  { cbn [Z.to_nat skipn]. rewrite EH. fold cb.
    pose proof (holds_app hdr' cb (pad ++ flat_map word_bytes ws)) as Hcb.
    rewrite Lhdr in Hcb. exact Hcb. }
  { lia. }
  { cbn [Z.to_nat skipn]. fold cb. fold hp. unfold m. lia. }
  rewrite Ecb. cbn [Z.to_nat skipn]. fold cb. fold hp. fold w0.
  assert (Hlk : lookup_ok table dt tr).
  { intros s x Hs0 Hx Hmod.
    assert (Hin : In s (leaves T)).
    { apply (Permutation_in _ (Permutation_sym HT)). apply in_zrange. lia. }
    destruct (in_path _ _ Hin) as (p & Hps).
    destruct (Hcodes p s Hps) as [El Eb]. rewrite El in *. rewrite Eb in Hmod.
    eapply huff_lookup_ok; eassumption. }
  (* the loop *)
  rewrite pixel_len_valid by (auto; lia).
  set (total := Z.to_nat (width D * height D)).
  rewrite (huff_decode_loop_hdec_n _ _ _ _ _ _ _ _ total) by (unfold total; nia).
  set (next := huff_decode_next_byte H m dt tr).
  set (src := fun j : nat => src_at w0 (snd (code_stream table (firstn j syms)))).
  assert (LS0 : length S0 = (14 + length syms)%nat).
  { unfold S0. rewrite length_app. reflexivity. }
  assert (Esk : skipn 14 S0 = syms).
  { unfold S0. change 14%nat with (length (header_bytes D (colorspace D))).
    rewrite skipn_app, Nat.sub_diag, skipn_all. reflexivity. }
  assert (Lsyms : length syms = (length body + 8)%nat).
  { unfold syms. rewrite length_app. reflexivity. }
  destruct (dec_n_hrel S0 next src m ltac:(lia)) with
    (ch := chd) (pixels0 := pixels0) (bodylen := length body) (k := total)
    (j := O) (st := mk_dec 14 0 zero_index start_px [])
    (hs := mk_hdec (w0, 0) 0 zero_index start_px []) (px_pos := 0)
    as (j' & Hrel).
  - rewrite Esk. intros j Hj. unfold next, src.
    rewrite (firstn_snoc syms j 0 Hj).
    rewrite <- (firstn_skipn j syms) in HV, HL, Hsyms.
    rewrite (skipn_nth_cons syms j 0 Hj) in HV, HL, Hsyms.
    apply Forall_app in Hsyms as [Hs1 Hs2].
    inversion Hs2 as [|? ? Hs3 Hs4]; subst.
    rewrite EH, app_assoc, app_assoc, <- (app_assoc hdr').
    apply (next_symbol table dt tr (hdr' ++ cb ++ pad) ws w0 m
             (firstn j syms) (nth j syms 0) (skipn (S j) syms)); auto; lia.
  - rewrite Esk. intros j Hj. unfold src, src_at. cbn [fst].
    pose proof (code_stream_prefix_le table syms j Hok Hsyms) as Hle.
    assert (snd (code_stream table (firstn j syms)) / 32 <= Z.of_nat (length done)).
    { etransitivity; [|exact Hdiv]. apply Z.div_le_mono; lia. }
    unfold m. lia.
  - rewrite Esk. lia.
  - split; [reflexivity|]. split; [|repeat split].
    cbn [h_src]. unfold src, src_at, code_stream. cbn [firstn fold_left snd].
    change (0 / 32) with 0. change (0 mod 32) with 0. f_equal. lia.
  - intros i Hi.
    destruct (Hbase (Z.of_nat (length S0)) chd) as [Hp _].
    { rewrite LS0, Lsyms. lia. }
    fold syms in Hp. fold S0 in Hp. fold total in Hp. rewrite <- Hp.
    now apply dec_n_p_le.
  - destruct Hrel as (_ & _ & _ & _ & _ & Hpx).
    destruct (Hbase (Z.of_nat (length S0)) chd) as [_ Hpix].
    { rewrite LS0, Lsyms. lia. }
    fold syms in Hpix. fold S0 in Hpix. fold total in Hpix.
    rewrite <- Hpx, Hpix. reflexivity.
Qed.

(** ** The Huffman layer, end to end *)

Lemma qoi_huff_encode_some QM malloc junk P D H m :
  qoi_huff_encode QM malloc junk (Some P) (Some D) true = Some (H, m) ->
  QM (encode_max_size D) = true.
Proof.
  unfold qoi_huff_encode. destruct (encode_args_invalid D); [discriminate|].
  destruct (QM (encode_max_size D)); [reflexivity|discriminate].
Qed.

(** Whatever [qoi_huff_encode] returns for a valid image, base stream or
    Huffman stream, [qoi_huff_decode] gives back the pixels of the image in
    the requested layout, and the descriptor. *)
Lemma huff_roundtrip_core QM malloc junk QM' pixels0 P D H m req d0 :
  valid_desc D -> Forall is_byte P ->
  qoi_huff_encode QM malloc junk (Some P) (Some D) true = Some (H, m) ->
  req = 0 \/ req = 3 \/ req = 4 ->
  QM' (pixel_len D (out_channels D req)) = true ->
  qoi_huff_decode QM' pixels0 (Some H) m (Some d0) req =
  (Some (flat_map (px_bytes (out_channels D req))
                  (input_pxs P (channels D) (Z.to_nat (width D * height D)) 0)),
   Some D).
Proof.
  intros Hv HP Hhuff Hreq HQ'.
  pose proof (qoi_huff_encode_some _ _ _ _ _ _ _ Hhuff) as HQ.
  destruct (qoi_encode_stream QM P D Hv HP HQ) as (body & Henc & Hbody & Hbase).
  rewrite (qoi_huff_encode_base QM malloc junk P D _ _ Hv Henc) in Hhuff.
  assert (Esk : skipn 14 (header_bytes D (colorspace D) ++ body ++ qoi_padding)
                = body ++ qoi_padding).
  { change 14%nat with (length (header_bytes D (colorspace D))).
    now rewrite skipn_app, Nat.sub_diag, skipn_all. }
  rewrite Esk in Hhuff.
  remember (build_table (byte_histogram (body ++ qoi_padding))) as table eqn:Etab.
  destruct (huff_pack_cases _ _ _ _ _ _ _ _ Hhuff) as [[-> ->]|[Hall Hc]].
  - rewrite huff_decode_unflagged.
    + destruct (encode_decode_core QM P D Hv HP HQ) as (body' & Henc' & _ & Hdec).
      rewrite Henc in Henc'. injection Henc' as E1 E2.
      apply app_inv_tail in E1. subst body'.
      apply Hdec; auto.
    + destruct Hv as (_ & _ & _ & Hs & _).
      change (get 0 (header_bytes D (colorspace D) ++ body ++ qoi_padding) 13)
        with (u8 (colorspace D)).
      destruct Hs as [-> | ->]; cbn; lia.
  - cbv zeta in Hc. destruct Hc as (done & cur & bitIdx & Epack & -> & ->).
    rewrite Esk in Epack.
    rewrite Etab in Hall.
    destruct (build_table_tree _ Hall) as (T & HT & Hd & Ltab & Hcodes & Hok).
    rewrite <- Etab in *.
    apply (huff_stream_decodes T table QM' pixels0 junk D body done cur bitIdx req d0
             (fun chd => flat_map (px_bytes chd)
                (input_pxs P (channels D) (Z.to_nat (width D * height D)) 0)));
      auto.
    intros cl chd Hcl. apply (Hbase qoi_padding cl chd Hcl).
Qed.


Lemma spread_image_bytes : Forall is_byte spread_image.
Proof.
  apply Forall_forall. intros x Hx. unfold spread_image in Hx.
  apply in_map_iff in Hx as (i & <- & Hi). apply in_seq in Hi.
  unfold is_byte. lia.
Qed.




(** ** Codebook and packer on their own *)

Lemma build_table_prefix_free_witness :
  0 <= table_bits (get zero_table (build_table flat_histo) 0)
    < 2 ^ table_len (get zero_table (build_table flat_histo) 0) /\
  (table_bits (get zero_table (build_table flat_histo) 1)
     mod 2 ^ table_len (get zero_table (build_table flat_histo) 0) =
   table_bits (get zero_table (build_table flat_histo) 0) -> 0 = 1).
Proof.
  apply (build_table_prefix_free flat_histo 0 1).
  - lia.
  - lia.
  - vm_compute. split; discriminate.
Defined.

Lemma Forall_forallb {A} (f : A -> bool) (P : A -> Prop) l :
  (forall x, f x = true -> P x) -> forallb f l = true -> Forall P l.
Proof.
  intros H E. apply Forall_forall. intros x Hx. apply H.
  rewrite forallb_forall in E. now apply E.
Qed.

Lemma codes_ok_check table :
  length table = 256%nat ->
  forallb (fun e =>
             (1 <=? table_len e) && (table_len e <=? 32) &&
             (0 <=? table_bits e) && (table_bits e <? 2 ^ table_len e))
          table = true ->
  codes_ok table.
Proof.
  intros L E s Hs. rewrite forallb_forall in E.
  specialize (E (get zero_table table s)). unfold get in E at 1.
  specialize (E ltac:(apply nth_In; lia)).
  repeat (apply andb_true_iff in E as [E ?]).
  repeat match goal with
         | X : (_ <=? _) = true |- _ => apply Z.leb_le in X
         | X : (_ <? _) = true |- _ => apply Z.ltb_lt in X
         end.
  lia.
Qed.

Lemma word_at_nonneg data i : Forall is_byte data -> 0 <= word_at data i.
Proof.
  intros H. unfold word_at.
  pose proof (get_byte data (4 * i) H) as H0.
  pose proof (get_byte data (4 * i + 1) H) as H1.
  pose proof (get_byte data (4 * i + 2) H) as H2.
  pose proof (get_byte data (4 * i + 3) H) as H3.
  unfold is_byte in *.
  assert (0 <= Z.shiftl (get 0 data (4 * i + 1)) 8) by (apply Z.shiftl_nonneg; lia).
  assert (0 <= Z.shiftl (get 0 data (4 * i + 2)) 16) by (apply Z.shiftl_nonneg; lia).
  assert (0 <= Z.shiftl (get 0 data (4 * i + 3)) 24) by (apply Z.shiftl_nonneg; lia).
  lia.
Qed.

Lemma read_codebook_decodes_of_table table histo bytes size p :
  table = build_table histo ->
  Forall (fun e => table_len e <= 32) table ->
  holds bytes p (flat_map code_entry table) -> 0 <= p ->
  p + Z.of_nat (length (flat_map code_entry table)) <= size ->
  exists dt tr nf,
    read_codebook 256 0 bytes size (repeat 0 2048, repeat zero_dnode 512, 0, p) =
    Some (dt, tr, nf, p + Z.of_nat (length (flat_map code_entry table))) /\
    0 <= nf <= 511 /\
    forall data dsize wordIdx bitIdx s,
      Forall is_byte data -> wordIdx + 1 < dsize / 4 -> 0 <= s < 256 ->
      Z.shiftr (word_at data wordIdx + Z.shiftl (word_at data (wordIdx + 1)) 32)
               bitIdx mod 2 ^ table_len (get zero_table table s) =
        table_bits (get zero_table table s) ->
      huff_decode_next_byte data dsize dt tr (wordIdx, bitIdx) =
      (s, (if bitIdx + table_len (get zero_table table s) >=? 32
           then wordIdx + 1 else wordIdx,
           (bitIdx + table_len (get zero_table table s)) mod 32)).
Proof.
  intros Etab Hall Hh Hp Hsz. rewrite Etab in Hall.
  destruct (build_table_tree histo Hall) as (T & HT & Hd & Ltab & Hcodes & Hok).
  rewrite <- Etab in *.
  destruct (read_codebook_ok T HT Hd table Ltab Hcodes bytes size 256 0
              (repeat 0 2048) (repeat zero_dnode 512) 0 (fun _ => []) p
              ltac:(lia) ltac:(lia) (dcore_init T))
    as (dt & tr & nf & lab & Ecb & Hdc & Hds & Hdl); auto.
  { intros s q v Hs0. lia. }
  { intros s q Hs0. lia. }
  exists dt, tr, nf. split; [exact Ecb|]. split.
  - split; [apply (dc_nf _ _ _ _ _ _ Hdc)|].
    apply (dcore_count_gen T HT lab nf (dc_nf _ _ _ _ _ _ Hdc)).
    + intros q Hq. apply (dcore_sub T _ _ _ _ _ q Hdc Hq).
    + apply (dc_inj _ _ _ _ _ _ Hdc).
  - intros data dsize wordIdx bitIdx s Hdata Hw Hs0 Hmod.
    assert (Hin : In s (leaves T)).
    { apply (Permutation_in _ (Permutation_sym HT)). apply in_zrange. lia. }
    destruct (in_path _ _ Hin) as (q & Hqs).
    destruct (Hcodes q s Hqs) as [El Eb]. rewrite El in *. rewrite Eb in Hmod.
    rewrite huff_decode_next_byte_lookup.
    rewrite Z.geb_leb, (proj2 (Z.leb_gt _ _)) by lia. cbv zeta.
    assert (Hx : 0 <= Z.shiftr (word_at data wordIdx
                                + Z.shiftl (word_at data (wordIdx + 1)) 32) bitIdx).
    { apply Z.shiftr_nonneg.
      pose proof (word_at_nonneg data wordIdx Hdata).
      pose proof (word_at_nonneg data (wordIdx + 1) Hdata).
      assert (0 <= Z.shiftl (word_at data (wordIdx + 1)) 32)
        by (apply Z.shiftl_nonneg; lia).
      lia. }
    erewrite huff_lookup_ok by eassumption. reflexivity.
Qed.

(** X12. Reading back a codebook written from a code table of
    [qoi_huff_encode] whose code words have at most 32 bits succeeds,
    consumes exactly the codebook, takes at most 511 of the 512 nodes of
    the tree arena, and builds a table and trees with which
    [huff_decode_next_byte], at any position of any byte buffer where the
    bits start with the code word of a symbol, returns that symbol and
    moves the position on by the length of its code word. *)
Theorem read_codebook_decodes histo bytes size p :
  Forall (fun e => table_len e <= 32) (build_table histo) ->
  holds bytes p (flat_map code_entry (build_table histo)) -> 0 <= p ->
  p + Z.of_nat (length (flat_map code_entry (build_table histo))) <= size ->
  exists dt tr nf,
    read_codebook 256 0 bytes size (repeat 0 2048, repeat zero_dnode 512, 0, p) =
    Some (dt, tr, nf, p + Z.of_nat (length (flat_map code_entry (build_table histo)))) /\
    0 <= nf <= 511 /\
    forall data dsize wordIdx bitIdx s,
      Forall is_byte data -> wordIdx + 1 < dsize / 4 -> 0 <= s < 256 ->
      Z.shiftr (word_at data wordIdx + Z.shiftl (word_at data (wordIdx + 1)) 32)
               bitIdx mod 2 ^ table_len (get zero_table (build_table histo) s) =
        table_bits (get zero_table (build_table histo) s) ->
      huff_decode_next_byte data dsize dt tr (wordIdx, bitIdx) =
      (s, (if bitIdx + table_len (get zero_table (build_table histo) s) >=? 32
           then wordIdx + 1 else wordIdx,
           (bitIdx + table_len (get zero_table (build_table histo) s)) mod 32)).
Proof.
  intros Hall Hh Hp Hsz.
  exact (read_codebook_decodes_of_table _ histo bytes size p eq_refl Hall Hh Hp Hsz).
Qed.

Lemma spread_codebook_eq :
  flat_map code_entry (build_table spread_histo) = spread_codebook.
Proof. vm_compute. reflexivity. Qed.

Lemma holds_self l : holds l 0 l.
Proof.
  intros j Hj. unfold get. now rewrite Z.add_0_l, Nat2Z.id.
Qed.

Lemma read_codebook_decodes_witness :
  exists dt tr nf,
    read_codebook 256 0 spread_codebook (Z.of_nat (length spread_codebook))
                  (repeat 0 2048, repeat zero_dnode 512, 0, 0) =
    Some (dt, tr, nf,
          0 + Z.of_nat (length (flat_map code_entry (build_table spread_histo)))) /\
    0 <= nf <= 511 /\
    forall data dsize wordIdx bitIdx s,
      Forall is_byte data -> wordIdx + 1 < dsize / 4 -> 0 <= s < 256 ->
      Z.shiftr (word_at data wordIdx + Z.shiftl (word_at data (wordIdx + 1)) 32)
               bitIdx mod 2 ^ table_len (get zero_table (build_table spread_histo) s) =
        table_bits (get zero_table (build_table spread_histo) s) ->
      huff_decode_next_byte data dsize dt tr (wordIdx, bitIdx) =
      (s, (if bitIdx + table_len (get zero_table (build_table spread_histo) s) >=? 32
           then wordIdx + 1 else wordIdx,
           (bitIdx + table_len (get zero_table (build_table spread_histo) s)) mod 32)).
Proof.
  apply (read_codebook_decodes spread_histo spread_codebook
           (Z.of_nat (length spread_codebook)) 0).
  - apply (Forall_forallb (fun e => table_len e <=? 32)).
    + intros x Hx. now apply Z.leb_le.
    + vm_compute. reflexivity.
  - rewrite spread_codebook_eq. apply holds_self.
  - lia.
  - rewrite spread_codebook_eq. lia.
Defined.

(** X13. The packing loop of [qoi_huff_encode] writes the code words of
    the symbols back to back, first bit lowest: after any sequence of
    symbols the finished words and the word being filled hold, as one
    number, the sum of the code words each shifted to its bit position;
    [bitIdx] and the number of finished words give the length of the bit
    stream; every word fits 32 bits and the open word has no bit at or
    above [bitIdx]. *)
Theorem pack_symbol_stream table syms :
  codes_ok table -> Forall is_byte syms ->
  let '(done, cur, bitIdx) := fold_left (pack_symbol table) syms ([], 0, 0) in
  0 <= bitIdx < 32 /\
  snd (code_stream table syms) = 32 * Z.of_nat (length done) + bitIdx /\
  Forall (fun w => 0 <= w < 2 ^ 32) done /\
  0 <= cur < 2 ^ bitIdx /\
  words_val (done ++ [cur]) = fst (code_stream table syms).
Proof.
  intros Hok Hs.
  pose proof (pack_fold table syms ([], 0, 0) (0, 0) Hok Hs) as H.
  fold (code_stream table syms) in H.
  destruct (fold_left (pack_symbol table) syms ([], 0, 0)) as [[done cur] bitIdx].
  apply H. cbn. repeat split; try lia. constructor.
Qed.

Lemma flat_codes_ok : codes_ok (build_table flat_histo).
Proof. apply codes_ok_check; vm_compute; reflexivity. Qed.

Lemma pack_symbol_stream_witness :
  let '(done, cur, bitIdx) :=
    fold_left (pack_symbol (build_table flat_histo)) [7; 200; 31; 0; 255] ([], 0, 0) in
  0 <= bitIdx < 32 /\
  snd (code_stream (build_table flat_histo) [7; 200; 31; 0; 255])
    = 32 * Z.of_nat (length done) + bitIdx /\
  Forall (fun w => 0 <= w < 2 ^ 32) done /\
  0 <= cur < 2 ^ bitIdx /\
  words_val (done ++ [cur]) = fst (code_stream (build_table flat_histo) [7; 200; 31; 0; 255]).
Proof.
  apply (pack_symbol_stream (build_table flat_histo) [7; 200; 31; 0; 255]).
  - exact flat_codes_ok.
  - unfold is_byte. repeat constructor; lia.
Defined.
